(** * The Run Control Plane of the workflow dashboard

    A shallow embedding of the server actions of [@workflow/web]
    (src/unnamed/part_000): the configuration resolver and world cache
    ([getWorldFromEnv]), the error classifier ([createServerActionError],
    [getUserFacingErrorMessage]), the response envelope ([toJSONCompatible],
    [createResponse]) and the wake-up reconciler ([wakeUpRun]).

    JavaScript strings are modelled as [string] (code units 0..255),
    JavaScript objects used as records by their list of own properties in
    creation order, [process.env] and the world cache ([Map]) by [gmap]. *)

From Stdlib Require Import ZArith NArith Ascii List Permutation.
From stdpp Require Import base option list sorting strings pretty gmap.

#[local] Set Warnings "-register-all".
Local Open Scope Z_scope.

(** ** JavaScript built-ins used by the server actions *)
Module Js.

(** *** Property lists

    An ordinary object is the list of its own enumerable string-keyed
    properties in order of creation.  A property whose value is [undefined]
    is present in the list; [props (option string)] is
    [Record<string, string | undefined>]. *)
Definition props (V : Type) : Type := list (string * V).

(** The property list of a real object never repeats a key. *)
Definition wf {V} (o : props V) : Prop := NoDup o.*1.

Fixpoint get_own {V} (o : props V) (k : string) : option V :=
  match o with
  | [] => None
  | (k', v) :: o' => if decide (k' = k) then Some v else get_own o' k
  end.

(** [o[k]] on a [Record<string, string | undefined>]: an absent property
    reads as [undefined], like a property bound to [undefined]. *)
Definition read (o : props (option string)) (k : string) : option string :=
  default None (get_own o k).

(** CreateDataProperty: an existing key keeps its place, a new key is
    created last. *)
Fixpoint set_own {V} (o : props V) (k : string) (v : V) : props V :=
  match o with
  | [] => [(k, v)]
  | (k', v') :: o' =>
      if decide (k' = k) then (k, v) :: o' else (k', v') :: set_own o' k v
  end.

(** *** Array indices and the order of own property keys *)

Fixpoint digits_value (acc : N) (s : string) : option N :=
  match s with
  | EmptyString => Some acc
  | String c s' =>
      match Ascii.is_nat c with
      | Some d => digits_value (acc * 10 + N.of_nat d)%N s'
      | None => None
      end
  end.

(** An array index is a canonical numeric string (printing its value gives
    the string back) whose value is below 2^32 - 1. *)
Definition array_index (k : string) : option N :=
  match digits_value 0%N k with
  | Some n =>
      if decide (pretty n = k ∧ (n < 2 ^ 32 - 1)%N) then Some n else None
  | None => None
  end.

Definition is_array_index (k : string) : Prop := is_Some (array_index k).

Definition index_value (k : string) : N := default 0%N (array_index k).

Definition index_le (k1 k2 : string) : Prop :=
  (index_value k1 ≤ index_value k2)%N.

#[global] Instance index_le_dec : RelDecision index_le.
Proof. intros k1 k2. unfold index_le. apply _. Defined.

(** OrdinaryOwnPropertyKeys: array indices in ascending numeric order, then
    the other keys in order of creation. *)
Definition OwnPropertyKeys {V} (o : props V) : list string :=
  merge_sort index_le (filter is_array_index o.*1)
    ++ filter (λ k, ¬ is_array_index k) o.*1.

Definition Object_keys {V} (o : props V) : list string := OwnPropertyKeys o.

Definition Object_values (o : props (option string)) : list (option string) :=
  read o <$> OwnPropertyKeys o.

Definition Object_entries (o : props (option string))
  : list (string * option string) :=
  (λ k, (k, read o k)) <$> OwnPropertyKeys o.

Definition Object_fromEntries {V} (entries : list (string * V)) : props V :=
  fold_left (λ o e, set_own o e.1 e.2) entries [].

(** [{ ...o }]: a fresh object with the own properties of [o], copied in
    the order of its own property keys. *)
Definition spread (o : props (option string)) : props (option string) :=
  Object_fromEntries (Object_entries o).

(** [Array.prototype.sort()] without a comparator orders strings by code
    units. *)
Definition Array_sort (l : list string) : list string :=
  merge_sort String.le l.

(** *** JSON.stringify on a record of strings *)

Definition dquote : ascii := "034"%char.
Definition backslash : ascii := "092"%char.

Definition hex_digit (n : N) : ascii :=
  match n with
  | 0 => "0" | 1 => "1" | 2 => "2" | 3 => "3" | 4 => "4" | 5 => "5"
  | 6 => "6" | 7 => "7" | 8 => "8" | 9 => "9" | 10 => "a" | 11 => "b"
  | 12 => "c" | 13 => "d" | 14 => "e" | _ => "f"
  end%char%N.

(** QuoteJSONString, one code unit at a time. *)
Definition escape_code_unit (c : ascii) : string :=
  let n := N_of_ascii c in
  if decide (c = dquote) then String backslash (String dquote "")
  else if decide (c = backslash) then String backslash (String backslash "")
  else if decide (n = 8)%N then String backslash "b"
  else if decide (n = 9)%N then String backslash "t"
  else if decide (n = 10)%N then String backslash "n"
  else if decide (n = 12)%N then String backslash "f"
  else if decide (n = 13)%N then String backslash "r"
  else if decide (n < 32)%N then
    String backslash
      (String "u" (String "0" (String "0"
        (String (hex_digit (n / 16)) (String (hex_digit (n mod 16)) "")))))
  else String c "".

Fixpoint escape (s : string) : string :=
  match s with
  | EmptyString => ""
  | String c s' => escape_code_unit c +:+ escape s'
  end.

Definition quote (s : string) : string :=
  String dquote (escape s +:+ String dquote "").

Fixpoint join (sep : string) (l : list string) : string :=
  match l with
  | [] => ""
  | [s] => s
  | s :: l' => s +:+ sep +:+ join sep l'
  end.

(** SerializeJSONProperty for one member of a record of strings: a member
    whose value is [undefined] is left out. *)
Definition member (o : props (option string)) (k : string) : option string :=
  match read o k with
  | Some v => Some (quote k +:+ ":" +:+ quote v)
  | None => None
  end.

Definition JSON_stringify (o : props (option string)) : string :=
  "{" +:+ join "," (omap (member o) (OwnPropertyKeys o)) +:+ "}".

End Js.

(** ** Config Resolver *)

Abbreviation EnvMap := (Js.props (option string)).
Abbreviation ProcessEnv := (gmap string string).

Definition buildEnvMapFromProcessEnv (env : ProcessEnv) : EnvMap :=
  [ ("WORKFLOW_TARGET_WORLD", env !! "WORKFLOW_TARGET_WORLD");
    ("WORKFLOW_VERCEL_ENV", env !! "WORKFLOW_VERCEL_ENV");
    ("WORKFLOW_VERCEL_AUTH_TOKEN", env !! "WORKFLOW_VERCEL_AUTH_TOKEN");
    ("WORKFLOW_VERCEL_PROJECT", env !! "WORKFLOW_VERCEL_PROJECT");
    ("WORKFLOW_VERCEL_TEAM", env !! "WORKFLOW_VERCEL_TEAM");
    ("PORT", env !! "PORT");
    ("WORKFLOW_MANIFEST_PATH", env !! "WORKFLOW_MANIFEST_PATH");
    ("WORKFLOW_LOCAL_DATA_DIR", env !! "WORKFLOW_LOCAL_DATA_DIR");
    ("WORKFLOW_POSTGRES_URL", env !! "WORKFLOW_POSTGRES_URL") ].

(** [(v) => v !== undefined && v !== ''] *)
Definition nonEmptySetting (v : option string) : bool :=
  bool_decide (v ≠ None) && bool_decide (v ≠ Some "").

(** The local constants of [getWorldFromEnv], as functions of
    [process.env] and of the [envMap] argument. *)
Definition hasServerConfig (env : ProcessEnv) : bool :=
  existsb nonEmptySetting (Js.Object_values (buildEnvMapFromProcessEnv env)).

Definition effectiveEnvMap (env : ProcessEnv) (envMap : EnvMap) : EnvMap :=
  if hasServerConfig env then buildEnvMapFromProcessEnv env else envMap.

Definition sortedKeys (effective : EnvMap) : list string :=
  Js.Array_sort (Js.Object_keys effective).

Definition sortedEntries (effective : EnvMap) : list (string * option string) :=
  (λ key, (key, Js.read effective key)) <$> sortedKeys effective.

Definition cacheKeyOf (effective : EnvMap) : string :=
  Js.JSON_stringify (Js.Object_fromEntries (sortedEntries effective)).

Definition cacheKey (env : ProcessEnv) (envMap : EnvMap) : string :=
  cacheKeyOf (effectiveEnvMap env envMap).

(** ** Raised values *)

(** A raised value ([error: unknown] in a [catch] clause), seen through
    the properties the classifier probes.  [thrown_toString] is the outcome
    of [String(error)]: the string, or the value that the conversion raises
    (an object without a usable [toString], or one whose [toString]
    raises). *)
Inductive Thrown : Type := mkThrown {
  instanceofError : bool;
  thrown_message : string;
  thrown_stack : option string;
  thrown_toString : Thrown + string;
  isWorkflowAPIError : bool;
  isWorkflowRunNotFoundError : bool;
  thrown_status : option Z;
  thrown_url : option string;
  thrown_code : option string
}.

(** The [TypeError] that [JSON.stringify] raises on a BigInt. *)
Definition TypeError_BigInt : Thrown :=
  {| instanceofError := true;
     thrown_message := "Do not know how to serialize a BigInt";
     thrown_stack := None;
     thrown_toString := inr "TypeError: Do not know how to serialize a BigInt";
     isWorkflowAPIError := false;
     isWorkflowRunNotFoundError := false;
     thrown_status := None; thrown_url := None; thrown_code := None |}.

(** The [SyntaxError] that [JSON.parse] raises on [undefined], which is
    what [JSON.stringify] returns when the value itself serializes to
    nothing. *)
Definition SyntaxError_undefined : Thrown :=
  {| instanceofError := true;
     thrown_message := Js.quote "undefined" +:+ " is not valid JSON";
     thrown_stack := None;
     thrown_toString :=
       inr ("SyntaxError: " +:+ Js.quote "undefined" +:+ " is not valid JSON");
     isWorkflowAPIError := false;
     isWorkflowRunNotFoundError := false;
     thrown_status := None; thrown_url := None; thrown_code := None |}.

(** ** JavaScript values and the JSON round trip *)

(** The values a server action may hand to [createResponse]: primitives,
    functions, arrays and plain objects.  [JNumber n] is the finite
    integral number [n] other than negative zero, [JFraction m e] the
    finite number [m / 2^e] that is not integral, [JNegZero] is [-0] and
    [JNotFinite] stands for [NaN] and the infinities.  [JObject] lists the
    own enumerable properties in the order [JSON.stringify] visits them,
    which is the order in which [JSON.parse] creates them again.
    [JFunction call] is a function: [call key] is the completion of the
    call [JSON.stringify] makes when the function is the [toJSON] member
    of a value stored under [key] (it returns a value or raises);
    functions that change the value being serialized are left out. *)
Inductive JsValue : Type :=
| JUndefined
| JNull
| JBool (b : bool)
| JNumber (n : Z)
| JFraction (m : Z) (e : positive)
| JNegZero
| JNotFinite
| JString (s : string)
| JBigInt (n : Z)
| JSymbol
| JFunction (call : string → Thrown + JsValue)
| JArray (elements : list JsValue)
| JObject (members : list (string * JsValue)).

(** SerializeJSONProperty for the value [value] stored under [key],
    composed with the value that the text denotes: [inr None] when the
    property serializes to [undefined], [inl] when [JSON.stringify]
    raises.  An object whose own [toJSON] member is a function is replaced
    by what the call returns, once ([callToJSON] is off for the value that
    the call returned, and on again for its parts). *)
Fixpoint SerializeJSONProperty (callToJSON : bool) (key : string)
    (value : JsValue) {struct value} : Thrown + option JsValue :=
  match value with
  | JUndefined | JSymbol | JFunction _ => inr None
  | JNull => inr (Some JNull)
  | JBool b => inr (Some (JBool b))
  | JNumber n => inr (Some (JNumber n))
  | JFraction m e => inr (Some (JFraction m e))
  | JNegZero => inr (Some (JNumber 0))
  | JNotFinite => inr (Some JNull)
  | JString s => inr (Some (JString s))
  | JBigInt _ => inl TypeError_BigInt
  | JArray elements =>
      match
        (fix go (index : nat) (l : list JsValue) : Thrown + list JsValue :=
           match l with
           | [] => inr []
           | e :: l' =>
               match SerializeJSONProperty true (pretty index) e with
               | inl t => inl t
               | inr r =>
                   match go (S index) l' with
                   | inl t => inl t
                   | inr rs => inr (default JNull r :: rs)
                   end
               end
           end) 0%nat elements
      with
      | inl t => inl t
      | inr rs => inr (Some (JArray rs))
      end
  | JObject members =>
      match
        (if callToJSON then
           (fix toJSON (l : list (string * JsValue))
              : option (Thrown + option JsValue) :=
              match l with
              | [] => None
              | (k, e) :: l' =>
                  if decide (k = "toJSON") then
                    match e with
                    | JFunction call =>
                        Some match call key with
                             | inl t => inl t
                             | inr value' => SerializeJSONProperty false key value'
                             end
                    | _ => None
                    end
                  else toJSON l'
              end) members
         else None)
      with
      | Some r => r
      | None =>
          match
            (fix go (l : list (string * JsValue))
               : Thrown + list (string * JsValue) :=
               match l with
               | [] => inr []
               | (k, e) :: l' =>
                   match SerializeJSONProperty true k e with
                   | inl t => inl t
                   | inr r =>
                       match go l' with
                       | inl t => inl t
                       | inr rs =>
                           inr (match r with
                                | Some d => (k, d) :: rs
                                | None => rs
                                end)
                       end
                   end
               end) members
          with
          | inl t => inl t
          | inr rs => inr (Some (JObject rs))
          end
      end
  end.

(** [JSON.parse(JSON.stringify(v))]: the value is serialized as the
    property with the empty key; [JSON.parse] raises when there is no
    text. *)
Definition JSON_roundtrip (v : JsValue) : Thrown + JsValue :=
  match SerializeJSONProperty true "" v with
  | inl t => inl t
  | inr None => inl SyntaxError_undefined
  | inr (Some d) => inr d
  end.

(** [data && typeof data === 'object'] *)
Definition truthy_object (data : JsValue) : bool :=
  match data with
  | JArray _ | JObject _ => true
  | _ => false
  end.

Definition toJSONCompatible (data : JsValue) : Thrown + JsValue :=
  if truthy_object data then JSON_roundtrip data else inr data.

(** ** Error records and the response envelope *)

Inductive Layer : Type := server | API.

Record RequestInfo : Type := {
  operation : string;
  params : JsValue;
  status : option Z;
  url : option string;
  code : option string
}.

Record ServerActionError : Type := {
  message : string;
  layer : Layer;
  cause : option string;
  request : option RequestInfo
}.

Inductive ServerActionResult : Type :=
| Success (data : JsValue)
| Failure (error : ServerActionError).

(** An [Error] instance, as far as the classifier reads it. *)
Record ErrorObject : Type := { err_message : string; err_stack : option string }.

(** The host's [stack] property of a fresh [new Error(msg)]. *)
Class ErrorHost : Type := new_Error_stack : string → option string.

(** [s.includes(p)] *)
Fixpoint includes (s p : string) : bool :=
  String.prefix p s ||
  match s with
  | EmptyString => false
  | String _ s' => includes s' p
  end.

(** [a || b] on strings that may be [undefined]. *)
Definition or_else (a : option string) (b : string) : string :=
  match a with
  | Some s => if decide (s = "") then b else s
  | None => b
  end.

Definition getUserFacingErrorMessage (error : ErrorObject) (status : option Z)
  : string :=
  match status with
  | None | Some 0 => "Error creating response: " +:+ err_message error
  | Some status =>
      if decide (status = 403 ∨ status = 401) then
        "Access denied. Please check your credentials and permissions."
      else if decide (status = 404) then
        "The requested resource was not found."
      else if decide (status = 500) then
        "Error connecting to World backend, please try again later."
      else if includes (err_message error) "Network"
              || includes (err_message error) "fetch" then
        "Network error. Please check your connection and try again."
      else or_else (Some (err_message error)) "An unexpected error occurred"
  end.

(** [error instanceof Error ? error : new Error(String(error))]: raises
    what [String(error)] raises. *)
Definition toError `{ErrorHost} (error : Thrown) : Thrown + ErrorObject :=
  if instanceofError error then
    inr {| err_message := thrown_message error; err_stack := thrown_stack error |}
  else
    match thrown_toString error with
    | inl t => inl t
    | inr s => inr {| err_message := s; err_stack := new_Error_stack s |}
    end.

Definition createServerActionError `{ErrorHost}
    (error : Thrown) (operation : string) (requestParams : option JsValue)
  : Thrown + ServerActionResult :=
  match toError error with
  | inl t => inl t
  | inr err =>
      let params := default (JObject []) requestParams in
      let errorResponse :=
        if isWorkflowAPIError error then
          {| message := getUserFacingErrorMessage err (thrown_status error);
             layer := API;
             cause := Some (or_else (err_stack err) (err_message err));
             request := Some {| operation := operation; params := params;
                                status := thrown_status error;
                                url := thrown_url error;
                                code := thrown_code error |} |}
        else if isWorkflowRunNotFoundError error then
          {| message :=
               getUserFacingErrorMessage
                 {| err_message := thrown_message error;
                    err_stack := thrown_stack error |} (Some 404);
             layer := API;
             cause := Some (or_else (err_stack err) (err_message err));
             request := Some {| operation := operation; params := params;
                                status := Some 404; url := None; code := None |} |}
        else
          {| message := getUserFacingErrorMessage err None;
             layer := server;
             cause := Some (or_else (err_stack err) (err_message err));
             request := Some {| operation := operation; params := params;
                                status := Some 500; url := None; code := None |} |}
      in
      inr (Failure errorResponse)
  end.

Definition createResponse (data : JsValue) : Thrown + ServerActionResult :=
  match toJSONCompatible data with
  | inl t => inl t
  | inr data => inr (Success data)
  end.

(** ** The execution store behind a World, and the state of the process *)

(** Identity of a World instance (a JavaScript object reference). *)
Definition World : Type := nat.

Record WorkflowRun : Type := {
  run_runId : string;
  workflowName : string;
  deploymentId : string
}.

Record Event : Type := {
  eventId : string;
  eventType : string;
  correlationId : option string
}.

(** The request body of [world.events.create]. *)
Record CreateEventRequest : Type := {
  req_eventType : string;
  req_correlationId : string
}.

(** The calls a server action makes on a World, with their arguments. *)
Inductive Call : Type :=
| RunsGet (world : World) (runId : string)
| EventsList (world : World) (runId : string) (limit : N)
| EventsCreate (world : World) (runId : string) (data : CreateEventRequest)
| Queue (world : World) (queueName : string) (payload_runId : string)
        (opts_deploymentId : string).

Inductive Outcome : Type :=
| Raised (error : Thrown)
| ReturnedRun (run : WorkflowRun)
| ReturnedEvents (data : list Event)
| ReturnedVoid.

(** What an observer of the World sees: a call is issued, and later settles
    (its promise is fulfilled or rejected). *)
Inductive TraceEvent : Type :=
| Issued (c : Call)
| Settled (c : Call) (o : Outcome).

(** The part of the [World] interface ([@workflow/world]) the wake-up uses,
    over an arbitrary store, and the outcome of constructing a World. *)
Class WorldOps (Store : Type) : Type := {
  createWorld_raises : ProcessEnv → option Thrown;
  runs_get : World → string → Store → (Thrown + WorkflowRun) * Store;
  events_list : World → string → N → Store → (Thrown + list Event) * Store;
  events_create :
    World → string → CreateEventRequest → Store → (Thrown + unit) * Store;
  world_queue : World → string → string → string → Store → (Thrown + unit) * Store
}.

Record State (Store : Type) : Type := mkState {
  process_env : ProcessEnv;
  worldCache : gmap string World;
  constructed : nat;
  store : Store;
  trace : list TraceEvent
}.
Arguments mkState {Store}.
Arguments process_env {Store}.
Arguments worldCache {Store}.
Arguments constructed {Store}.
Arguments store {Store}.
Arguments trace {Store}.

(** *** A state and exception monad for the bodies of the server actions *)

Definition M (Store A : Type) : Type := State Store → (Thrown + A) * State Store.

Definition ret {Store A} (a : A) : M Store A := λ s, (inr a, s).

Definition throw {Store A} (t : Thrown) : M Store A := λ s, (inl t, s).

Definition bind {Store A B} (m : M Store A) (f : A → M Store B) : M Store B :=
  λ s, match m s with
       | (inl t, s') => (inl t, s')
       | (inr a, s') => f a s'
       end.

Definition gets {Store A} (f : State Store → A) : M Store A := λ s, (inr (f s), s).

Definition modify {Store} (f : State Store → State Store) : M Store unit :=
  λ s, (inr tt, f s).

Definition lift {Store A} (r : Thrown + A) : M Store A := λ s, (r, s).

(** [try { body } catch (error) { return handler(error) }]: what the
    handler raises is raised by the whole. *)
Definition try_catch {Store A} (body : M Store A) (handler : Thrown → Thrown + A)
  : M Store A :=
  λ s, match body s with
       | (inl t, s') => (handler t, s')
       | (inr a, s') => (inr a, s')
       end.

#[global] Instance M_ret {Store} : MRet (M Store) := λ A, ret.
#[global] Instance M_bind {Store} : MBind (M Store) := λ A B f m, bind m f.

(** [for (const x of l) { await body(x) }] *)
Fixpoint for_of {Store A} (l : list A) (body : A → M Store unit) : M Store unit :=
  match l with
  | [] => ret tt
  | x :: l' => body x;; for_of l' body
  end.

Definition set_process_env {Store} (env : ProcessEnv) (s : State Store) : State Store :=
  mkState env (worldCache s) (constructed s) (store s) (trace s).

Definition set_worldCache {Store} (c : gmap string World) (s : State Store)
  : State Store :=
  mkState (process_env s) c (constructed s) (store s) (trace s).

Definition set_constructed {Store} (n : nat) (s : State Store) : State Store :=
  mkState (process_env s) (worldCache s) n (store s) (trace s).

Definition set_store {Store} (st : Store) (s : State Store) : State Store :=
  mkState (process_env s) (worldCache s) (constructed s) st (trace s).

Definition log {Store} (e : TraceEvent) (s : State Store) : State Store :=
  mkState (process_env s) (worldCache s) (constructed s) (store s) (trace s ++ [e]).

(** [await world.op(args)]: the call is issued, the store runs it, and the
    action resumes once the promise has settled. *)
Definition await {Store A} (c : Call) (op : Store → (Thrown + A) * Store)
    (outcome : A → Outcome) : M Store A :=
  λ s,
    let s1 := log (Issued c) s in
    match op (store s1) with
    | (inl t, st) => (inl t, log (Settled c (Raised t)) (set_store st s1))
    | (inr a, st) => (inr a, log (Settled c (outcome a)) (set_store st s1))
    end.

(** ** Instance Cache: [getWorldFromEnv] *)

(** The loop that copies the non-empty settings into [process.env].  The
    settings are taken to be what the environment of a process can hold: a
    name that is not empty and has no [=], and names and values without a
    NUL character (the host hands them over as C strings, which end at the
    first NUL). *)
Definition applyEnv (entries : list (string * option string)) (env : ProcessEnv)
  : ProcessEnv :=
  fold_left
    (λ env e,
       match e.2 with
       | None => env
       | Some value => if decide (value = "") then env else <[e.1 := value]> env
       end)
    entries env.

(** Modelled from the spec: [createWorld] of [@workflow/core/runtime], whose
    code is not part of the sources at hand.  Section 4.2: the cache
    constructs a new ConnectionHandle, and a construction failure
    propagates to the caller.  A construction that does not raise yields an
    object that did not exist before. *)
Definition createWorld {Store} `{WorldOps Store} : M Store World :=
  λ s,
    match createWorld_raises (process_env s) with
    | Some t => (inl t, s)
    | None => (inr (constructed s), set_constructed (S (constructed s)) s)
    end.

Definition getWorldFromEnv {Store} `{WorldOps Store} (envMap : EnvMap)
  : M Store World :=
  env ← gets process_env;
  let effectiveEnvMap := effectiveEnvMap env envMap in
  let cacheKey := cacheKeyOf effectiveEnvMap in
  cachedWorld ← gets (λ s, worldCache s !! cacheKey);
  match cachedWorld with
  | Some cachedWorld => mret cachedWorld
  | None =>
      modify
        (λ s, set_process_env
                (applyEnv (Js.Object_entries effectiveEnvMap) (process_env s)) s);;
      world ← createWorld;
      modify (λ s, set_worldCache (<[cacheKey := world]> (worldCache s)) s);;
      mret world
  end.

(** ** Wake-Up Reconciler: [wakeUpRun] *)

Record StopSleepOptions : Type := { correlationIds : option (list string) }.

(** JavaScript truthiness of a [string | undefined]. *)
Definition truthy (c : option string) : Prop :=
  match c with
  | Some s => s ≠ ""
  | None => False
  end.

#[global] Instance truthy_dec c : Decision (truthy c).
Proof. destruct c; simpl; apply _. Defined.

Definition wakeUpRun_body {Store} `{WorldOps Store}
    (worldEnv : EnvMap) (runId : string) (options : option StopSleepOptions)
  : M Store ServerActionResult :=
  world ← getWorldFromEnv (Js.spread worldEnv);
  run ← await (RunsGet world runId) (runs_get world runId) ReturnedRun;
  let deploymentId := deploymentId run in
  eventsResult ←
    await (EventsList world runId 1000) (events_list world runId 1000)
      ReturnedEvents;
  let waitCreatedEvents :=
    filter (λ e, eventType e = "wait_created") eventsResult in
  let waitCompletedCorrelationIds : gset (option string) :=
    list_to_set
      (correlationId <$>
         filter (λ e, eventType e = "wait_completed") eventsResult) in
  let pendingWaits :=
    filter (λ e, correlationId e ∉ waitCompletedCorrelationIds)
      waitCreatedEvents in
  let pendingWaits :=
    match options ≫= correlationIds with
    | Some ids =>
        if decide (0 < length ids)%nat then
          let targetCorrelationIds : gset (option string) :=
            list_to_set (Some <$> ids) in
          filter
            (λ e, truthy (correlationId e)
                  ∧ correlationId e ∈ targetCorrelationIds)
            pendingWaits
        else pendingWaits
    | None => pendingWaits
    end in
  for_of pendingWaits
    (λ waitEvent,
       match correlationId waitEvent with
       | Some c =>
           if decide (c = "") then mret tt
           else
             let data :=
               {| req_eventType := "wait_completed"; req_correlationId := c |} in
             await (EventsCreate world runId data)
               (events_create world runId data) (λ _, ReturnedVoid)
       | None => mret tt
       end);;
  (if decide (0 < length pendingWaits)%nat then
     let queueName := "__wkf_workflow_" +:+ workflowName run in
     await (Queue world queueName runId deploymentId)
       (world_queue world queueName runId deploymentId) (λ _, ReturnedVoid)
   else mret tt);;
  lift
    (createResponse
       (JObject [("stoppedCount", JNumber (Z.of_nat (length pendingWaits)))])).

Definition wakeUpRun {Store} `{WorldOps Store} `{ErrorHost}
    (worldEnv : EnvMap) (runId : string) (options : option StopSleepOptions)
  : M Store ServerActionResult :=
  try_catch (wakeUpRun_body worldEnv runId options)
    (λ error,
       createServerActionError error "wakeUpRun"
         (Some
            (JObject
               [ ("runId", JString runId);
                 ("correlationIds",
                  match options ≫= correlationIds with
                  | Some ids => JArray (JString <$> ids)
                  | None => JUndefined
                  end) ]))).

(** ** An in-memory World, to run the actions on concrete inputs *)
Module MemoryWorld.

(** The store holds the events of the single run [run_1], oldest first. *)
Definition MemStore : Type := list Event.

Definition the_run : WorkflowRun :=
  {| run_runId := "run_1"; workflowName := "sleeper"; deploymentId := "dpl_1" |}.

Definition run_not_found : Thrown :=
  {| instanceofError := true;
     thrown_message := "Workflow run not found";
     thrown_stack := None;
     thrown_toString := inr "WorkflowRunNotFoundError: Workflow run not found";
     isWorkflowAPIError := false;
     isWorkflowRunNotFoundError := true;
     thrown_status := None; thrown_url := None; thrown_code := None |}.

#[global] Instance mem_ops : WorldOps MemStore := {|
  createWorld_raises := λ _, None;
  runs_get := λ _ runId st,
    if decide (runId = "run_1") then (inr the_run, st) else (inl run_not_found, st);
  events_list := λ _ _ limit st, (inr (take (N.to_nat limit) st), st);
  events_create := λ _ _ data st,
    (inr tt,
     st ++ [ {| eventId := "evnt_" +:+ pretty (length st);
                eventType := req_eventType data;
                correlationId := Some (req_correlationId data) |} ]);
  world_queue := λ _ _ _ _ st, (inr tt, st)
|}.

#[global] Instance mem_host : ErrorHost := λ msg, Some ("Error: " +:+ msg).

Definition initial (events : MemStore) : State MemStore :=
  mkState ∅ ∅ 0 events [].

Definition wait_created (id : string) (c : option string) : Event :=
  {| eventId := id; eventType := "wait_created"; correlationId := c |}.

Definition wait_completed (id : string) (c : option string) : Event :=
  {| eventId := id; eventType := "wait_completed"; correlationId := c |}.

End MemoryWorld.


(** * Properties *)

(** ** Sorting a list without repetitions *)
Section sorting_facts.
Context {A : Type} (R : relation A) `{!RelDecision R}.
Context `{!Transitive R, !Total R}.

Lemma StronglySorted_filter_keep (P : A → Prop) `{!∀ x, Decision (P x)} l :
  StronglySorted R l → StronglySorted R (filter P l).
Proof.
  induction 1 as [|x l Hl IH Hx]; [constructor|].
  rewrite filter_cons. case_decide; [|done].
  constructor; [done|].
  apply Forall_forall. intros y [_ Hy]%list_elem_of_filter.
  by eapply Forall_forall in Hx.
Qed.

(** The sorted list is determined by the elements, when [R] orders them
    without ties. *)
Lemma merge_sort_perm l1 l2 :
  (∀ x y, x ∈ l1 → y ∈ l1 → R x y → R y x → x = y) →
  l1 ≡ₚ l2 → merge_sort R l1 = merge_sort R l2.
Proof.
  intros Hanti Hperm.
  apply (StronglySorted_unique_strong R).
  - intros x y Hx Hy. apply Hanti.
    + by rewrite merge_sort_Permutation in Hx.
    + by rewrite merge_sort_Permutation, <-Hperm in Hy.
  - by apply StronglySorted_merge_sort.
  - by apply StronglySorted_merge_sort.
  - by rewrite !merge_sort_Permutation.
Qed.

Lemma filter_merge_sort (P : A → Prop) `{!∀ x, Decision (P x)} l :
  (∀ x y, x ∈ l → y ∈ l → R x y → R y x → x = y) →
  filter P (merge_sort R l) = merge_sort R (filter P l).
Proof.
  intros Hanti.
  apply (StronglySorted_unique_strong R).
  - intros x y [_ Hx]%list_elem_of_filter Hy. apply Hanti.
    + by rewrite merge_sort_Permutation in Hx.
    + rewrite merge_sort_Permutation in Hy.
      by apply list_elem_of_filter in Hy as [_ ?].
  - apply StronglySorted_filter_keep. by apply StronglySorted_merge_sort.
  - by apply StronglySorted_merge_sort.
  - by rewrite !merge_sort_Permutation.
Qed.

End sorting_facts.

(** ** Property lists *)
Section props_facts.
Context {V : Type}.
Implicit Types (o : Js.props V) (k : string) (v : V).

Lemma get_own_Some o k v : Js.get_own o k = Some v → (k, v) ∈ o.
Proof.
  induction o as [|[k' v'] o IH]; simpl; [done|].
  case_decide; intros; simplify_eq; [left | right; auto].
Qed.

Lemma get_own_None o k : Js.get_own o k = None ↔ k ∉ o.*1.
Proof.
  induction o as [|[k' v'] o IH]; simpl.
  - split; [intros _; apply not_elem_of_nil | done].
  - rewrite not_elem_of_cons, <-IH.
    case_decide; split; try done; [intros [? _]; congruence | by intros [_ ?]].
Qed.

Lemma get_own_elem o k v : Js.wf o → (k, v) ∈ o → Js.get_own o k = Some v.
Proof.
  unfold Js.wf. induction o as [|[k' v'] o IH]; simpl.
  - by intros _ ?%elem_of_nil.
  - rewrite NoDup_cons. intros [Hk' Ho] Hin.
    apply elem_of_cons in Hin as [?|Hin]; simplify_eq.
    + by rewrite decide_True.
    + rewrite decide_False; [auto|].
      intros ->. apply Hk'. by apply (list_elem_of_fmap_2 fst) in Hin.
Qed.

Lemma get_own_Permutation o1 o2 k :
  Js.wf o1 → o1 ≡ₚ o2 → Js.get_own o1 k = Js.get_own o2 k.
Proof.
  intros Hwf1 Hperm.
  assert (Js.wf o2) as Hwf2 by (unfold Js.wf in *; by rewrite <-Hperm).
  destruct (Js.get_own o1 k) as [v|] eqn:H1.
  - symmetry. apply get_own_elem; [done|].
    rewrite <-Hperm. by apply get_own_Some.
  - symmetry. apply get_own_None. apply get_own_None in H1.
    by rewrite <-Hperm.
Qed.

Lemma set_own_fresh o k v : k ∉ o.*1 → Js.set_own o k v = o ++ [(k, v)].
Proof.
  induction o as [|[k' v'] o IH]; simpl; [done|].
  rewrite not_elem_of_cons. intros [? ?].
  rewrite decide_False by done. by rewrite IH.
Qed.

Lemma fromEntries_app_NoDup (acc l : Js.props V) :
  NoDup (acc ++ l).*1 →
  fold_left (λ o e, Js.set_own o e.1 e.2) l acc = acc ++ l.
Proof.
  revert acc. induction l as [|[k v] l IH]; intros acc Hnd; simpl.
  - by rewrite app_nil_r.
  - rewrite set_own_fresh.
    + rewrite IH; rewrite <-app_assoc; done.
    + rewrite fmap_app, fmap_cons in Hnd.
      apply NoDup_app in Hnd as (_ & Hdisj & _).
      intros Hin. apply (Hdisj _ Hin). left.
Qed.

Lemma Object_fromEntries_NoDup (l : Js.props V) :
  NoDup l.*1 → Js.Object_fromEntries l = l.
Proof. intros. unfold Js.Object_fromEntries. by rewrite fromEntries_app_NoDup. Qed.

End props_facts.

(** ** The order of own property keys *)

#[local] Instance index_le_trans : Transitive Js.index_le.
Proof. unfold Js.index_le. intros x y z. lia. Qed.

#[local] Instance index_le_total : Total Js.index_le.
Proof. unfold Js.index_le. intros x y. lia. Qed.

Lemma array_index_canonical k n : Js.array_index k = Some n → k = pretty n.
Proof.
  unfold Js.array_index. destruct (Js.digits_value _ _); [|done].
  case_decide as Hc; [|done]. intros [= <-]. symmetry. apply Hc.
Qed.

Lemma index_le_antisym k1 k2 :
  Js.is_array_index k1 → Js.is_array_index k2 →
  Js.index_le k1 k2 → Js.index_le k2 k1 → k1 = k2.
Proof.
  unfold Js.index_le, Js.index_value. intros [n1 H1] [n2 H2].
  rewrite H1, H2. simpl. intros.
  apply array_index_canonical in H1, H2. subst. f_equal. lia.
Qed.

Lemma index_le_antisym_filter (l : list string) x y :
  x ∈ filter Js.is_array_index l → y ∈ filter Js.is_array_index l →
  Js.index_le x y → Js.index_le y x → x = y.
Proof.
  intros [? _]%list_elem_of_filter [? _]%list_elem_of_filter.
  by apply index_le_antisym.
Qed.

(** Own-key order of a bare list of keys. *)
Definition key_order (ks : list string) : list string :=
  merge_sort Js.index_le (filter Js.is_array_index ks)
    ++ filter (λ k, ¬ Js.is_array_index k) ks.

Lemma OwnPropertyKeys_key_order {V} (o : Js.props V) :
  Js.OwnPropertyKeys o = key_order o.*1.
Proof. done. Qed.

Lemma key_order_Permutation ks : key_order ks ≡ₚ ks.
Proof.
  unfold key_order. rewrite merge_sort_Permutation.
  apply filter_app_complement.
Qed.

Lemma key_order_filter (P : string → Prop) `{!∀ k, Decision (P k)} ks :
  filter P (key_order ks) = key_order (filter P ks).
Proof.
  unfold key_order. rewrite filter_app. f_equal.
  - rewrite (filter_merge_sort Js.index_le P _ (index_le_antisym_filter ks)).
    f_equal. rewrite !list_filter_filter. apply list_filter_iff. tauto.
  - rewrite !list_filter_filter. apply list_filter_iff. tauto.
Qed.

Lemma Array_sort_Permutation (l1 l2 : list string) :
  l1 ≡ₚ l2 → Js.Array_sort l1 = Js.Array_sort l2.
Proof.
  intros Hperm. apply (merge_sort_perm String.le _ _); [|exact Hperm].
  intros x y _ _. apply (anti_symm String.le).
Qed.

Lemma Array_sort_filter (P : string → Prop) `{!∀ k, Decision (P k)} l :
  filter P (Js.Array_sort l) = Js.Array_sort (filter P l).
Proof.
  apply (filter_merge_sort String.le). intros x y _ _. apply (anti_symm String.le).
Qed.

(** ** Config Resolver: the fingerprint *)

Lemma read_Permutation (o1 o2 : EnvMap) k :
  Js.wf o1 → o1 ≡ₚ o2 → Js.read o1 k = Js.read o2 k.
Proof. intros. unfold Js.read. by rewrite (get_own_Permutation o1 o2). Qed.

Lemma sortedKeys_Permutation (o1 o2 : EnvMap) :
  o1 ≡ₚ o2 → sortedKeys o1 = sortedKeys o2.
Proof.
  intros Hperm. unfold sortedKeys, Js.Object_keys.
  apply Array_sort_Permutation.
  rewrite !OwnPropertyKeys_key_order, !key_order_Permutation.
  by rewrite Hperm.
Qed.

(** A setting is defined when reading it gives a string. *)
Definition defined (e : EnvMap) (k : string) : Prop := is_Some (Js.read e k).

#[local] Instance defined_dec e k : Decision (defined e k).
Proof. unfold defined. apply _. Defined.

Lemma defined_key (e : EnvMap) k : defined e k → k ∈ e.*1.
Proof.
  unfold defined, Js.read. intros [v Hv].
  destruct (Js.get_own e k) as [x|] eqn:Hget; [|done].
  apply get_own_Some in Hget. by apply (list_elem_of_fmap_2 fst) in Hget.
Qed.

Lemma omap_ext_elem {A B} (f g : A → option B) (l : list A) :
  (∀ x, x ∈ l → f x = g x) → omap f l = omap g l.
Proof.
  induction l as [|x l IH]; intros Hfg; [done|]. csimpl.
  rewrite (Hfg x) by left. rewrite IH; [done|].
  intros y Hy. apply Hfg. by right.
Qed.

Lemma omap_filter_is_Some {A B} (f : A → option B) (l : list A) :
  omap f l = omap f (filter (λ x, is_Some (f x)) l).
Proof.
  induction l as [|x l IH]; [done|]. rewrite filter_cons. csimpl.
  destruct (f x) as [y|] eqn:Hx.
  - rewrite decide_True by eauto. csimpl. by rewrite Hx, IH.
  - rewrite decide_False; [done|]. by intros [? ?].
Qed.

Lemma read_computed (f : string → option string) (ks : list string) k :
  k ∈ ks → Js.read ((λ k, (k, f k)) <$> ks) k = f k.
Proof.
  unfold Js.read. induction ks as [|k' ks IH]; [by intros ?%elem_of_nil|].
  intros Hin. simpl. case_decide; [by subst|].
  apply elem_of_cons in Hin as [?|?]; [congruence|auto].
Qed.

Lemma member_is_Some (e : EnvMap) k : is_Some (Js.member e k) ↔ defined e k.
Proof.
  unfold Js.member, defined. destruct (Js.read e k); [|done].
  split; eauto.
Qed.

(** The fingerprint lists the defined settings only, in the own-key order
    of their sorted names. *)
Lemma cacheKeyOf_normal_form (e : EnvMap) :
  Js.wf e →
  cacheKeyOf e =
    "{" +:+ Js.join ","
      (omap (Js.member e)
         (key_order (Js.Array_sort (filter (defined e) e.*1)))) +:+ "}".
Proof.
  intros Hwf. unfold cacheKeyOf, sortedEntries, Js.JSON_stringify.
  set (ks := sortedKeys e).
  assert (ks ≡ₚ e.*1) as Hks.
  { unfold ks, sortedKeys, Js.Array_sort, Js.Object_keys.
    by rewrite merge_sort_Permutation, OwnPropertyKeys_key_order,
      key_order_Permutation. }
  assert (((λ key, (key, Js.read e key)) <$> ks).*1 = ks) as Hfst.
  { rewrite <-list_fmap_compose. simpl. apply list_fmap_id. }
  rewrite Object_fromEntries_NoDup by (rewrite Hfst, Hks; exact Hwf).
  rewrite OwnPropertyKeys_key_order, Hfst.
  do 3 f_equal.
  rewrite (omap_ext_elem _ (Js.member e)).
  2:{ intros k Hk. rewrite key_order_Permutation in Hk.
      unfold Js.member. by rewrite (read_computed (Js.read e)). }
  rewrite omap_filter_is_Some.
  rewrite (list_filter_iff _ (defined e)) by (intros; apply member_is_Some).
  rewrite key_order_filter. do 2 f_equal.
  unfold ks, sortedKeys, Js.Object_keys.
  rewrite Array_sort_filter, OwnPropertyKeys_key_order, key_order_filter.
  apply Array_sort_Permutation, key_order_Permutation.
Qed.

(** Two records that read alike at every key have the same fingerprint. *)
Lemma cacheKeyOf_ext (e1 e2 : EnvMap) :
  Js.wf e1 → Js.wf e2 → (∀ k, Js.read e1 k = Js.read e2 k) →
  cacheKeyOf e1 = cacheKeyOf e2.
Proof.
  intros Hwf1 Hwf2 Hread.
  rewrite !cacheKeyOf_normal_form by done.
  assert (∀ k, defined e1 k ↔ defined e2 k) as Hdef.
  { intros k. unfold defined. by rewrite Hread. }
  assert (filter (defined e1) e1.*1 ≡ₚ filter (defined e2) e2.*1) as Hperm.
  { apply NoDup_Permutation; [by apply NoDup_filter..|].
    intros k. rewrite !list_elem_of_filter.
    split; intros [Hd _]; (split; [by apply Hdef|]).
    - apply defined_key. by apply Hdef.
    - apply defined_key. by apply Hdef. }
  rewrite (Array_sort_Permutation _ _ Hperm).
  do 3 f_equal. apply omap_ext_elem. intros k _.
  unfold Js.member. by rewrite Hread.
Qed.

(** The nine process-wide settings, in the order the record lists them. *)
Definition server_setting_names : list string :=
  [ "WORKFLOW_TARGET_WORLD"; "WORKFLOW_VERCEL_ENV"; "WORKFLOW_VERCEL_AUTH_TOKEN";
    "WORKFLOW_VERCEL_PROJECT"; "WORKFLOW_VERCEL_TEAM"; "PORT";
    "WORKFLOW_MANIFEST_PATH"; "WORKFLOW_LOCAL_DATA_DIR"; "WORKFLOW_POSTGRES_URL" ].

Lemma buildEnvMapFromProcessEnv_alt (env : ProcessEnv) :
  buildEnvMapFromProcessEnv env = (λ k, (k, env !! k)) <$> server_setting_names.
Proof. reflexivity. Qed.

Lemma buildEnvMapFromProcessEnv_keys (env : ProcessEnv) :
  (buildEnvMapFromProcessEnv env).*1 = server_setting_names.
Proof. reflexivity. Qed.

Lemma server_setting_names_NoDup : NoDup server_setting_names.
Proof. apply (bool_decide_unpack _). vm_compute. exact I. Qed.

Lemma server_setting_names_key_order :
  key_order server_setting_names = server_setting_names.
Proof. vm_compute. reflexivity. Qed.

Lemma buildEnvMapFromProcessEnv_wf env : Js.wf (buildEnvMapFromProcessEnv env).
Proof.
  unfold Js.wf. rewrite buildEnvMapFromProcessEnv_keys.
  apply server_setting_names_NoDup.
Qed.

Lemma Object_values_serverEnvMap (env : ProcessEnv) :
  Js.Object_values (buildEnvMapFromProcessEnv env)
  = (λ k, env !! k) <$> server_setting_names.
Proof.
  unfold Js.Object_values.
  rewrite OwnPropertyKeys_key_order, buildEnvMapFromProcessEnv_keys,
    server_setting_names_key_order, buildEnvMapFromProcessEnv_alt.
  apply list_fmap_ext. intros i k Hk.
  apply read_computed. by eapply list_elem_of_lookup_2.
Qed.

Lemma nonEmptySetting_true (v : option string) :
  nonEmptySetting v = true ↔ ∃ s, v = Some s ∧ s ≠ "".
Proof.
  unfold nonEmptySetting. rewrite andb_true_iff, !bool_decide_eq_true.
  destruct v as [s|]; [|split; [by intros [? _] | by intros (s & ? & _)]].
  split; [intros [_ Hs]; exists s; split; [done|congruence]|].
  intros (s' & [= <-] & Hne). split; congruence.
Qed.

Lemma hasServerConfig_true (env : ProcessEnv) :
  hasServerConfig env = true ↔
  ∃ k s, k ∈ server_setting_names ∧ env !! k = Some s ∧ s ≠ "".
Proof.
  unfold hasServerConfig. rewrite Object_values_serverEnvMap, existsb_exists.
  split.
  - intros (v & Hin & Hv). apply list_elem_of_In, list_elem_of_fmap in Hin.
    destruct Hin as (k & -> & Hk). apply nonEmptySetting_true in Hv as (s & ? & ?).
    by exists k, s.
  - intros (k & s & Hk & Hs & Hne). exists (env !! k). split.
    + apply list_elem_of_In, list_elem_of_fmap. by exists k.
    + apply nonEmptySetting_true. by exists s.
Qed.

Lemma hasServerConfig_false (env : ProcessEnv) :
  hasServerConfig env = false ↔
  ∀ k, k ∈ server_setting_names → env !! k = None ∨ env !! k = Some "".
Proof.
  rewrite <-not_true_iff_false, hasServerConfig_true. split.
  - intros Hno k Hk. destruct (env !! k) as [s|] eqn:Hs; [|by left].
    right. destruct (decide (s = "")) as [->|]; [done|].
    destruct Hno. by exists k, s.
  - intros Hall (k & s & Hk & Hs & Hne).
    destruct (Hall k Hk) as [?|?]; congruence.
Qed.

(** JSON text of a string without characters to escape. *)
Definition jstr (s : string) : string := Js.quote s.

Example cacheKey_mixed_keys :
  cacheKey ∅ [ ("b", Some "2"); ("a", Some "1"); ("10", Some "x");
               ("9", None); ("c", Some "") ]
  = "{" +:+ jstr "10" +:+ ":" +:+ jstr "x" +:+ "," +:+ jstr "a" +:+ ":" +:+ jstr "1"
    +:+ "," +:+ jstr "b" +:+ ":" +:+ jstr "2" +:+ "," +:+ jstr "c" +:+ ":" +:+ jstr ""
    +:+ "}".
Proof. vm_compute. reflexivity. Qed.

(** C3. Fingerprint determinism: two caller-supplied mappings holding the
    same key/value pairs, whatever the order in which the pairs were
    inserted, get the same cache key from the Config Resolver, under any
    process environment. *)
Theorem cacheKey_insertion_order (env : ProcessEnv) (m1 m2 : EnvMap) :
  Js.wf m1 → m1 ≡ₚ m2 → cacheKey env m1 = cacheKey env m2.
Proof.
  intros Hwf Hperm. unfold cacheKey, effectiveEnvMap.
  destruct (hasServerConfig env); [done|].
  unfold cacheKeyOf, sortedEntries.
  rewrite (sortedKeys_Permutation m1 m2 Hperm).
  do 2 f_equal. apply list_fmap_ext. intros _ k _.
  by rewrite (read_Permutation m1 m2).
Qed.

Lemma cacheKey_insertion_order_witness :
  let m1 := [ ("WORKFLOW_TARGET_WORLD", Some "local"); ("PORT", Some "3000");
              ("7", Some "x") ] in
  let m2 := [ ("7", Some "x"); ("PORT", Some "3000");
              ("WORKFLOW_TARGET_WORLD", Some "local") ] in
  Js.wf m1 ∧ m1 ≡ₚ m2 ∧ cacheKey ∅ m1 = cacheKey ∅ m2.
Proof.
  assert (Js.wf [ ("WORKFLOW_TARGET_WORLD", Some "local"); ("PORT", Some "3000");
                  ("7", Some "x") ]) as Hwf by (unfold Js.wf; compute_done).
  assert ([ ("WORKFLOW_TARGET_WORLD", Some "local"); ("PORT", Some "3000");
            ("7", Some "x") ]
          ≡ₚ [ ("7", Some "x"); ("PORT", Some "3000");
               ("WORKFLOW_TARGET_WORLD", Some "local") ]) as Hperm.
  { exact (Permutation_rev [ ("WORKFLOW_TARGET_WORLD", Some "local");
                             ("PORT", Some "3000"); ("7", Some "x") ]). }
  exact (conj Hwf (conj Hperm (cacheKey_insertion_order ∅ _ _ Hwf Hperm))).
Defined.

(** C5, on the resolver. When at least one of the nine process-wide
    settings is present and non-empty, the effective configuration is the
    process-wide record and the cache key is the same for every
    caller-supplied mapping; when every one of them is absent or empty, the
    caller-supplied mapping is the effective configuration. *)
Theorem effectiveEnvMap_precedence (env : ProcessEnv) (envMap : EnvMap) :
  ((∃ k s, k ∈ server_setting_names ∧ env !! k = Some s ∧ s ≠ "") →
     effectiveEnvMap env envMap = buildEnvMapFromProcessEnv env
     ∧ ∀ envMap', cacheKey env envMap' = cacheKey env envMap)
  ∧ ((∀ k, k ∈ server_setting_names → env !! k = None ∨ env !! k = Some "") →
     effectiveEnvMap env envMap = envMap).
Proof.
  split.
  - intros Hsome%hasServerConfig_true. unfold cacheKey, effectiveEnvMap.
    by rewrite Hsome.
  - intros Hnone%hasServerConfig_false. unfold effectiveEnvMap.
    by rewrite Hnone.
Qed.

Lemma effectiveEnvMap_precedence_witness :
  effectiveEnvMap {[ "WORKFLOW_TARGET_WORLD" := "local" ]} [("PORT", Some "1")]
    = buildEnvMapFromProcessEnv {[ "WORKFLOW_TARGET_WORLD" := "local" ]}
  ∧ effectiveEnvMap ∅ [("PORT", Some "1")] = [("PORT", Some "1")].
Proof.
  split.
  - apply (proj1 (effectiveEnvMap_precedence
                    {[ "WORKFLOW_TARGET_WORLD" := "local" ]} [("PORT", Some "1")])).
    exists "WORKFLOW_TARGET_WORLD", "local".
    split; [compute_done|]. split; [reflexivity|discriminate].
  - apply (proj2 (effectiveEnvMap_precedence ∅ [("PORT", Some "1")])).
    intros k _. left. reflexivity.
Defined.

(** With a process-wide setting in place, [getWorldFromEnv] itself does the
    same whatever mapping the caller passes. *)
Lemma getWorldFromEnv_ignores_envMap {Store} `{WorldOps Store}
    (envMap envMap' : EnvMap) (s : State Store) :
  hasServerConfig (process_env s) = true →
  getWorldFromEnv envMap' s = getWorldFromEnv envMap s.
Proof.
  intros Hsome. unfold getWorldFromEnv, mbind, M_bind, bind, gets.
  unfold effectiveEnvMap. by rewrite Hsome.
Qed.

(** ** Fingerprint: undefined and empty settings *)

Lemma read_app_undefined (m1 m2 : EnvMap) (k k' : string) :
  Js.wf (m1 ++ (k, None) :: m2) →
  Js.read (m1 ++ (k, None) :: m2) k' = Js.read (m1 ++ m2) k'.
Proof.
  unfold Js.wf, Js.read. induction m1 as [|[k1 v1] m1 IH]; simpl.
  - rewrite NoDup_cons. intros [Hk _]. case_decide; [subst|done].
    apply get_own_None in Hk. by rewrite Hk.
  - rewrite NoDup_cons. intros [_ Hnd]. case_decide; [done|auto].
Qed.

Lemma wf_app_remove {V} (m1 m2 : Js.props V) (p : string * V) :
  Js.wf (m1 ++ p :: m2) → Js.wf (m1 ++ m2).
Proof.
  unfold Js.wf. rewrite !fmap_app, fmap_cons.
  rewrite <-Permutation_middle, NoDup_cons. by intros [_ ?].
Qed.

(** C8, as the code has it. A key bound to [undefined] leaves the
    fingerprint as it is without the key, wherever the key was inserted;
    only absent and [undefined] values are treated as not-present. *)
Theorem cacheKey_undefined_as_absent
    (env : ProcessEnv) (m1 m2 : EnvMap) (k : string) :
  Js.wf (m1 ++ (k, None) :: m2) →
  cacheKey env (m1 ++ (k, None) :: m2) = cacheKey env (m1 ++ m2).
Proof.
  intros Hwf. unfold cacheKey, effectiveEnvMap.
  destruct (hasServerConfig env); [done|].
  apply cacheKeyOf_ext; [done|by eapply wf_app_remove|].
  intros k'. by apply read_app_undefined.
Qed.

Lemma cacheKey_undefined_as_absent_witness :
  Js.wf ([("WORKFLOW_TARGET_WORLD", Some "local")] ++ ("PORT", None) :: [])
  ∧ cacheKey ∅ ([("WORKFLOW_TARGET_WORLD", Some "local")] ++ ("PORT", None) :: [])
    = cacheKey ∅ ([("WORKFLOW_TARGET_WORLD", Some "local")] ++ []).
Proof.
  assert (Js.wf ([("WORKFLOW_TARGET_WORLD", Some "local")] ++ ("PORT", None) :: []))
    as Hwf by (unfold Js.wf; compute_done).
  exact (conj Hwf (cacheKey_undefined_as_absent ∅ _ _ _ Hwf)).
Defined.

(** C8 fails for the empty string: the mapping that binds [PORT] to the
    empty string and the empty mapping have different fingerprints. *)
Lemma cacheKey_empty_value_counterexample :
  cacheKey ∅ [("PORT", Some "")] = "{" +:+ jstr "PORT" +:+ ":" +:+ jstr "" +:+ "}"
  ∧ cacheKey ∅ [] = "{}"
  ∧ cacheKey ∅ [("PORT", Some "")] ≠ cacheKey ∅ [].
Proof. split; [|split]; [vm_compute; reflexivity..|compute_done]. Qed.

(** The same with process-wide settings: an empty [PORT] beside a target
    world changes the fingerprint. *)
Example cacheKey_empty_process_setting :
  cacheKey {[ "WORKFLOW_TARGET_WORLD" := "local"; "PORT" := "" ]} []
    = "{" +:+ jstr "PORT" +:+ ":" +:+ jstr "" +:+ ","
      +:+ jstr "WORKFLOW_TARGET_WORLD" +:+ ":" +:+ jstr "local" +:+ "}"
  ∧ cacheKey {[ "WORKFLOW_TARGET_WORLD" := "local" ]} []
    = "{" +:+ jstr "WORKFLOW_TARGET_WORLD" +:+ ":" +:+ jstr "local" +:+ "}".
Proof. split; vm_compute; reflexivity. Qed.

(** ** Instance Cache *)
Section cache_facts.
Context {Store : Type} `{!WorldOps Store}.
Implicit Types (s : State Store) (envMap : EnvMap) (w : World).

(** The fingerprint a call of [getWorldFromEnv] computes in state [s]. *)
Definition fingerprint envMap s : string := cacheKey (process_env s) envMap.

(** Every cached World was constructed earlier, and no World is cached
    under two fingerprints. *)
Definition cache_ok s : Prop :=
  (∀ k w, worldCache s !! k = Some w → (w < constructed s)%nat)
  ∧ (∀ k1 k2 w,
       worldCache s !! k1 = Some w → worldCache s !! k2 = Some w → k1 = k2).

(** A series of [getWorldFromEnv] calls whose results are not looked at. *)
Fixpoint requests (l : list EnvMap) s : State Store :=
  match l with
  | [] => s
  | envMap :: l' => requests l' (getWorldFromEnv envMap s).2
  end.

Lemma cache_ok_empty env n st tr : cache_ok (mkState env ∅ n st tr).
Proof. split; simpl; intros *; by rewrite lookup_empty. Qed.

Lemma getWorldFromEnv_hit envMap s w :
  worldCache s !! fingerprint envMap s = Some w →
  getWorldFromEnv envMap s = (inr w, s).
Proof.
  intros Hhit. unfold getWorldFromEnv, mbind, M_bind, bind, gets.
  unfold fingerprint, cacheKey in Hhit. by rewrite Hhit.
Qed.

Lemma getWorldFromEnv_step envMap s r s' :
  cache_ok s → getWorldFromEnv envMap s = (r, s') →
  cache_ok s'
  ∧ (∀ k w, worldCache s !! k = Some w → worldCache s' !! k = Some w)
  ∧ (∀ w, r = inr w → worldCache s' !! fingerprint envMap s = Some w).
Proof.
  intros [Hold Hinj].
  unfold getWorldFromEnv, mbind, M_bind, bind, gets, modify, createWorld.
  unfold fingerprint, cacheKey.
  generalize (cacheKeyOf (effectiveEnvMap (process_env s) envMap)).
  generalize (Js.Object_entries (effectiveEnvMap (process_env s) envMap)).
  intros entries key.
  destruct (worldCache s !! key) as [w0|] eqn:Hkey.
  - intros [= <- <-]. repeat split; [done..|]. by intros w [= <-].
  - unfold set_worldCache, set_constructed, set_process_env.
    cbn [process_env worldCache constructed store trace].
    destruct (createWorld_raises _) as [t|].
    + intros [= <- <-]. repeat split; [done..|]. by intros w [=].
    + intros [= <- <-]. unfold cache_ok.
      cbn [process_env worldCache constructed store trace].
      split; [split|split].
      * intros k w. rewrite lookup_insert. case_decide.
        -- intros [= <-]. lia.
        -- intros ?%Hold. lia.
      * intros k1 k2 w. rewrite !lookup_insert.
        repeat case_decide; subst; try done.
        -- intros [= <-] ?%Hold. lia.
        -- intros ?%Hold [= <-]. lia.
        -- apply Hinj.
      * intros k w Hk. rewrite lookup_insert_ne; [done|]. congruence.
      * intros w [= <-]. by rewrite lookup_insert_eq.
Qed.

Lemma requests_step l s :
  cache_ok s →
  cache_ok (requests l s)
  ∧ ∀ k w, worldCache s !! k = Some w → worldCache (requests l s) !! k = Some w.
Proof.
  revert s. induction l as [|envMap l IH]; intros s Hok; cbn [requests].
  { by split. }
  destruct (getWorldFromEnv envMap s) as [r s'] eqn:Hcall. cbn [snd].
  destruct (getWorldFromEnv_step _ _ _ _ Hok Hcall) as (Hok' & Hmono & _).
  destruct (IH s' Hok') as [? Hmono']. split; [assumption|]. auto.
Qed.

(** C4. A call whose fingerprint was answered before, however many other
    calls came in between, returns that same World and leaves the process
    state untouched (nothing is constructed); a call with another
    fingerprint never returns that World. *)
Theorem getWorldFromEnv_one_world_per_fingerprint
    s0 envMap1 w1 s1 (between : list EnvMap) envMap2 r2 s3 :
  cache_ok s0 →
  getWorldFromEnv envMap1 s0 = (inr w1, s1) →
  getWorldFromEnv envMap2 (requests between s1) = (r2, s3) →
  (fingerprint envMap2 (requests between s1) = fingerprint envMap1 s0 →
     r2 = inr w1 ∧ s3 = requests between s1)
  ∧ (fingerprint envMap2 (requests between s1) ≠ fingerprint envMap1 s0 →
     ∀ w2, r2 = inr w2 → w2 ≠ w1).
Proof.
  intros Hok0 Hcall1 Hcall2.
  destruct (getWorldFromEnv_step _ _ _ _ Hok0 Hcall1) as (Hok1 & _ & Hw1).
  specialize (Hw1 w1 eq_refl).
  destruct (requests_step between s1 Hok1) as [Hok2 Hmono].
  apply Hmono in Hw1. split.
  - intros Hfp. rewrite <-Hfp in Hw1.
    rewrite (getWorldFromEnv_hit _ _ _ Hw1) in Hcall2.
    injection Hcall2 as <- <-. split; reflexivity.
  - intros Hfp w2 -> ->.
    destruct (getWorldFromEnv_step _ _ _ _ Hok2 Hcall2) as ([_ Hinj] & Hmono3 & Hw2).
    apply Hfp. eapply Hinj; [apply Hw2; reflexivity|apply Hmono3, Hw1].
Qed.

End cache_facts.

Lemma getWorldFromEnv_one_world_per_fingerprint_witness :
  let s0 := MemoryWorld.initial [] in
  let envMap1 : EnvMap := [("WORKFLOW_TARGET_WORLD", Some "local")] in
  let s1 := (getWorldFromEnv envMap1 s0).2 in
  let s2 := requests [[("PORT", Some "1")]] s1 in
  cache_ok s0
  ∧ getWorldFromEnv envMap1 s0 = (inr 0%nat, s1)
  ∧ getWorldFromEnv [] s2 = (inr 0%nat, s2).
Proof.
  intros s0 envMap1 s1 s2.
  assert (cache_ok s0) as Hok by apply cache_ok_empty.
  assert (getWorldFromEnv envMap1 s0 = (inr 0%nat, s1)) as H1
    by (vm_compute; reflexivity).
  assert (getWorldFromEnv [] s2
          = ((getWorldFromEnv [] s2).1, (getWorldFromEnv [] s2).2)) as H2
    by apply surjective_pairing.
  destruct (getWorldFromEnv_one_world_per_fingerprint
              s0 envMap1 0%nat s1 [[("PORT", Some "1")]] [] _ _ Hok H1 H2)
    as [Hsame _].
  destruct Hsame as [Hr Hs]; [vm_compute; reflexivity|].
  refine (conj Hok (conj H1 _)).
  rewrite H2. fold s2 in Hs. by rewrite Hr, Hs.
Defined.

(** ** Error Classifier *)

Definition access_denied_text : string :=
  "Access denied. Please check your credentials and permissions.".
Definition not_found_text : string := "The requested resource was not found.".
Definition connectivity_text : string :=
  "Error connecting to World backend, please try again later.".
Definition network_text : string :=
  "Network error. Please check your connection and try again.".
Definition unexpected_text : string := "An unexpected error occurred".
Definition error_creating_response (raw : string) : string :=
  "Error creating response: " +:+ raw.

(** The message table of a store-boundary failure, by status, for a failure
    whose own message is [raw]. *)
Definition status_message_table (raw : string) (st : option Z) (m : string) : Prop :=
  (st = None ∨ st = Some 0 → m = error_creating_response raw)
  ∧ (st = Some 401 ∨ st = Some 403 → m = access_denied_text)
  ∧ (st = Some 404 → m = not_found_text)
  ∧ (st = Some 500 → m = connectivity_text)
  ∧ (∀ n, st = Some n → n ∉ [0; 401; 403; 404; 500] →
       if includes raw "Network" || includes raw "fetch" then m = network_text
       else if decide (raw = "") then m = unexpected_text
       else m = raw).

Lemma getUserFacingErrorMessage_table (error : ErrorObject) (st : option Z) :
  status_message_table (err_message error) st (getUserFacingErrorMessage error st).
Proof.
  unfold status_message_table, getUserFacingErrorMessage.
  destruct st as [n|]; [|by repeat split; try (by intros [?|?]); intros].
  repeat split.
  - intros [?|[= ->]]; done.
  - intros [[= ->]|[= ->]]; done.
  - intros [= ->]; done.
  - intros [= ->]; done.
  - intros n' [= <-] Hn. rewrite !not_elem_of_cons in Hn.
    destruct Hn as (? & ? & ? & ? & ? & _).
    destruct n as [|p|p]; [done|..];
      (rewrite decide_False by (intros [?|?]; congruence);
       rewrite !decide_False by congruence;
       destruct (includes _ _ || includes _ _); [done|];
       unfold or_else; case_decide; done).
Qed.

(** A value that is not an [Error] and has no string conversion, such as
    an object without prototype: [String(error)] raises a [TypeError]. *)
Definition TypeError_conversion : Thrown :=
  {| instanceofError := true;
     thrown_message := "Cannot convert object to primitive value";
     thrown_stack := None;
     thrown_toString := inr "TypeError: Cannot convert object to primitive value";
     isWorkflowAPIError := false;
     isWorkflowRunNotFoundError := false;
     thrown_status := None; thrown_url := None; thrown_code := None |}.

Definition unconvertible : Thrown :=
  {| instanceofError := false;
     thrown_message := "";
     thrown_stack := None;
     thrown_toString := inl TypeError_conversion;
     isWorkflowAPIError := false;
     isWorkflowRunNotFoundError := false;
     thrown_status := None; thrown_url := None; thrown_code := None |}.

(** C2 fails for a store-boundary failure that carries no status: the
    message is the prefixed raw message, neither the failure's own message
    nor the network text.  It also fails for a raised value that is not an
    [Error] and whose string conversion raises: the classifier raises that
    error itself and yields no failure at all, whatever the operation and
    its parameters. *)
Lemma createServerActionError_no_status_counterexample :
  let error :=
    {| instanceofError := true; thrown_message := "boom"; thrown_stack := None;
       thrown_toString := inr "WorkflowAPIError: boom";
       isWorkflowAPIError := true; isWorkflowRunNotFoundError := false;
       thrown_status := None; thrown_url := None; thrown_code := None |} in
  (∃ e, createServerActionError (H := MemoryWorld.mem_host) error "world.runs.get" None
        = inr (Failure e)
        ∧ layer e = API
        ∧ message e = "Error creating response: boom"
        ∧ message e ≠ "boom" ∧ message e ≠ network_text)
  ∧ createServerActionError (H := MemoryWorld.mem_host) unconvertible "wakeUpRun" None
    = inl TypeError_conversion.
Proof.
  split; [|reflexivity].
  eexists. split; [reflexivity|]. simpl. repeat split; discriminate.
Qed.

(** C2, as the code has it.  The classifier first turns the raised value
    into an [Error]: an [Error] instance is taken as it is, any other value
    is converted with [String(error)], and when that conversion raises the
    classifier raises the same error and returns nothing.  Otherwise it
    walks the three branches in order and returns the failure variant;
    the raw message is the message of the [Error] instance, or the string
    conversion of a value that is not one.  A failure with the
    store-boundary marker gets layer API (the store layer), its own status,
    url and code in [request], and the message of the status table, where a
    missing or zero status gives the prefixed raw message and an empty raw
    message the generic text; a run-not-found failure gets layer API,
    status 404 and the not-found text; any other failure gets layer server,
    status 500 and the prefixed raw message.  Every branch fills [cause]
    (the stack, or the raw message without one), [request.operation] and
    [request.params]. *)
Theorem createServerActionError_decision_table `{ErrorHost}
    (error : Thrown) (op : string) (requestParams : option JsValue) :
  (∀ t, instanceofError error = false → thrown_toString error = inl t →
     createServerActionError error op requestParams = inl t)
  ∧ ∀ raw stack,
      (instanceofError error = true
       ∧ raw = thrown_message error ∧ stack = thrown_stack error)
      ∨ (instanceofError error = false
         ∧ thrown_toString error = inr raw ∧ stack = new_Error_stack raw) →
      ∃ e rq,
        createServerActionError error op requestParams = inr (Failure e)
        ∧ request e = Some rq
        ∧ cause e = Some (or_else stack raw)
        ∧ operation rq = op
        ∧ params rq = default (JObject []) requestParams
        ∧ ((isWorkflowAPIError error = true
            ∧ layer e = API
            ∧ status rq = thrown_status error
            ∧ url rq = thrown_url error
            ∧ code rq = thrown_code error
            ∧ status_message_table raw (thrown_status error) (message e))
           ∨ (isWorkflowAPIError error = false
              ∧ isWorkflowRunNotFoundError error = true
              ∧ layer e = API
              ∧ status rq = Some 404
              ∧ message e = not_found_text)
           ∨ (isWorkflowAPIError error = false
              ∧ isWorkflowRunNotFoundError error = false
              ∧ layer e = server
              ∧ status rq = Some 500
              ∧ message e = error_creating_response raw)).
Proof.
  split.
  { intros t Hinst Hstr. unfold createServerActionError, toError.
    by rewrite Hinst, Hstr. }
  intros raw stack Hconv.
  assert (toError error = inr {| err_message := raw; err_stack := stack |}) as Herr.
  { unfold toError.
    destruct Hconv as [(-> & -> & ->)|(-> & -> & ->)]; reflexivity. }
  unfold createServerActionError. rewrite Herr.
  destruct (isWorkflowAPIError error) eqn:Hapi;
    [|destruct (isWorkflowRunNotFoundError error) eqn:Hnf];
    eexists _, _; (split; [reflexivity|]); simpl;
    repeat (split; [reflexivity|]).
  - left. repeat (split; [reflexivity|]).
    apply (getUserFacingErrorMessage_table {| err_message := raw; err_stack := stack |}).
  - right; left. done.
  - right; right. done.
Qed.

(** The classifier never yields the success variant. *)
Lemma createServerActionError_not_success `{ErrorHost} error op requestParams d :
  createServerActionError error op requestParams ≠ inr (Success d).
Proof.
  unfold createServerActionError. destruct (toError error); [done|].
  by repeat case_match.
Qed.

(** ** Response Envelope *)

(** Structural induction on values, through the lists of a value and the
    results of a function. *)
Lemma JsValue_rect_nested (P : JsValue → Prop) :
  P JUndefined → P JNull → (∀ b, P (JBool b)) → (∀ n, P (JNumber n)) →
  (∀ m e, P (JFraction m e)) → P JNegZero →
  P JNotFinite → (∀ s, P (JString s)) → (∀ n, P (JBigInt n)) →
  P JSymbol →
  (∀ call, (∀ key v, call key = inr v → P v) → P (JFunction call)) →
  (∀ l, Forall P l → P (JArray l)) →
  (∀ l, Forall (λ p, P p.2) l → P (JObject l)) →
  ∀ v, P v.
Proof.
  intros Hu Hn Hb Hz Hfr Hnz Hnf Hs Hbi Hsy Hf Ha Ho.
  fix IH 1. intros [| |b|n|m e| | |s|n| |call|l|l].
  - exact Hu.
  - exact Hn.
  - apply Hb.
  - apply Hz.
  - apply Hfr.
  - exact Hnz.
  - exact Hnf.
  - apply Hs.
  - apply Hbi.
  - exact Hsy.
  - apply Hf. intros key v.
    destruct (call key) as [t|v']; [discriminate|].
    intros [= <-]. apply IH.
  - apply Ha. revert l. fix go 1.
    intros [|x l']; constructor; [apply IH|apply go].
  - apply Ho. revert l. fix go 1.
    intros [|p l']; constructor; [apply IH|apply go].
Qed.

(** Values that [JSON.stringify] leaves out of an object and turns into
    [null] in an array. *)
Definition droppable (v : JsValue) : bool :=
  match v with
  | JUndefined | JSymbol | JFunction _ => true
  | _ => false
  end.

(** Structurally serializable values: plain JSON data. *)
Fixpoint serializable (v : JsValue) : bool :=
  match v with
  | JNull | JBool _ | JNumber _ | JFraction _ _ | JString _ => true
  | JArray l => forallb serializable l
  | JObject l => forallb (λ p, serializable p.2) l
  | _ => false
  end.

(** A BigInt in the value, outside the results of its functions. *)
Fixpoint has_bigint (v : JsValue) : bool :=
  match v with
  | JBigInt _ => true
  | JArray l => existsb has_bigint l
  | JObject l => existsb (λ p, has_bigint p.2) l
  | _ => false
  end.

(** The own [toJSON] member of the object is a function. *)
Definition own_toJSON (l : list (string * JsValue)) : bool :=
  match Js.get_own l "toJSON" with
  | Some (JFunction _) => true
  | _ => false
  end.

(** Some object in the value has a function as its own [toJSON] member. *)
Fixpoint has_toJSON (v : JsValue) : bool :=
  match v with
  | JArray l => existsb has_toJSON l
  | JObject l => own_toJSON l || existsb (λ p, has_toJSON p.2) l
  | _ => false
  end.

(** The value without its non-serializable parts, at every depth: a member
    whose value is [undefined], a function or a symbol is absent; such an
    element of an array leaves [null] behind; a number that is not finite
    becomes [null] and negative zero becomes [0]. *)
Fixpoint without_unserializable (v : JsValue) : JsValue :=
  match v with
  | JNegZero => JNumber 0
  | JNotFinite => JNull
  | JArray l =>
      JArray
        ((fix go (l : list JsValue) : list JsValue :=
            match l with
            | [] => []
            | x :: l' =>
                (if droppable x then JNull else without_unserializable x) :: go l'
            end) l)
  | JObject l =>
      JObject
        ((fix go (l : list (string * JsValue)) : list (string * JsValue) :=
            match l with
            | [] => []
            | (k, x) :: l' =>
                if droppable x then go l'
                else (k, without_unserializable x) :: go l'
            end) l)
  | _ => v
  end.

Definition kept_element (x : JsValue) : JsValue :=
  if droppable x then JNull else without_unserializable x.

Definition kept_member (p : string * JsValue) : option (string * JsValue) :=
  if droppable p.2 then None else Some (p.1, without_unserializable p.2).

Lemma without_unserializable_array l :
  without_unserializable (JArray l) = JArray (kept_element <$> l).
Proof.
  simpl. f_equal.
Qed.

Lemma without_unserializable_object l :
  without_unserializable (JObject l) = JObject (omap kept_member l).
Proof.
  simpl. f_equal. induction l as [|[k x] l IH]; [done|]. csimpl.
  unfold kept_member at 1. cbn [fst snd]. rewrite <-IH.
  by destruct (droppable x).
Qed.

(** The loops of [SerializeJSONProperty], by name. *)
Fixpoint roundtrip_elements (index : nat) (l : list JsValue)
  : Thrown + list JsValue :=
  match l with
  | [] => inr []
  | e :: l' =>
      match SerializeJSONProperty true (pretty index) e with
      | inl t => inl t
      | inr r =>
          match roundtrip_elements (S index) l' with
          | inl t => inl t
          | inr rs => inr (default JNull r :: rs)
          end
      end
  end.

Fixpoint roundtrip_members (l : list (string * JsValue))
  : Thrown + list (string * JsValue) :=
  match l with
  | [] => inr []
  | (k, e) :: l' =>
      match SerializeJSONProperty true k e with
      | inl t => inl t
      | inr r =>
          match roundtrip_members l' with
          | inl t => inl t
          | inr rs => inr (match r with Some d => (k, d) :: rs | None => rs end)
          end
      end
  end.

(** The call of the own [toJSON] member, when it is a function. *)
Definition toJSON_call (key : string) (l : list (string * JsValue))
  : option (Thrown + option JsValue) :=
  match Js.get_own l "toJSON" with
  | Some (JFunction call) =>
      Some match call key with
           | inl t => inl t
           | inr value' => SerializeJSONProperty false key value'
           end
  | _ => None
  end.

Lemma SerializeJSONProperty_array b key l :
  SerializeJSONProperty b key (JArray l)
  = match roundtrip_elements 0 l with
    | inl t => inl t
    | inr rs => inr (Some (JArray rs))
    end.
Proof.
  simpl. generalize 0%nat as index. intros index.
  match goal with |- match ?a with _ => _ end = match ?b with _ => _ end =>
    assert (a = b) as ->; [|done] end.
  revert index. induction l as [|x l IH]; intros index; [done|].
  simpl. by rewrite IH.
Qed.

Lemma SerializeJSONProperty_object b key l :
  SerializeJSONProperty b key (JObject l)
  = match (if b then toJSON_call key l else None) with
    | Some r => r
    | None =>
        match roundtrip_members l with
        | inl t => inl t
        | inr rs => inr (Some (JObject rs))
        end
    end.
Proof.
  simpl.
  match goal with
  | |- match (if b then ?f l else None) with _ => _ end = _ =>
      assert (f l = toJSON_call key l) as ->
  end.
  { unfold toJSON_call. induction l as [|[k x] l IH]; [done|]. simpl.
    destruct (decide (k = "toJSON")); [by destruct x|exact IH]. }
  destruct (if b then toJSON_call key l else None); [done|].
  match goal with |- match ?a with _ => _ end = match ?b with _ => _ end =>
    assert (a = b) as ->; [|done] end.
  induction l as [|[k x] l IH]; [done|]. simpl. by rewrite IH.
Qed.

Lemma serializable_no_toJSON v : serializable v = true → has_toJSON v = false.
Proof.
  induction v as [| | | | | | | | | |call IH|l IH|l IH] using JsValue_rect_nested;
    try done.
  - simpl. intros Hl. induction IH as [|x l Hx _ IHl]; [done|].
    simpl in *. apply andb_true_iff in Hl as [? ?]. by rewrite Hx, IHl.
  - simpl. intros Hl. apply orb_false_iff. split.
    + unfold own_toJSON. destruct (Js.get_own l "toJSON") as [x|] eqn:Hget; [|done].
      apply get_own_Some in Hget.
      assert (serializable x = true) as Hx.
      { rewrite forallb_forall in Hl. apply (Hl ("toJSON", x)).
        by apply list_elem_of_In. }
      by destruct x.
    + induction IH as [|[k x] l Hx _ IHl]; [done|].
      simpl in *. apply andb_true_iff in Hl as [? ?]. by rewrite Hx, IHl.
Qed.

Lemma toJSON_call_None key l : own_toJSON l = false → toJSON_call key l = None.
Proof.
  unfold own_toJSON, toJSON_call.
  destruct (Js.get_own l "toJSON") as [x|]; [|done]. by destruct x.
Qed.

(** Without a [toJSON] member inside, serialization is the pass over the
    plain structure: it raises exactly when there is a BigInt, and leaves
    out the non-serializable parts otherwise. *)
Lemma SerializeJSONProperty_plain v :
  has_toJSON v = false →
  ∀ b key,
    SerializeJSONProperty b key v
    = if has_bigint v then inl TypeError_BigInt
      else inr (if droppable v then None else Some (without_unserializable v)).
Proof.
  induction v as [| | | | | | | | | |call IH|l IH|l IH] using JsValue_rect_nested;
    try done.
  - intros Hl b key. rewrite SerializeJSONProperty_array, without_unserializable_array.
    simpl in Hl. simpl has_bigint. cbn [droppable].
    generalize 0%nat as index. intros index.
    assert (roundtrip_elements index l
            = if existsb has_bigint l then inl TypeError_BigInt
              else inr (kept_element <$> l)) as ->.
    { revert index. induction IH as [|x l Hx _ IHl]; intros index; [done|].
      simpl in *. apply orb_false_iff in Hl as [Hx' Hl].
      rewrite (Hx Hx'), (IHl Hl).
      destruct (has_bigint x); [done|]. simpl.
      destruct (existsb has_bigint l); [done|].
      unfold kept_element at 2. by destruct (droppable x). }
    by destruct (existsb has_bigint l).
  - intros Hl b key. rewrite SerializeJSONProperty_object, without_unserializable_object.
    simpl in Hl. apply orb_false_iff in Hl as [Hown Hl].
    rewrite (toJSON_call_None _ _ Hown). simpl has_bigint. cbn [droppable].
    assert ((if b then None else None) = (None : option (Thrown + option JsValue)))
      as -> by by destruct b.
    assert (roundtrip_members l
            = if existsb (λ p, has_bigint p.2) l then inl TypeError_BigInt
              else inr (omap kept_member l)) as ->.
    { clear Hown. induction IH as [|[k x] l Hx _ IHl]; [done|].
      simpl in *. apply orb_false_iff in Hl as [Hx' Hl].
      rewrite (Hx Hx'), (IHl Hl).
      destruct (has_bigint x); [done|]. simpl.
      destruct (existsb (λ p, has_bigint p.2) l); [done|].
      unfold kept_member. cbn [fst snd]. by destruct (droppable x). }
    by destruct (existsb (λ p, has_bigint p.2) l).
Qed.

Lemma serializable_plain v :
  serializable v = true →
  has_bigint v = false ∧ droppable v = false ∧ without_unserializable v = v.
Proof.
  induction v as [| | | | | | | | | |call IH|l IH|l IH] using JsValue_rect_nested;
    try done.
  - intros Hl. rewrite without_unserializable_array.
    cbn [has_bigint droppable]. cbn [serializable] in Hl.
    assert (existsb has_bigint l = false ∧ kept_element <$> l = l) as [-> ->]; [|done].
    induction IH as [|x l Hx _ IHl]; [done|].
    cbn [forallb] in Hl. apply andb_true_iff in Hl as [Hx' Hl]. cbn [existsb].
    rewrite fmap_cons.
    destruct (Hx Hx') as (-> & Hd & Hw), (IHl Hl) as [-> ->].
    unfold kept_element. by rewrite Hd, Hw.
  - intros Hl. rewrite without_unserializable_object.
    cbn [has_bigint droppable]. cbn [serializable] in Hl.
    assert (existsb (λ p, has_bigint p.2) l = false ∧ omap kept_member l = l)
      as [-> ->]; [|done].
    induction IH as [|[k x] l Hx _ IHl]; [done|].
    cbn [forallb snd] in Hl, Hx. apply andb_true_iff in Hl as [Hx' Hl].
    cbn [existsb snd].
    destruct (Hx Hx') as (-> & Hd & Hw), (IHl Hl) as [-> Hl'].
    split; [done|]. csimpl. unfold kept_member at 1. cbn [fst snd].
    by rewrite Hd, Hw, Hl'.
Qed.

(** Plain JSON data comes back unchanged. *)
Lemma SerializeJSONProperty_serializable v b key :
  serializable v = true → SerializeJSONProperty b key v = inr (Some v).
Proof.
  intros Hser. rewrite SerializeJSONProperty_plain by by apply serializable_no_toJSON.
  by destruct (serializable_plain v Hser) as (-> & -> & ->).
Qed.


(** The text that [JSON.stringify] produced denotes plain JSON data. *)
Definition plain_result (v : JsValue) : Prop :=
  ∀ mode key d, SerializeJSONProperty mode key v = inr (Some d) →
                serializable d = true.

Lemma SerializeJSONProperty_result_nested v :
  plain_result v
  ∧ match v with
    | JFunction call => ∀ key v', call key = inr v' → plain_result v'
    | _ => True
    end.
Proof.
  induction v as [| | | | | | | | | |call IH|l IH|l IH] using JsValue_rect_nested;
    try (by split; [intros mode key d [= <-]|]); try (by split).
  - split; [done|]. intros key v' Hcall. by apply (IH key v' Hcall).
  - split; [|done]. intros mode key d. rewrite SerializeJSONProperty_array.
    generalize 0%nat as index. intros index.
    destruct (roundtrip_elements index l) as [t|rs] eqn:Hrs; [done|].
    intros [= <-]. simpl. revert index rs Hrs.
    induction IH as [|x l [Hx _] _ IHl]; intros index rs; simpl.
    { by intros [= <-]. }
    destruct (SerializeJSONProperty true (pretty index) x) as [t|r] eqn:Hr; [done|].
    destruct (roundtrip_elements (S index) l) as [t|rs'] eqn:Hrs'; [done|].
    intros [= <-]. simpl. rewrite (IHl _ _ Hrs'), andb_true_r.
    destruct r as [d|]; [|done]. by apply (Hx _ _ _ Hr).
  - split; [|done]. intros mode key d. rewrite SerializeJSONProperty_object.
    assert (∀ rs, roundtrip_members l = inr rs →
              forallb (λ p, serializable p.2) rs = true) as Hmembers.
    { clear mode key d. induction IH as [|[k x] l [Hx _] _ IHl]; intros rs; simpl.
      { by intros [= <-]. }
      simpl in Hx.
      destruct (SerializeJSONProperty true k x) as [t|r] eqn:Hr; [done|].
      destruct (roundtrip_members l) as [t|rs'] eqn:Hrs'; [done|].
      intros [= <-]. specialize (IHl _ eq_refl).
      destruct r as [d'|]; [|done]. simpl. rewrite IHl, andb_true_r.
      by apply (Hx _ _ _ Hr). }
    destruct mode; cbv iota.
    + unfold toJSON_call.
      destruct (Js.get_own l "toJSON") as [x|] eqn:Hget.
      * destruct x as [| | | | | | | | | |call| |];
          try (destruct (roundtrip_members l) as [t|rs]; [done|];
               intros [= <-]; by apply Hmembers).
        apply get_own_Some in Hget.
        rewrite Forall_forall in IH. destruct (IH _ Hget) as [_ Hcalls].
        cbn [snd] in Hcalls.
        destruct (call key) as [t|v'] eqn:Hcall; [done|].
        apply (Hcalls key v' Hcall).
      * destruct (roundtrip_members l) as [t|rs]; [done|].
        intros [= <-]. by apply Hmembers.
    + destruct (roundtrip_members l) as [t|rs]; [done|].
      intros [= <-]. by apply Hmembers.
Qed.

(** Whatever the value and its functions, a text that [JSON.stringify]
    produced denotes plain JSON data. *)
Lemma SerializeJSONProperty_result v mode key d :
  SerializeJSONProperty mode key v = inr (Some d) → serializable d = true.
Proof. apply (SerializeJSONProperty_result_nested v). Qed.






Example createResponse_numbers :
  createResponse (JArray [JNegZero; JFraction 1 1; JNotFinite; JNumber 7])
  = inr (Success (JArray [JNumber 0; JFraction 1 1; JNull; JNumber 7])).
Proof. reflexivity. Qed.

(** A nested [toJSON] method is called with the key of its object, and
    the object the method returns is not asked again. *)
Example createResponse_nested_toJSON :
  createResponse
    (JObject
       [ ("run",
          JObject
            [ ("toJSON",
               JFunction
                 (λ key,
                    inr (JObject
                           [ ("key", JString key);
                             ("toJSON", JFunction (λ _, inr JNull)) ]))) ]) ])
  = inr (Success (JObject [("run", JObject [("key", JString "run")])])).
Proof. reflexivity. Qed.



(** ** Wake-Up Reconciler *)

(** Some [wait_completed] event of the page carries correlation id [c]. *)
Definition completed (data : list Event) (c : option string) : Prop :=
  Exists (λ e', eventType e' = "wait_completed" ∧ correlationId e' = c) data.

(** The event is selected by the caller's list of correlation ids: a
    missing or empty list selects every event, a non-empty list the events
    that carry one of its ids. *)
Definition selected (target : option (list string)) (e : Event) : Prop :=
  match target with
  | None | Some [] => True
  | Some ids =>
      match correlationId e with
      | Some c => c ≠ "" ∧ c ∈ ids
      | None => False
      end
  end.

(** A pending wait of the page [data], as the specification words it. *)
Definition PendingWait (data : list Event) (target : option (list string))
    (e : Event) : Prop :=
  eventType e = "wait_created"
  ∧ ¬ completed data (correlationId e)
  ∧ selected target e.

#[global] Instance completed_dec data c : Decision (completed data c).
Proof. unfold completed. apply _. Defined.

#[global] Instance selected_dec target e : Decision (selected target e).
Proof.
  unfold selected. destruct target as [[|id ids]|]; [apply _| |apply _].
  destruct (correlationId e); apply _.
Defined.

#[global] Instance PendingWait_dec data target e :
  Decision (PendingWait data target e).
Proof. unfold PendingWait. apply _. Defined.

Definition pending (data : list Event) (target : option (list string))
  : list Event :=
  filter (PendingWait data target) data.

(** The calls of one wake-up, as an observer of the World sees them. *)
Definition wait_completed_request (c : string) : CreateEventRequest :=
  {| req_eventType := "wait_completed"; req_correlationId := c |}.

Definition lookup_phase (w : World) (runId : string) (run : WorkflowRun)
    (data : list Event) : list TraceEvent :=
  [ Issued (RunsGet w runId); Settled (RunsGet w runId) (ReturnedRun run);
    Issued (EventsList w runId 1000);
    Settled (EventsList w runId 1000) (ReturnedEvents data) ].

Definition synthesis_of (w : World) (runId : string) (e : Event)
  : list TraceEvent :=
  match correlationId e with
  | Some c =>
      if decide (c = "") then []
      else [ Issued (EventsCreate w runId (wait_completed_request c));
             Settled (EventsCreate w runId (wait_completed_request c))
               ReturnedVoid ]
  | None => []
  end.

Definition synthesis_phase (w : World) (runId : string) (ps : list Event)
  : list TraceEvent :=
  ps ≫= synthesis_of w runId.

Definition dispatch_call (w : World) (runId : string) (run : WorkflowRun) : Call :=
  Queue w ("__wkf_workflow_" +:+ workflowName run) runId (deploymentId run).

Definition is_dispatch (ev : TraceEvent) : Prop :=
  match ev with
  | Issued (Queue _ _ _ _) | Settled (Queue _ _ _ _) _ => True
  | _ => False
  end.

Definition is_synthesis (ev : TraceEvent) : Prop :=
  match ev with
  | Issued (EventsCreate _ _ _) | Settled (EventsCreate _ _ _) _ => True
  | _ => False
  end.

Definition stoppedCount_of (n : nat) : JsValue :=
  JObject [("stoppedCount", JNumber (Z.of_nat n))].

(** The requests of the [events.create] calls, and the dispatch calls, that
    a trace issues. *)
Definition created_requests (tr : list TraceEvent) : list CreateEventRequest :=
  omap (λ ev, match ev with
              | Issued (EventsCreate _ _ data) => Some data
              | _ => None
              end) tr.

Definition dispatch_calls (tr : list TraceEvent) : list Call :=
  omap (λ ev, match ev with
              | Issued (Queue w q r d) => Some (Queue w q r d)
              | _ => None
              end) tr.

(** The correlation id a synthesis is made for: present and non-empty. *)
Definition wakeable_id (e : Event) : option string :=
  match correlationId e with
  | Some c => if decide (c = "") then None else Some c
  | None => None
  end.

(** What one wake-up adds to the trace, and what it returns: it fails
    (returns a failure, or raises what the classifier raises) before any
    dispatch; or it finds no pending wait and stops after the
    two lookups; or it synthesizes every pending wait and then dispatches,
    the dispatch being accepted or raising. *)
Definition wake_up_shape (runId : string) (target : option (list string))
    (r : Thrown + ServerActionResult) (new : list TraceEvent) : Prop :=
  ((∀ d, r ≠ inr (Success d)) ∧ Forall (λ ev, ¬ is_dispatch ev) new)
  ∨ ∃ w run data,
      (pending data target = []
       ∧ r = inr (Success (stoppedCount_of 0))
       ∧ new = lookup_phase w runId run data)
      ∨ (pending data target ≠ []
         ∧ ∃ o,
             new = lookup_phase w runId run data
                   ++ synthesis_phase w runId (pending data target)
                   ++ [ Issued (dispatch_call w runId run);
                        Settled (dispatch_call w runId run) o ]
             ∧ ((o = ReturnedVoid
                 ∧ r = inr (Success (stoppedCount_of (length (pending data target)))))
                ∨ ∃ t, o = Raised t ∧ ∀ d, r ≠ inr (Success d))).

Lemma pendingWaits_pending (data : list Event) (target : option (list string)) :
  let waitCreatedEvents := filter (λ e, eventType e = "wait_created") data in
  let waitCompletedCorrelationIds : gset (option string) :=
    list_to_set
      (correlationId <$> filter (λ e, eventType e = "wait_completed") data) in
  let pendingWaits :=
    filter (λ e, correlationId e ∉ waitCompletedCorrelationIds)
      waitCreatedEvents in
  match target with
  | Some ids =>
      if decide (0 < length ids)%nat then
        filter
          (λ e, truthy (correlationId e)
                ∧ correlationId e ∈ (list_to_set (Some <$> ids) : gset (option string)))
          pendingWaits
      else pendingWaits
  | None => pendingWaits
  end = pending data target.
Proof.
  intros created done pendingWaits.
  assert (pendingWaits
          = filter (λ e, eventType e = "wait_created"
                         ∧ ¬ completed data (correlationId e)) data) as Hp.
  { unfold pendingWaits, created. rewrite list_filter_filter.
    apply list_filter_iff. intros e. unfold done, completed.
    split.
    - intros [Hn ?]. split; [done|]. rewrite Exists_exists.
      intros (e' & ? & ? & ?). apply Hn.
      apply elem_of_list_to_set, list_elem_of_fmap. exists e'.
      split; [done|]. by apply list_elem_of_filter.
    - intros [? Hn]. split; [|done]. intros Hin%elem_of_list_to_set.
      apply list_elem_of_fmap in Hin as (e' & ? & [? ?]%list_elem_of_filter).
      apply Hn, Exists_exists. by exists e'. }
  unfold pending, PendingWait.
  destruct target as [[|id ids]|]; simpl.
  - rewrite Hp. apply list_filter_iff. intros e. unfold selected. tauto.
  - rewrite Hp, list_filter_filter. apply list_filter_iff. intros e.
    unfold selected, truthy.
    assert (correlationId e
              ∈ (list_to_set (Some <$> id :: ids) : gset (option string))
            ↔ ∃ c, correlationId e = Some c ∧ c ∈ id :: ids) as ->.
    { rewrite elem_of_list_to_set, list_elem_of_fmap. naive_solver. }
    destruct (correlationId e) as [c|].
    + split.
      * intros [[? (c' & [= <-] & ?)] [? ?]]. done.
      * intros (? & ? & ? & ?). repeat split; try done. by exists c.
    + split; [by intros [[[] _] _]|by intros (_ & _ & [])].
  - rewrite Hp. apply list_filter_iff. intros e. unfold selected. tauto.
Qed.

(** The body of the synthesis loop of [wakeUpRun]. *)
Definition synthesize {Store} `{WorldOps Store} (w : World) (runId : string)
  : Event → M Store unit :=
  λ waitEvent,
    match correlationId waitEvent with
    | Some c =>
        if decide (c = "") then mret tt
        else
          let data :=
            {| req_eventType := "wait_completed"; req_correlationId := c |} in
          await (EventsCreate w runId data)
            (events_create w runId data) (λ _, ReturnedVoid)
    | None => mret tt
    end.

(** The state once the store has answered the calls of [tr] and is left as
    [st]. *)
Definition advance {Store} (st : Store) (tr : list TraceEvent) (s : State Store)
  : State Store :=
  mkState (process_env s) (worldCache s) (constructed s) st (trace s ++ tr).

(** The store accepts a [wait_completed] event for each of the correlation
    ids in turn, and is left as the result. *)
Fixpoint accepts {Store} `{WorldOps Store} (w : World) (runId : string)
    (cs : list string) (st : Store) : option Store :=
  match cs with
  | [] => Some st
  | c :: cs' =>
      match events_create w runId (wait_completed_request c) st with
      | (inr _, st') => accepts w runId cs' st'
      | (inl _, _) => None
      end
  end.

Section wakeup_facts.
Context {Store : Type} `{!WorldOps Store} `{!ErrorHost}.
Implicit Types (s : State Store) (w : World).

Lemma getWorldFromEnv_trace envMap s r s' :
  getWorldFromEnv envMap s = (r, s') → trace s' = trace s.
Proof.
  unfold getWorldFromEnv, mbind, M_bind, bind, gets, modify, createWorld.
  generalize (cacheKeyOf (effectiveEnvMap (process_env s) envMap)).
  generalize (Js.Object_entries (effectiveEnvMap (process_env s) envMap)).
  intros entries key.
  destruct (worldCache s !! key); [by intros [= _ <-]|].
  unfold set_worldCache, set_constructed, set_process_env.
  cbn [process_env worldCache constructed store trace].
  destruct (createWorld_raises _); by intros [= _ <-].
Qed.

Lemma await_trace {A} (c : Call) (op : Store → (Thrown + A) * Store)
    (outcome : A → Outcome) s r s' :
  await c op outcome s = (r, s') →
  trace s' = trace s
             ++ [ Issued c;
                  Settled c (match r with inl t => Raised t | inr a => outcome a end) ].
Proof.
  unfold await. destruct (op _) as [[t|a] st]; intros [= <- <-]; simpl;
    by rewrite <-app_assoc.
Qed.

(** The loop over the pending waits: when it ends normally every synthesis
    was issued and accepted, in order; when a synthesis raises, no dispatch
    was issued. *)
Lemma synthesis_loop w runId (ps : list Event) s r s' :
  for_of ps
    (λ waitEvent,
       match correlationId waitEvent with
       | Some c =>
           if decide (c = "") then mret tt
           else
             let data :=
               {| req_eventType := "wait_completed"; req_correlationId := c |} in
             await (EventsCreate w runId data)
               (events_create w runId data) (λ _, ReturnedVoid)
       | None => mret tt
       end) s = (r, s') →
  match r with
  | inr _ => trace s' = trace s ++ synthesis_phase w runId ps
  | inl _ => ∃ new, trace s' = trace s ++ new ∧ Forall (λ ev, ¬ is_dispatch ev) new
  end.
Proof.
  revert s. induction ps as [|e ps IH]; intros s; simpl.
  - intros [= <- <-]. by rewrite app_nil_r.
  - unfold mbind, M_bind, bind. unfold synthesis_phase. simpl.
    fold (synthesis_phase w runId ps). unfold synthesis_of at 1.
    destruct (correlationId e) as [c|]; [destruct (decide (c = ""))|].
    + unfold mret, M_ret, ret. apply IH.
    + destruct (await _ _ _ s) as [[t|[]] s1] eqn:Hawait;
        apply await_trace in Hawait.
      * intros [= <- <-]. eexists; split; [exact Hawait|].
        repeat constructor; simpl; tauto.
      * intros Hloop. apply IH in Hloop. destruct r as [t|u].
        -- destruct Hloop as (new & -> & Hnew). rewrite Hawait, <-app_assoc.
           eexists; split; [reflexivity|]. simpl.
           repeat (constructor; [simpl; tauto|]). done.
        -- rewrite Hloop, Hawait, <-app_assoc. done.
    + unfold mret, M_ret, ret. apply IH.
Qed.

Lemma wakeUpRun_body_trace worldEnv runId options s r s' :
  wakeUpRun_body worldEnv runId options s = (r, s') →
  ∃ new, trace s' = trace s ++ new ∧
    match r with
    | inl t =>
        Forall (λ ev, ¬ is_dispatch ev) new
        ∨ ∃ w run data,
            pending data (options ≫= correlationIds) ≠ []
            ∧ new = lookup_phase w runId run data
                    ++ synthesis_phase w runId
                         (pending data (options ≫= correlationIds))
                    ++ [ Issued (dispatch_call w runId run);
                         Settled (dispatch_call w runId run) (Raised t) ]
    | inr res =>
        ∃ w run data,
          (pending data (options ≫= correlationIds) = []
           ∧ res = Success (stoppedCount_of 0)
           ∧ new = lookup_phase w runId run data)
          ∨ (pending data (options ≫= correlationIds) ≠ []
             ∧ res = Success
                       (stoppedCount_of
                          (length (pending data (options ≫= correlationIds))))
             ∧ new = lookup_phase w runId run data
                     ++ synthesis_phase w runId
                          (pending data (options ≫= correlationIds))
                     ++ [ Issued (dispatch_call w runId run);
                          Settled (dispatch_call w runId run) ReturnedVoid ])
    end.
Proof.
  unfold wakeUpRun_body. unfold mbind at 1, M_bind at 1, bind at 1.
  destruct (getWorldFromEnv _ s) as [[t|w] s1] eqn:Hworld;
    apply getWorldFromEnv_trace in Hworld.
  { intros [= <- <-]. exists []. rewrite app_nil_r. split; [done|]. by left. }
  unfold mbind at 1, M_bind at 1, bind at 1.
  destruct (await _ _ _ s1) as [[t|run] s2] eqn:Hrun; apply await_trace in Hrun.
  { intros [= <- <-]. eexists. rewrite Hrun, Hworld. split; [reflexivity|].
    left. repeat constructor; simpl; tauto. }
  unfold mbind at 1, M_bind at 1, bind at 1.
  destruct (await _ _ _ s2) as [[t|data] s3] eqn:Hlist; apply await_trace in Hlist.
  { intros [= <- <-]. eexists. rewrite Hlist, Hrun, Hworld, <-app_assoc.
    split; [reflexivity|]. left. repeat constructor; simpl; tauto. }
  cbv zeta. rewrite (pendingWaits_pending data (options ≫= correlationIds)).
  assert (trace s3 = trace s ++ lookup_phase w runId run data) as Hs3.
  { rewrite Hlist, Hrun, Hworld, <-app_assoc. done. }
  set (ps := pending data (options ≫= correlationIds)) in *.
  unfold mbind at 1, M_bind at 1, bind at 1.
  destruct (for_of _ _ s3) as [[t|[]] s4] eqn:Hloop; apply synthesis_loop in Hloop.
  { intros [= <- <-]. destruct Hloop as (new & Hnew & Hnd).
    exists (lookup_phase w runId run data ++ new).
    rewrite Hnew, Hs3, <-app_assoc. split; [done|]. left.
    apply Forall_app. split; [|done]. repeat constructor; simpl; tauto. }
  unfold mbind at 1, M_bind at 1, bind at 1.
  change (createResponse _)
    with (inr (B := ServerActionResult) (A := Thrown)
              (Success (stoppedCount_of (length ps)))).
  destruct (decide (0 < length ps)%nat) as [Hpos|Hzero].
  - assert (ps ≠ []) as Hne by (intros Hnil; rewrite Hnil in Hpos; simpl in Hpos; lia).
    destruct (await _ _ _ s4) as [[t|[]] s5] eqn:Hq; apply await_trace in Hq.
    + intros [= <- <-]. eexists. split.
      { rewrite Hq, Hloop, Hs3, <-!app_assoc. reflexivity. }
      right. by exists w, run, data.
    + unfold lift. intros [= <- <-]. eexists. split.
      { rewrite Hq, Hloop, Hs3, <-!app_assoc. reflexivity. }
      exists w, run, data. right. done.
  - assert (ps = []) as Hnil by (destruct ps; [done|simpl in Hzero; lia]).
    unfold mret, M_ret, ret, lift. intros [= <- <-].
    exists (lookup_phase w runId run data). split.
    { rewrite Hloop, Hs3, Hnil. unfold synthesis_phase. simpl.
      by rewrite app_nil_r. }
    exists w, run, data. left. rewrite Hnil. done.
Qed.

Lemma wakeUpRun_trace worldEnv runId options s r s' :
  wakeUpRun worldEnv runId options s = (r, s') →
  ∃ new, trace s' = trace s ++ new
         ∧ wake_up_shape runId (options ≫= correlationIds) r new.
Proof.
  unfold wakeUpRun, try_catch.
  destruct (wakeUpRun_body worldEnv runId options s) as [[t|res] s1] eqn:Hbody;
    apply wakeUpRun_body_trace in Hbody as (new & Htrace & Hshape);
    intros [= <- <-]; exists new; (split; [done|]); unfold wake_up_shape.
  - destruct Hshape as [Hnd|(w & run & data & Hne & ->)].
    + left. split; [|done]. intros d. apply createServerActionError_not_success.
    + right. exists w, run, data. right. split; [done|].
      eexists. split; [reflexivity|]. right. eexists. split; [reflexivity|].
      intros d. apply createServerActionError_not_success.
  - destruct Hshape as (w & run & data & [(Hnil & -> & ->)|(Hne & -> & ->)]).
    + right. exists w, run, data. by left.
    + right. exists w, run, data. right. split; [done|].
      eexists. split; [reflexivity|]. by left.
Qed.


(** *** Running the wake-up against a store that answers *)

Lemma advance_nil s : advance (store s) [] s = s.
Proof. destruct s. unfold advance. simpl. by rewrite app_nil_r. Qed.

Lemma advance_advance (st1 st2 : Store) tr1 tr2 s :
  advance st2 tr2 (advance st1 tr1 s) = advance st2 (tr1 ++ tr2) s.
Proof. unfold advance. simpl. by rewrite app_assoc. Qed.

Lemma await_settles {A} (c : Call) (op : Store → (Thrown + A) * Store)
    (outcome : A → Outcome) s o st :
  op (store s) = (o, st) →
  await c op outcome s
  = (o, advance st
          [Issued c;
           Settled c (match o with inl t => Raised t | inr a => outcome a end)] s).
Proof.
  intros Hop. unfold await, advance, log, set_store.
  cbn [process_env worldCache constructed store trace]. rewrite Hop.
  destruct o; by rewrite <-app_assoc.
Qed.

Lemma synthesis_accepted w runId (ps : list Event) s st' :
  accepts w runId (omap wakeable_id ps) (store s) = Some st' →
  for_of ps (synthesize w runId) s
  = (inr tt, advance st' (synthesis_phase w runId ps) s).
Proof.
  revert s. induction ps as [|e ps IH]; intros s.
  - intros [= <-]. by rewrite advance_nil.
  - unfold synthesis_phase. rewrite bind_cons. fold (synthesis_phase w runId ps).
    cbn [for_of]. unfold mbind at 1, M_bind at 1, bind at 1. csimpl.
    unfold synthesize at 1, synthesis_of at 1, wakeable_id at 1.
    destruct (correlationId e) as [c|]; [destruct (decide (c = ""))|].
    + unfold mret, M_ret, ret. apply IH.
    + cbn [accepts].
      destruct (events_create w runId (wait_completed_request c) (store s))
        as [[t|[]] st1] eqn:Hcreate; [done|].
      intros Hrest.
      rewrite (await_settles _ _ _ s _ _ Hcreate).
      rewrite (IH (advance st1 _ s) Hrest). by rewrite advance_advance.
    + unfold mret, M_ret, ret. apply IH.
Qed.

(** With the World at hand, the run resolved and the page of events
    listed, the wake-up is determined by the pending waits: with none it
    returns at once; otherwise, when the store accepts every synthesis, it
    dispatches, and returns the count or raises what the queue raised. *)
Lemma wakeUpRun_body_runs worldEnv runId options s w s1 run st2 data st3 :
  getWorldFromEnv (Js.spread worldEnv) s = (inr w, s1) →
  runs_get w runId (store s1) = (inr run, st2) →
  events_list w runId 1000 st2 = (inr data, st3) →
  let ps := pending data (options ≫= correlationIds) in
  (ps = [] →
     wakeUpRun_body worldEnv runId options s
     = (inr (Success (stoppedCount_of 0)),
        advance st3 (lookup_phase w runId run data) s1))
  ∧ (ps ≠ [] → ∀ st4 o st5,
       accepts w runId (omap wakeable_id ps) st3 = Some st4 →
       world_queue w ("__wkf_workflow_" +:+ workflowName run) runId
         (deploymentId run) st4 = (o, st5) →
       wakeUpRun_body worldEnv runId options s
       = (match o with
          | inl t => inl t
          | inr _ => inr (Success (stoppedCount_of (length ps)))
          end,
          advance st5
            (lookup_phase w runId run data
             ++ synthesis_phase w runId ps
             ++ [ Issued (dispatch_call w runId run);
                  Settled (dispatch_call w runId run)
                    (match o with inl t => Raised t | inr _ => ReturnedVoid end) ])
            s1)).
Proof.
  intros Hworld Hrun Hlist ps.
  assert (∀ k : list Event → M Store ServerActionResult,
            wakeUpRun_body worldEnv runId options s
            = (for_of ps (synthesize w runId);;
               (if decide (0 < length ps)%nat then
                  await (dispatch_call w runId run)
                    (world_queue w ("__wkf_workflow_" +:+ workflowName run) runId
                       (deploymentId run)) (λ _, ReturnedVoid)
                else mret tt);;
               lift (createResponse (stoppedCount_of (length ps))))
                (advance st3 (lookup_phase w runId run data) s1)) as Hbody.
  { intros _. unfold wakeUpRun_body.
    unfold mbind at 1, M_bind at 1, bind at 1. rewrite Hworld.
    unfold mbind at 1, M_bind at 1, bind at 1.
    rewrite (await_settles _ _ _ s1 _ _ Hrun).
    unfold mbind at 1, M_bind at 1, bind at 1.
    rewrite (await_settles _ _ _ (advance st2 _ s1) _ _ Hlist).
    cbv zeta. rewrite (pendingWaits_pending data (options ≫= correlationIds)).
    fold ps. rewrite advance_advance. reflexivity. }
  specialize (Hbody (λ _, mret (Success JUndefined))). rewrite Hbody. clear Hbody.
  split.
  - intros ->. reflexivity.
  - intros Hne st4 o st5 Haccept Hqueue.
    unfold mbind at 1, M_bind at 1, bind at 1.
    rewrite (synthesis_accepted w runId ps (advance st3 _ s1) st4 Haccept).
    rewrite advance_advance.
    rewrite decide_True by (destruct ps; [done|simpl; lia]).
    unfold mbind at 1, M_bind at 1, bind at 1.
    rewrite (await_settles _ _ _ (advance st4 _ s1) _ _ Hqueue).
    rewrite advance_advance, <-app_assoc.
    destruct o as [t|[]]; reflexivity.
Qed.

(** The action is its body, with what the body raises handed to the
    classifier. *)
Lemma wakeUpRun_catches worldEnv runId options s :
  wakeUpRun worldEnv runId options s
  = (match (wakeUpRun_body worldEnv runId options s).1 with
     | inl t =>
         createServerActionError t "wakeUpRun"
           (Some
              (JObject
                 [ ("runId", JString runId);
                   ("correlationIds",
                    match options ≫= correlationIds with
                    | Some ids => JArray (JString <$> ids)
                    | None => JUndefined
                    end) ]))
     | inr res => inr res
     end, (wakeUpRun_body worldEnv runId options s).2).
Proof.
  unfold wakeUpRun, try_catch.
  by destruct (wakeUpRun_body worldEnv runId options s) as [[t|res] s1].
Qed.

End wakeup_facts.

(** *** Reading a trace *)

Lemma created_requests_app tr1 tr2 :
  created_requests (tr1 ++ tr2) = created_requests tr1 ++ created_requests tr2.
Proof. apply omap_app. Qed.

Lemma dispatch_calls_app tr1 tr2 :
  dispatch_calls (tr1 ++ tr2) = dispatch_calls tr1 ++ dispatch_calls tr2.
Proof. apply omap_app. Qed.

Lemma created_requests_synthesis w runId ps :
  created_requests (synthesis_phase w runId ps)
  = wait_completed_request <$> omap wakeable_id ps.
Proof.
  unfold synthesis_phase. induction ps as [|e ps IH]; [done|].
  rewrite bind_cons, created_requests_app, IH. csimpl.
  unfold synthesis_of, wakeable_id.
  destruct (correlationId e) as [c|]; [|done]. by case_decide.
Qed.

Lemma dispatch_calls_synthesis w runId ps :
  dispatch_calls (synthesis_phase w runId ps) = [].
Proof.
  unfold synthesis_phase. induction ps as [|e ps IH]; [done|].
  rewrite bind_cons, dispatch_calls_app, IH. unfold synthesis_of.
  destruct (correlationId e) as [c|]; [|done]. by case_decide.
Qed.

Lemma synthesis_phase_no_dispatch w runId ps :
  Forall (λ ev, ¬ is_dispatch ev) (synthesis_phase w runId ps).
Proof.
  unfold synthesis_phase. induction ps as [|e ps IH]; [constructor|].
  rewrite bind_cons. apply Forall_app. split; [|done]. unfold synthesis_of.
  destruct (correlationId e) as [c|]; [|constructor].
  case_decide; repeat constructor; simpl; tauto.
Qed.

Lemma lookup_phase_no_dispatch w runId run data :
  Forall (λ ev, ¬ is_dispatch ev) (lookup_phase w runId run data).
Proof. repeat constructor; simpl; tauto. Qed.

Lemma dispatch_calls_none tr :
  Forall (λ ev, ¬ is_dispatch ev) tr → dispatch_calls tr = [].
Proof.
  induction 1 as [|ev tr Hev _ IH]; [done|]. unfold dispatch_calls in *. csimpl.
  rewrite IH. destruct ev as [[]|]; simpl in *; tauto.
Qed.

(** The first dispatch call of a trace that ends with one. *)
Lemma split_at_dispatch (A pre post : list TraceEvent) c q o :
  Forall (λ ev, ¬ is_dispatch ev) A → is_dispatch (Issued c) →
  pre ++ Issued c :: post = A ++ [Issued q; Settled q o] →
  pre = A ∧ c = q ∧ post = [Settled q o].
Proof.
  intros HA Hc. revert pre. induction HA as [|a A Ha _ IH]; intros pre Heq.
  - destruct pre as [|x [|y pre]]; simpl in Heq.
    + by injection Heq as -> ->.
    + by injection Heq as -> ?.
    + injection Heq as -> -> Heq. by destruct pre.
  - destruct pre as [|x pre]; simpl in Heq.
    + injection Heq as <- _. done.
    + injection Heq as -> Heq. destruct (IH _ Heq) as (-> & -> & ->). done.
Qed.

(** *** Calls in flight *)

#[global] Instance CreateEventRequest_eq_dec : EqDecision CreateEventRequest.
Proof. solve_decision. Defined.

#[global] Instance Call_eq_dec : EqDecision Call.
Proof. solve_decision. Defined.

Fixpoint remove_first (c : Call) (l : list Call) : list Call :=
  match l with
  | [] => []
  | x :: l' => if decide (x = c) then l' else x :: remove_first c l'
  end.

(** The calls issued and not yet settled, after the trace [tr], starting
    from the calls [acc] in flight. *)
Fixpoint in_flight (acc : list Call) (tr : list TraceEvent) : list Call :=
  match tr with
  | [] => acc
  | Issued c :: tr' => in_flight (acc ++ [c]) tr'
  | Settled c _ :: tr' => in_flight (remove_first c acc) tr'
  end.

Definition outstanding (tr : list TraceEvent) : list Call := in_flight [] tr.

Lemma in_flight_app acc tr1 tr2 :
  in_flight acc (tr1 ++ tr2) = in_flight (in_flight acc tr1) tr2.
Proof.
  revert acc. induction tr1 as [|[c|c o] tr1 IH]; intros acc; simpl; auto.
Qed.

Lemma in_flight_settled_pair c o tr :
  in_flight [] (Issued c :: Settled c o :: tr) = in_flight [] tr.
Proof. simpl. by rewrite decide_True. Qed.

Lemma outstanding_lookup_phase w runId run data tr :
  in_flight [] (lookup_phase w runId run data ++ tr) = in_flight [] tr.
Proof.
  unfold lookup_phase. simpl. rewrite decide_True by done.
  simpl. by rewrite decide_True.
Qed.

Lemma outstanding_synthesis_phase w runId ps tr :
  in_flight [] (synthesis_phase w runId ps ++ tr) = in_flight [] tr.
Proof.
  unfold synthesis_phase. induction ps as [|e ps IH]; [done|].
  rewrite bind_cons, <-app_assoc. unfold synthesis_of at 1.
  destruct (correlationId e) as [c|]; [|done].
  case_decide; [done|]. simpl. by rewrite decide_True.
Qed.

Lemma synthesis_phase_settled w runId ps c :
  Issued c ∈ synthesis_phase w runId ps →
  Settled c ReturnedVoid ∈ synthesis_phase w runId ps.
Proof.
  unfold synthesis_phase. rewrite !list_elem_of_bind.
  intros (e & Hin & He). exists e. split; [|done].
  unfold synthesis_of in *. destruct (correlationId e) as [c'|].
  - case_decide; [by apply elem_of_nil in Hin|].
    apply elem_of_cons in Hin as [[= ->]|Hin]; [right; left|].
    apply elem_of_cons in Hin as [[=]|Hin]. by apply elem_of_nil in Hin.
  - by apply elem_of_nil in Hin.
Qed.


Section wakeup_claims.
Context {Store : Type} `{!WorldOps Store} `{!ErrorHost}.
Implicit Types (s : State Store) (w : World).


(** C6. Whatever the outcome, a dispatch is issued only after a non-empty
    set of pending waits was found, and then once, to the queue named after
    the workflow, with the run id and the deployment id of the run.  And
    the wake-up does what the claim says whenever the store answers: once
    the World is at hand, the run is resolved and the page of events is
    listed, an empty pending set, also when a filter leaves it empty,
    makes the wake-up return [stoppedCount] 0 after the two lookups, with
    nothing synthesized and nothing dispatched; a non-empty pending set
    whose syntheses the store accepts makes it issue that one dispatch,
    and return the number of pending waits when the queue accepts it. *)
Theorem wakeUpRun_dispatch_iff_pending worldEnv runId options s r s' new :
  wakeUpRun worldEnv runId options s = (r, s') →
  trace s' = trace s ++ new →
  (dispatch_calls new ≠ [] →
     ∃ w run data,
       Settled (RunsGet w runId) (ReturnedRun run) ∈ new
       ∧ Settled (EventsList w runId 1000) (ReturnedEvents data) ∈ new
       ∧ pending data (options ≫= correlationIds) ≠ []
       ∧ dispatch_calls new
         = [Queue w ("__wkf_workflow_" +:+ workflowName run) runId
              (deploymentId run)])
  ∧ ∀ w s1 run st2 data st3,
      getWorldFromEnv (Js.spread worldEnv) s = (inr w, s1) →
      runs_get w runId (store s1) = (inr run, st2) →
      events_list w runId 1000 st2 = (inr data, st3) →
      (pending data (options ≫= correlationIds) = [] →
         r = inr (Success (stoppedCount_of 0))
         ∧ new = lookup_phase w runId run data
         ∧ created_requests new = [] ∧ dispatch_calls new = []
         ∧ store s' = st3)
      ∧ (pending data (options ≫= correlationIds) ≠ [] →
         ∀ st4,
           accepts w runId
             (omap wakeable_id (pending data (options ≫= correlationIds))) st3
           = Some st4 →
           dispatch_calls new
           = [Queue w ("__wkf_workflow_" +:+ workflowName run) runId
                (deploymentId run)]
           ∧ created_requests new
             = wait_completed_request
                 <$> omap wakeable_id (pending data (options ≫= correlationIds))
           ∧ ∀ st5,
               world_queue w ("__wkf_workflow_" +:+ workflowName run) runId
                 (deploymentId run) st4 = (inr tt, st5) →
               r = inr (Success
                          (stoppedCount_of
                             (length (pending data (options ≫= correlationIds)))))
               ∧ store s' = st5).
Proof.
  intros Hrun Htrace. split.
  - pose proof Hrun as (new' & Htrace' & Hshape)%wakeUpRun_trace.
    rewrite Htrace in Htrace'. apply app_inv_head in Htrace'. subst new'.
    destruct Hshape as [(_ & Hnd)|(w & run & data & Hshape)].
    { by rewrite dispatch_calls_none. }
    destruct Hshape as [(Hnil & _ & ->)|(Hne & o & -> & _)]; [done|].
    intros _. exists w, run, data.
    split; [apply elem_of_app; left; right; left|].
    split; [apply elem_of_app; left; do 3 right; left|].
    split; [done|].
    by rewrite !dispatch_calls_app, dispatch_calls_synthesis.
  - intros w s1 run st2 data st3 Hworld Hget Hlist.
    pose proof (getWorldFromEnv_trace _ _ _ _ Hworld) as Hs1.
    destruct (wakeUpRun_body_runs worldEnv runId options s w s1 run st2 data st3
                Hworld Hget Hlist) as [Hnone Hsome].
    rewrite wakeUpRun_catches in Hrun. split.
    + intros Hnil. rewrite (Hnone Hnil) in Hrun. cbn [fst snd] in Hrun.
      injection Hrun as <- <-. cbn [advance trace store] in Htrace.
      rewrite Hs1 in Htrace. apply app_inv_head in Htrace. subst new.
      done.
    + intros Hne st4 Haccept.
      destruct (world_queue w ("__wkf_workflow_" +:+ workflowName run) runId
                  (deploymentId run) st4) as [o st5] eqn:Hqueue.
      rewrite (Hsome Hne st4 o st5 Haccept Hqueue) in Hrun.
      cbn [fst snd] in Hrun.
      pose proof (f_equal fst Hrun) as Hr. pose proof (f_equal snd Hrun) as Hs'.
      cbn [fst snd] in Hr, Hs'. subst s'. cbn [advance trace store] in Htrace.
      rewrite Hs1 in Htrace. apply app_inv_head in Htrace. subst new.
      split; [by rewrite !dispatch_calls_app, dispatch_calls_synthesis|].
      split.
      { by rewrite !created_requests_app, created_requests_synthesis, app_nil_r. }
      intros st5' [= -> ->]. done.
Qed.

(** C9. Whatever the outcome, when the dispatch call is issued the trace
    before it consists of the two lookups and of every synthesis, each
    issued and settled with the store having accepted it: no call is in
    flight at that point, and no synthesis is issued afterwards. *)
Theorem wakeUpRun_synthesis_before_dispatch
    worldEnv runId options s r s' pre c post :
  wakeUpRun worldEnv runId options s = (r, s') →
  trace s' = trace s ++ pre ++ Issued c :: post →
  is_dispatch (Issued c) →
  ∃ w run data,
    pre = lookup_phase w runId run data
          ++ synthesis_phase w runId (pending data (options ≫= correlationIds))
    ∧ (∀ c', Issued c' ∈ pre → is_synthesis (Issued c') →
         Settled c' ReturnedVoid ∈ pre)
    ∧ outstanding pre = []
    ∧ Forall (λ ev, ¬ is_synthesis ev) post.
Proof.
  intros (new & Htrace & Hshape)%wakeUpRun_trace Hsplit Hc.
  rewrite Htrace in Hsplit. apply app_inv_head in Hsplit. subst new.
  assert (Issued c ∈ pre ++ Issued c :: post) as Hin
    by (apply elem_of_app; right; left).
  destruct Hshape as [(_ & Hnd)|(w & run & data & Hshape)].
  { rewrite Forall_forall in Hnd. by destruct (Hnd _ Hin). }
  destruct Hshape as [(_ & _ & Heq)|(Hne & o & Heq & _)].
  { rewrite Heq in Hin.
    pose proof (lookup_phase_no_dispatch w runId run data) as Hnd.
    rewrite Forall_forall in Hnd. by destruct (Hnd _ Hin). }
  rewrite app_assoc in Heq.
  apply split_at_dispatch in Heq as (-> & -> & ->); [|
    apply Forall_app; split;
      [apply lookup_phase_no_dispatch|apply synthesis_phase_no_dispatch] | done].
  exists w, run, data. split; [done|]. split; [|split].
  - intros c' [Hin'|Hin']%elem_of_app Hsyn.
    + unfold lookup_phase in Hin'. rewrite !elem_of_cons, elem_of_nil in Hin'.
      destruct Hin' as [[= ->]|[[=]|[[= ->]|[[=]|[]]]]]; destruct Hsyn.
    + apply elem_of_app. right. by apply synthesis_phase_settled.
  - unfold outstanding. rewrite outstanding_lookup_phase.
    rewrite <-(app_nil_r (synthesis_phase _ _ _)).
    by rewrite outstanding_synthesis_phase.
  - repeat constructor. simpl. tauto.
Qed.





End wakeup_claims.

(** *** The wake-up on the in-memory World *)

(** Waits A and B were created, A was completed. *)
Definition demo_events : list Event :=
  [ MemoryWorld.wait_created "evnt_0" (Some "A");
    MemoryWorld.wait_created "evnt_1" (Some "B");
    MemoryWorld.wait_completed "evnt_2" (Some "A") ].

Definition demo_state : State MemoryWorld.MemStore := MemoryWorld.initial demo_events.

(** A single wait that carries no correlation id. *)
Definition demo_state_no_id : State MemoryWorld.MemStore :=
  MemoryWorld.initial [MemoryWorld.wait_created "evnt_0" None].

(** The state once the World of the in-memory store is constructed. *)
Definition with_world (s : State MemoryWorld.MemStore) : State MemoryWorld.MemStore :=
  (getWorldFromEnv (Js.spread []) s).2.

Example wakeUpRun_demo :
  (wakeUpRun [] "run_1" None demo_state).1 = inr (Success (stoppedCount_of 1))
  ∧ created_requests (trace (wakeUpRun [] "run_1" None demo_state).2)
    = [wait_completed_request "B"]
  ∧ dispatch_calls (trace (wakeUpRun [] "run_1" None demo_state).2)
    = [Queue 0%nat "__wkf_workflow_sleeper" "run_1" "dpl_1"].
Proof. vm_compute. done. Qed.

Example wakeUpRun_demo_filtered :
  let options := Some {| correlationIds := Some ["A"] |} in
  (wakeUpRun [] "run_1" options demo_state).1 = inr (Success (stoppedCount_of 0))
  ∧ created_requests (trace (wakeUpRun [] "run_1" options demo_state).2) = []
  ∧ dispatch_calls (trace (wakeUpRun [] "run_1" options demo_state).2) = [].
Proof. vm_compute. done. Qed.


(** On the demo store, where wait B is pending: without a filter the
    wake-up synthesizes B, dispatches once and returns 1; with the filter
    [A], which leaves nothing pending, it returns 0 and neither
    synthesizes nor dispatches. *)
Lemma wakeUpRun_dispatch_iff_pending_witness :
  let woken := wakeUpRun [] "run_1" None demo_state in
  let filtered :=
    wakeUpRun [] "run_1" (Some {| correlationIds := Some ["A"] |}) demo_state in
  (woken.1 = inr (Success (stoppedCount_of 1))
   ∧ dispatch_calls (trace woken.2)
     = [Queue 0%nat "__wkf_workflow_sleeper" "run_1" "dpl_1"]
   ∧ created_requests (trace woken.2) = [wait_completed_request "B"])
  ∧ (filtered.1 = inr (Success (stoppedCount_of 0))
     ∧ dispatch_calls (trace filtered.2) = []
     ∧ created_requests (trace filtered.2) = []).
Proof.
  intros woken filtered. split.
  - destruct (proj2 (wakeUpRun_dispatch_iff_pending
                       [] "run_1" None demo_state woken.1 woken.2 (trace woken.2)
                       (surjective_pairing woken) eq_refl)
                0%nat (with_world demo_state) MemoryWorld.the_run
                demo_events demo_events demo_events eq_refl eq_refl eq_refl)
      as [_ Hsome].
    assert (pending demo_events None ≠ []) as Hne by (vm_compute; discriminate).
    destruct (Hsome Hne
                (demo_events
                 ++ [MemoryWorld.wait_completed "evnt_3" (Some "B")]))
      as (Hdispatch & Hcreated & Hcount); [vm_compute; reflexivity|].
    destruct (Hcount (demo_events
                      ++ [MemoryWorld.wait_completed "evnt_3" (Some "B")])
                eq_refl) as [Hr _].
    split; [exact Hr|]. split; [exact Hdispatch|exact Hcreated].
  - destruct (proj2 (wakeUpRun_dispatch_iff_pending
                       [] "run_1" (Some {| correlationIds := Some ["A"] |})
                       demo_state filtered.1 filtered.2 (trace filtered.2)
                       (surjective_pairing filtered) eq_refl)
                0%nat (with_world demo_state) MemoryWorld.the_run
                demo_events demo_events demo_events eq_refl eq_refl eq_refl)
      as [Hnone _].
    destruct Hnone as (Hr & _ & Hcreated & Hdispatch & _);
      [vm_compute; reflexivity|].
    split; [exact Hr|]. split; [exact Hdispatch|exact Hcreated].
Defined.

Lemma wakeUpRun_synthesis_before_dispatch_witness :
  let r := (wakeUpRun [] "run_1" None demo_state).1 in
  let s' := (wakeUpRun [] "run_1" None demo_state).2 in
  let c := Queue 0%nat "__wkf_workflow_sleeper" "run_1" "dpl_1" in
  let pre :=
    lookup_phase 0%nat "run_1" MemoryWorld.the_run demo_events
    ++ [ Issued (EventsCreate 0%nat "run_1" (wait_completed_request "B"));
         Settled (EventsCreate 0%nat "run_1" (wait_completed_request "B"))
           ReturnedVoid ] in
  let post := [Settled c ReturnedVoid] in
  trace s' = trace demo_state ++ pre ++ Issued c :: post
  ∧ ∃ w run data,
      pre = lookup_phase w "run_1" run data
            ++ synthesis_phase w "run_1" (pending data None)
      ∧ (∀ c', Issued c' ∈ pre → is_synthesis (Issued c') →
           Settled c' ReturnedVoid ∈ pre)
      ∧ outstanding pre = []
      ∧ Forall (λ ev, ¬ is_synthesis ev) post.
Proof.
  intros r s' c pre post.
  assert (wakeUpRun [] "run_1" None demo_state = (r, s')) as Hrun
    by apply surjective_pairing.
  assert (trace s' = trace demo_state ++ pre ++ Issued c :: post) as Htrace
    by (vm_compute; reflexivity).
  exact (conj Htrace
           (wakeUpRun_synthesis_before_dispatch
              [] "run_1" None demo_state r s' pre c post Hrun Htrace I)).
Defined.


Example wakeUpRun_demo_no_id :
  (wakeUpRun [] "run_1" None demo_state_no_id).1 = inr (Success (stoppedCount_of 1))
  ∧ created_requests (trace (wakeUpRun [] "run_1" None demo_state_no_id).2) = []
  ∧ dispatch_calls (trace (wakeUpRun [] "run_1" None demo_state_no_id).2)
    = [Queue 0%nat "__wkf_workflow_sleeper" "run_1" "dpl_1"]
  ∧ (wakeUpRun [] "run_1" (Some {| correlationIds := Some ["A"] |})
       demo_state_no_id).1 = inr (Success (stoppedCount_of 0)).
Proof. vm_compute. done. Qed.

(** * Further server actions and helpers

    The display configuration ([getBackendDisplayName], [shortenPath],
    [getServerConfig]) with the status line the dashboard builds from it,
    [reenqueueRun], and the URL builder of the client. *)

(** ** Strings *)
Module JsString.

(** [s.split(sep)] for a one-character separator: never an empty array. *)
Fixpoint split (sep : ascii) (s : string) : list string :=
  match s with
  | EmptyString => [""]
  | String c s' =>
      if decide (c = sep) then "" :: split sep s'
      else
        match split sep s' with
        | seg :: rest => String c seg :: rest
        | [] => [String c ""]
        end
  end.

(** [s.slice(n)] for [0 <= n]. *)
Fixpoint slice_from (n : nat) (s : string) : string :=
  match n, s with
  | O, _ => s
  | S n', String _ s' => slice_from n' s'
  | S _, EmptyString => ""
  end.

(** [l.slice(-2)] on an array. *)
Definition last_two {A} (l : list A) : list A := drop (length l - 2) l.

(** [a || b] where both may be [undefined]. *)
Definition or_undefined (a b : option string) : option string :=
  match a with
  | Some s => if decide (s = "") then b else Some s
  | None => b
  end.

(** A truthy string: the value itself when present and non-empty. *)
Definition truthy_value (a : option string) : option string :=
  match a with
  | Some s => if decide (s = "") then None else Some s
  | None => None
  end.

End JsString.

(** ** Display configuration *)

Definition getBackendDisplayName (targetWorld : option string) : string :=
  match JsString.truthy_value targetWorld with
  | None => "Local"
  | Some targetWorld =>
      if decide (targetWorld = "local") then "Local"
      else if decide (targetWorld = "vercel") then "Vercel"
      else if decide (targetWorld = "@workflow/world-postgres"
                      ∨ targetWorld = "postgres") then "PostgreSQL"
      else if String.prefix "@" targetWorld then
        let parts := JsString.split "/" targetWorld in
        or_else (last parts) targetWorld
      else targetWorld
  end.

(** What the code reads of [new URL(url)]; [None] when the constructor
    raises. *)
Record ParsedURL : Type := { hostname : string; pathname : string }.

Class UrlHost : Type := new_URL : string → option ParsedURL.

Definition extractHostnameFromUrl `{UrlHost} (url : option string)
  : option string :=
  match JsString.truthy_value url with
  | None => None
  | Some url =>
      match new_URL url with
      | Some parsed => JsString.truthy_value (Some (hostname parsed))
      | None => None
      end
  end.

Definition extractDatabaseFromUrl `{UrlHost} (url : option string)
  : option string :=
  match JsString.truthy_value url with
  | None => None
  | Some url =>
      match new_URL url with
      | Some parsed =>
          let dbName := JsString.slice_from 1 (pathname parsed) in
          JsString.truthy_value (Some dbName)
      | None => None
      end
  end.

Definition shortenPath (env : ProcessEnv) (filePath : string) : string :=
  if decide (filePath = "") then filePath
  else
    let shortened := filePath in
    let homeDir := JsString.or_undefined (env !! "HOME") (env !! "USERPROFILE") in
    let shortened :=
      match JsString.truthy_value homeDir with
      | Some homeDir =>
          if String.prefix homeDir shortened then
            "~" +:+ JsString.slice_from (String.length homeDir) shortened
          else shortened
      | None => shortened
      end in
    if decide (40 < String.length shortened)%nat then
      let segments :=
        filter (λ seg, seg ≠ "") (JsString.split "/" shortened) in
      if decide (2 < length segments)%nat then
        let lastTwo := Js.join "/" (JsString.last_two segments) in
        ".../" +:+ lastTwo
      else shortened
    else shortened.

Record DisplayInfo : Type := {
  environment : option string;
  projectName : option string;
  teamName : option string;
  di_hostname : option string;
  database : option string;
  dataDir : option string
}.

Record ServerConfig : Type := {
  isConfigured : bool;
  backendDisplayName : string;
  backendId : string;
  displayInfo : DisplayInfo
}.

Definition emptyDisplayInfo : DisplayInfo :=
  {| environment := None; projectName := None; teamName := None;
     di_hostname := None; database := None; dataDir := None |}.

Definition getServerConfig `{UrlHost} (env : ProcessEnv) : ServerConfig :=
  let targetWorld := env !! "WORKFLOW_TARGET_WORLD" in
  let effectiveBackend :=
    match JsString.truthy_value targetWorld with
    | Some b => b
    | None =>
        match JsString.truthy_value (env !! "VERCEL_DEPLOYMENT_ID") with
        | Some _ => "vercel"
        | None => "local"
        end
    end in
  let backendDisplayName := getBackendDisplayName (Some effectiveBackend) in
  let displayInfo :=
    if decide (effectiveBackend = "vercel"
               ∨ effectiveBackend = "@workflow/world-vercel") then
      {| environment :=
           Some (default "production"
                   (JsString.truthy_value (env !! "WORKFLOW_VERCEL_ENV")));
         projectName := env !! "WORKFLOW_VERCEL_PROJECT";
         teamName := env !! "WORKFLOW_VERCEL_TEAM";
         di_hostname := None; database := None; dataDir := None |}
    else if decide (effectiveBackend = "@workflow/world-postgres"
                    ∨ effectiveBackend = "postgres") then
      let postgresUrl := env !! "WORKFLOW_POSTGRES_URL" in
      {| environment := None; projectName := None; teamName := None;
         di_hostname := extractHostnameFromUrl postgresUrl;
         database := extractDatabaseFromUrl postgresUrl;
         dataDir := None |}
    else if decide (effectiveBackend = "local"
                    ∨ effectiveBackend = "@workflow/world-local") then
      {| environment := None; projectName := None; teamName := None;
         di_hostname := None; database := None;
         dataDir :=
           Some (shortenPath env
                   (default ".workflow-data"
                      (JsString.truthy_value (env !! "WORKFLOW_LOCAL_DATA_DIR")))) |}
    else emptyDisplayInfo
  in
  {| isConfigured := true;
     backendDisplayName := backendDisplayName;
     backendId := effectiveBackend;
     displayInfo := displayInfo |}.

(** The status line of the dashboard ([ConnectionStatus]): the tooltip
    parts and the subtitle shown after the backend name. *)
Definition push_part (label : string) (v : option string) (parts : list string)
  : list string :=
  match JsString.truthy_value v with
  | Some v => parts ++ [label +:+ v]
  | None => parts
  end.

Definition connectionParts (serverConfig : ServerConfig) : list string :=
  let backendId := backendId serverConfig in
  let displayInfo := displayInfo serverConfig in
  if decide (backendId = "vercel" ∨ backendId = "@workflow/world-vercel") then
    push_part "team: " (teamName displayInfo)
      (push_part "project: " (projectName displayInfo)
         (push_part "environment: " (environment displayInfo) []))
  else if decide (backendId = "@workflow/world-postgres" ∨ backendId = "postgres")
  then
    push_part "database: " (database displayInfo)
      (push_part "host: " (di_hostname displayInfo) [])
  else if decide (backendId = "local" ∨ backendId = "@workflow/world-local") then
    push_part "data: " (dataDir displayInfo) []
  else [].

Definition connectionSubString (serverConfig : ServerConfig) : option string :=
  let backendId := backendId serverConfig in
  let displayInfo := displayInfo serverConfig in
  if decide (backendId = "vercel" ∨ backendId = "@workflow/world-vercel") then
    environment displayInfo
  else if decide (backendId = "local" ∨ backendId = "@workflow/world-local") then
    dataDir displayInfo
  else if decide (backendId = "@workflow/world-postgres" ∨ backendId = "postgres")
  then di_hostname displayInfo
  else None.

(** *** Facts about strings *)

Lemma truthy_value_Some a s : JsString.truthy_value a = Some s → a = Some s ∧ s ≠ "".
Proof.
  unfold JsString.truthy_value. destruct a as [x|]; [|done].
  case_decide; [done|]. by intros [= ->].
Qed.

Lemma truthy_value_nonempty s : s ≠ "" → JsString.truthy_value (Some s) = Some s.
Proof. intros. unfold JsString.truthy_value. by rewrite decide_False. Qed.

Lemma or_else_nonempty a b : b ≠ "" → or_else a b ≠ "".
Proof. unfold or_else. destruct a as [x|]; [|done]. by case_decide. Qed.

Lemma split_nonempty sep s : JsString.split sep s ≠ [].
Proof.
  destruct s as [|c s]; simpl; [done|].
  case_decide; [done|]. by destruct (JsString.split sep s).
Qed.

(** No occurrence of the character in the string. *)
Fixpoint free_of (c : ascii) (s : string) : Prop :=
  match s with
  | EmptyString => True
  | String c' s' => c' ≠ c ∧ free_of c s'
  end.

Lemma split_free_of sep s : free_of sep s → JsString.split sep s = [s].
Proof.
  induction s as [|c s IH]; simpl; [done|]. intros [? Hs].
  rewrite decide_False by done. by rewrite (IH Hs).
Qed.

Lemma split_app sep s1 s2 :
  JsString.split sep (s1 +:+ String sep s2)
  = JsString.split sep s1 ++ JsString.split sep s2.
Proof.
  induction s1 as [|c s1 IH]; simpl.
  - by rewrite decide_True.
  - change (String.append s1 (String sep s2)) with (s1 +:+ String sep s2).
    rewrite IH. case_decide; [done|].
    destruct (JsString.split sep s1) as [|seg rest] eqn:Hs; [|done].
    by destruct (split_nonempty sep s1).
Qed.

Lemma last_split_app sep s1 s2 :
  last (JsString.split sep (s1 +:+ String sep s2)) = last (JsString.split sep s2).
Proof.
  rewrite split_app, last_app.
  destruct (last (JsString.split sep s2)) eqn:Hl; [done|].
  apply last_None in Hl. by destruct (split_nonempty sep s2).
Qed.

Lemma getBackendDisplayName_ne (targetWorld : option string) :
  getBackendDisplayName targetWorld ≠ "".
Proof.
  unfold getBackendDisplayName.
  destruct (JsString.truthy_value targetWorld) as [t|] eqn:Ht; [|done].
  apply truthy_value_Some in Ht as [_ Ht].
  repeat case_decide; try done.
  destruct (String.prefix "@" t); [|done]. by apply or_else_nonempty.
Qed.

(** X1. The display name of a backend is never empty: whatever the target
    world is, [getBackendDisplayName] returns a string with a first
    character. *)
Theorem getBackendDisplayName_nonempty (targetWorld : option string) :
  ∃ c name, getBackendDisplayName targetWorld = String c name.
Proof.
  pose proof (getBackendDisplayName_ne targetWorld) as Hne.
  destruct (getBackendDisplayName targetWorld) as [|c name]; [done|eauto].
Qed.

(** X2. A scoped package name is displayed by its last path segment. *)
Theorem getBackendDisplayName_scoped (scope name : string) :
  free_of "/" name → name ≠ "" →
  "@" +:+ scope +:+ "/" +:+ name ≠ "@workflow/world-postgres" →
  getBackendDisplayName (Some ("@" +:+ scope +:+ "/" +:+ name)) = name.
Proof.
  intros Hfree Hname Hpg. unfold getBackendDisplayName.
  rewrite truthy_value_nonempty by done.
  rewrite decide_False by done. rewrite decide_False by done.
  rewrite decide_False by (intros [?|?]; done).
  assert (String.prefix "@" ("@" +:+ scope +:+ "/" +:+ name) = true) as ->.
  { simpl. by destruct (String.append scope _). }
  cbv iota zeta.
  change ("@" +:+ scope +:+ "/" +:+ name)
    with (String "@" (scope +:+ String "/" name)) at 1.
  assert (last (JsString.split "/" (String "@" (scope +:+ String "/" name)))
          = Some name) as ->.
  { change (String "@" (scope +:+ String "/" name))
      with (String "@" scope +:+ String "/" name).
    by rewrite last_split_app, split_free_of. }
  unfold or_else. by rewrite decide_False.
Qed.

Lemma getBackendDisplayName_scoped_witness :
  getBackendDisplayName (Some ("@" +:+ "acme" +:+ "/" +:+ "world-redis"))
  = "world-redis".
Proof.
  apply (getBackendDisplayName_scoped "acme" "world-redis").
  - simpl. repeat split; discriminate.
  - discriminate.
  - discriminate.
Defined.

(** *** [shortenPath] *)

Lemma prefix_app h rest : String.prefix h (h +:+ rest) = true.
Proof.
  induction h as [|c h IH]; simpl; [by destruct rest|].
  destruct (Ascii.ascii_dec c c); [exact IH|done].
Qed.

Lemma slice_from_app h rest :
  JsString.slice_from (String.length h) (h +:+ rest) = rest.
Proof. induction h as [|c h IH]; simpl; [done|exact IH]. Qed.

Lemma shortenPath_ne (env : ProcessEnv) (filePath : string) :
  filePath ≠ "" → shortenPath env filePath ≠ "".
Proof.
  intros Hne. unfold shortenPath. rewrite decide_False by done. cbv zeta.
  set (shortened :=
         match JsString.truthy_value _ with
         | Some homeDir =>
             if String.prefix homeDir filePath
             then "~" +:+ JsString.slice_from (String.length homeDir) filePath
             else filePath
         | None => filePath
         end).
  assert (shortened ≠ "") as Hs.
  { unfold shortened. destruct (JsString.truthy_value _); [|done].
    by destruct (String.prefix _ _). }
  repeat case_decide; done.
Qed.

(** X3. A path that is not empty is never shortened to nothing. *)
Theorem shortenPath_nonempty (env : ProcessEnv) (filePath : string) :
  filePath ≠ "" → ∃ c rest, shortenPath env filePath = String c rest.
Proof.
  intros Hne%(shortenPath_ne env).
  destruct (shortenPath env filePath) as [|c rest]; [done|eauto].
Qed.

Lemma shortenPath_nonempty_witness :
  ∃ c rest, shortenPath {[ "HOME" := "/home/ada" ]} "/home/ada" = String c rest.
Proof.
  apply (shortenPath_nonempty {[ "HOME" := "/home/ada" ]} "/home/ada").
  discriminate.
Defined.

Lemma split_Forall_free_of sep s : Forall (free_of sep) (JsString.split sep s).
Proof.
  induction s as [|c s IH]; simpl; [by repeat constructor|].
  case_decide; [by constructor|].
  destruct (JsString.split sep s) as [|seg rest]; [by repeat constructor|].
  apply Forall_cons in IH as [Hseg Hrest]. by repeat constructor.
Qed.

Lemma last_two_pair {A} (P : A → Prop) (l : list A) :
  (2 < length l)%nat → Forall P l →
  ∃ a b, JsString.last_two l = [a; b] ∧ P a ∧ P b.
Proof.
  intros Hlen HP. unfold JsString.last_two.
  pose proof (Forall_drop P (length l - 2) l HP) as Hdrop.
  pose proof (length_drop l (length l - 2)) as Hl.
  destruct (drop (length l - 2) l) as [|a [|b [|c rest]]]; simpl in Hl; try lia.
  apply Forall_cons in Hdrop as [Ha Hdrop]. apply Forall_cons in Hdrop as [Hb _].
  eauto.
Qed.

(** X4. What a shortened path looks like: it has at most 40 characters, or
    at most two non-empty segments, or it is [.../parent/name] where
    [parent] and [name] are non-empty and hold no slash. *)
Theorem shortenPath_shape (env : ProcessEnv) (filePath : string) :
  (String.length (shortenPath env filePath) ≤ 40)%nat
  ∨ (length (filter (λ seg, seg ≠ "")
               (JsString.split "/" (shortenPath env filePath))) ≤ 2)%nat
  ∨ ∃ parent name,
      shortenPath env filePath = ".../" +:+ parent +:+ "/" +:+ name
      ∧ parent ≠ "" ∧ name ≠ ""
      ∧ free_of "/" parent ∧ free_of "/" name.
Proof.
  unfold shortenPath. destruct (decide (filePath = "")) as [->|Hne].
  { left. simpl. lia. }
  cbv zeta.
  match goal with
  | |- context [decide (40 < String.length ?s)%nat] => generalize s
  end.
  intros shortened.
  destruct (decide (40 < String.length shortened)%nat) as [Hlong|Hshort];
    [|left; lia].
  destruct (decide (2 < length _)%nat) as [Hmany|Hfew]; [|right; left; lia].
  right. right.
  destruct (last_two_pair (λ seg, seg ≠ "" ∧ free_of "/" seg) _ Hmany)
    as (parent & name & -> & [Hp Hpf] & [Hn Hnf]).
  { apply Forall_forall. intros seg [Hseg Hin]%list_elem_of_filter.
    split; [done|].
    by apply (proj1 (Forall_forall _ _) (split_Forall_free_of "/" shortened)). }
  exists parent, name. done.
Qed.

Example shortenPath_long :
  shortenPath {[ "HOME" := "/home/ada" ]}
    "/var/lib/workflow/projects/acme/storefront/.workflow-data"
  = ".../storefront/.workflow-data".
Proof. vm_compute. reflexivity. Qed.

(** X5. Inside the home directory the path is shown relative to [~]; a
    path outside it that has at most 40 characters is shown as it is. *)
Theorem shortenPath_short (env : ProcessEnv) (filePath : string) :
  filePath ≠ "" →
  (∀ home rest,
     JsString.truthy_value
       (JsString.or_undefined (env !! "HOME") (env !! "USERPROFILE")) = Some home →
     filePath = home +:+ rest →
     (String.length ("~" +:+ rest) ≤ 40)%nat →
     shortenPath env filePath = "~" +:+ rest)
  ∧ ((∀ home,
        JsString.truthy_value
          (JsString.or_undefined (env !! "HOME") (env !! "USERPROFILE")) = Some home →
        String.prefix home filePath = false) →
     (String.length filePath ≤ 40)%nat →
     shortenPath env filePath = filePath).
Proof.
  intros Hne. unfold shortenPath. rewrite decide_False by done. cbv zeta. split.
  - intros home rest -> -> Hlen.
    rewrite prefix_app, slice_from_app. rewrite decide_False by lia. done.
  - intros Hout Hlen.
    destruct (JsString.truthy_value _) as [home|] eqn:Hhome.
    + rewrite (Hout home eq_refl). rewrite decide_False by lia. done.
    + rewrite decide_False by lia. done.
Qed.

Lemma shortenPath_short_witness :
  shortenPath {[ "HOME" := "/home/ada" ]} "/home/ada/app/.workflow-data"
  = "~/app/.workflow-data".
Proof.
  apply (proj1 (shortenPath_short {[ "HOME" := "/home/ada" ]}
                  "/home/ada/app/.workflow-data" ltac:(discriminate))
           "/home/ada" "/app/.workflow-data").
  - reflexivity.
  - reflexivity.
  - vm_compute. lia.
Defined.

(** *** [getServerConfig] and the status line *)

(** The settings the display configuration reads. *)
Definition display_settings : list string :=
  [ "WORKFLOW_TARGET_WORLD"; "VERCEL_DEPLOYMENT_ID"; "WORKFLOW_VERCEL_ENV";
    "WORKFLOW_VERCEL_PROJECT"; "WORKFLOW_VERCEL_TEAM"; "WORKFLOW_POSTGRES_URL";
    "WORKFLOW_LOCAL_DATA_DIR"; "HOME"; "USERPROFILE" ].

Lemma getServerConfig_reads `{UrlHost} (env1 env2 : ProcessEnv) :
  (∀ k, k ∈ display_settings → env1 !! k = env2 !! k) →
  getServerConfig env1 = getServerConfig env2.
Proof.
  intros Hagree. unfold getServerConfig, shortenPath.
  rewrite !(Hagree "WORKFLOW_TARGET_WORLD"), !(Hagree "VERCEL_DEPLOYMENT_ID"),
    !(Hagree "WORKFLOW_VERCEL_ENV"), !(Hagree "WORKFLOW_VERCEL_PROJECT"),
    !(Hagree "WORKFLOW_VERCEL_TEAM"), !(Hagree "WORKFLOW_POSTGRES_URL"),
    !(Hagree "WORKFLOW_LOCAL_DATA_DIR"), !(Hagree "HOME"),
    !(Hagree "USERPROFILE") by compute_done.
  done.
Qed.

(** X6. The display configuration does not depend on the auth token:
    setting it to any value, or removing it, leaves the configuration as it
    was. *)
Theorem getServerConfig_hides_auth_token `{UrlHost}
    (env : ProcessEnv) (token : string) :
  getServerConfig (<["WORKFLOW_VERCEL_AUTH_TOKEN" := token]> env)
  = getServerConfig env
  ∧ getServerConfig (delete "WORKFLOW_VERCEL_AUTH_TOKEN" env)
    = getServerConfig env.
Proof.
  assert ("WORKFLOW_VERCEL_AUTH_TOKEN" ∉ display_settings) as Hnot
    by compute_done.
  split; apply getServerConfig_reads; intros k Hk.
  - apply lookup_insert_ne. by intros <-.
  - apply lookup_delete_ne. by intros <-.
Qed.

(** X7. The configuration always names a backend: it is marked configured,
    the backend id and display name are non-empty, and without a target
    world the backend is [vercel] on a Vercel deployment and [local]
    otherwise. *)
Theorem getServerConfig_backend `{UrlHost} (env : ProcessEnv) :
  isConfigured (getServerConfig env) = true
  ∧ backendId (getServerConfig env) ≠ ""
  ∧ backendDisplayName (getServerConfig env) ≠ ""
  ∧ (∀ target, JsString.truthy_value (env !! "WORKFLOW_TARGET_WORLD") = Some target →
       backendId (getServerConfig env) = target)
  ∧ (JsString.truthy_value (env !! "WORKFLOW_TARGET_WORLD") = None →
       (is_Some (JsString.truthy_value (env !! "VERCEL_DEPLOYMENT_ID")) →
          backendId (getServerConfig env) = "vercel"
          ∧ backendDisplayName (getServerConfig env) = "Vercel")
       ∧ (JsString.truthy_value (env !! "VERCEL_DEPLOYMENT_ID") = None →
          backendId (getServerConfig env) = "local"
          ∧ backendDisplayName (getServerConfig env) = "Local")).
Proof.
  unfold getServerConfig. cbn [isConfigured backendId backendDisplayName].
  split; [done|]. split; [|split; [apply getBackendDisplayName_ne|]].
  - destruct (JsString.truthy_value (env !! "WORKFLOW_TARGET_WORLD")) eqn:Ht.
    + by apply truthy_value_Some in Ht as [_ ?].
    + by destruct (JsString.truthy_value (env !! "VERCEL_DEPLOYMENT_ID")).
  - split.
    + by intros target ->.
    + intros ->. split.
      * by intros [d ->].
      * by intros ->.
Qed.

(** X8. The status line always has a subtitle and a tooltip for the Vercel
    and local backends, and shows neither for an unknown backend. *)
Theorem connection_status_of_config `{UrlHost} (env : ProcessEnv) :
  let cfg := getServerConfig env in
  (backendId cfg ∈ ["vercel"; "@workflow/world-vercel";
                    "local"; "@workflow/world-local"] →
     ∃ sub, connectionSubString cfg = Some sub ∧ sub ≠ ""
            ∧ connectionParts cfg ≠ [])
  ∧ (backendId cfg ∉ ["vercel"; "@workflow/world-vercel"; "local";
                      "@workflow/world-local"; "@workflow/world-postgres";
                      "postgres"] →
     connectionSubString cfg = None ∧ connectionParts cfg = []).
Proof.
  intros cfg. unfold cfg, connectionSubString, connectionParts, getServerConfig.
  cbn [backendId displayInfo].
  set (b := match JsString.truthy_value (env !! "WORKFLOW_TARGET_WORLD") with
            | Some b => b
            | None => _
            end).
  clearbody b. split.
  - rewrite !elem_of_cons, elem_of_nil. intros Hb.
    assert (b = "vercel" ∨ b = "@workflow/world-vercel"
            ∨ (b = "local" ∨ b = "@workflow/world-local")
              ∧ ¬ (b = "vercel" ∨ b = "@workflow/world-vercel")
              ∧ ¬ (b = "@workflow/world-postgres" ∨ b = "postgres")) as Hcase.
    { destruct Hb as [->|[->|[->|[->|[]]]]]; [by left|by right; left|..];
        right; right; (split; [auto|]); split; intros [?|?]; discriminate. }
    destruct (decide (b = "vercel" ∨ b = "@workflow/world-vercel")) as [Hv|Hv].
    + cbn [environment projectName teamName].
      set (e := default "production" _).
      assert (e ≠ "") as He.
      { unfold e. destruct (JsString.truthy_value _) eqn:Ht; [|done].
        by apply truthy_value_Some in Ht as [_ ?]. }
      exists e. split; [done|]. split; [done|].
      unfold push_part at 3. rewrite (truthy_value_nonempty e He).
      unfold push_part.
      destruct (JsString.truthy_value (env !! "WORKFLOW_VERCEL_PROJECT"));
        destruct (JsString.truthy_value (env !! "WORKFLOW_VERCEL_TEAM")); done.
    + destruct Hcase as [?|[?|(Hl & _ & Hp)]]; [by destruct Hv; auto..|].
      destruct (decide (b = "@workflow/world-postgres" ∨ b = "postgres"))
        as [?|_]; [done|].
      destruct (decide (b = "local" ∨ b = "@workflow/world-local")) as [_|?];
        [|done].
      cbn [dataDir].
      set (d := shortenPath env _).
      assert (d ≠ "") as Hd.
      { unfold d. apply shortenPath_ne.
        destruct (JsString.truthy_value _) eqn:Ht; [|done].
        by apply truthy_value_Some in Ht as [_ ?]. }
      exists d. split; [done|]. split; [done|].
      unfold push_part. by rewrite (truthy_value_nonempty d Hd).
  - rewrite !not_elem_of_cons. intros (? & ? & ? & ? & ? & ? & _).
    rewrite !decide_False by (intros [?|?]; done). done.
Qed.

(** ** [reenqueueRun], and how a wake-up fails *)

Definition reenqueueRun_body {Store} `{WorldOps Store}
    (worldEnv : EnvMap) (runId : string) : M Store ServerActionResult :=
  world ← getWorldFromEnv (Js.spread worldEnv);
  run ← await (RunsGet world runId) (runs_get world runId) ReturnedRun;
  let deploymentId := deploymentId run in
  await (Queue world ("__wkf_workflow_" +:+ workflowName run) runId deploymentId)
    (world_queue world ("__wkf_workflow_" +:+ workflowName run) runId deploymentId)
    (λ _, ReturnedVoid);;
  lift (createResponse JUndefined).

Definition reenqueueRun {Store} `{WorldOps Store} `{ErrorHost}
    (worldEnv : EnvMap) (runId : string)
  : M Store ServerActionResult :=
  try_catch (reenqueueRun_body worldEnv runId)
    (λ error,
       createServerActionError error "reenqueueRun"
         (Some (JObject [("runId", JString runId)]))).

(** The request parameters a failed wake-up reports. *)
Definition wakeUpRun_params (runId : string) (options : option StopSleepOptions)
  : JsValue :=
  JObject
    [ ("runId", JString runId);
      ("correlationIds",
       match options ≫= correlationIds with
       | Some ids => JArray (JString <$> ids)
       | None => JUndefined
       end) ].

(** How a wake-up can fail, with what it has done by then. *)
Inductive WakeUpFailure (runId : string) (target : option (list string))
    (t : Thrown) : list TraceEvent → Prop :=
| fails_constructing :
    WakeUpFailure runId target t []
| fails_resolving_run w :
    WakeUpFailure runId target t
      [ Issued (RunsGet w runId); Settled (RunsGet w runId) (Raised t) ]
| fails_listing_events w run :
    WakeUpFailure runId target t
      [ Issued (RunsGet w runId); Settled (RunsGet w runId) (ReturnedRun run);
        Issued (EventsList w runId 1000);
        Settled (EventsList w runId 1000) (Raised t) ]
| fails_synthesizing w run data before e after c :
    pending data target = before ++ e :: after →
    wakeable_id e = Some c →
    WakeUpFailure runId target t
      (lookup_phase w runId run data
       ++ synthesis_phase w runId before
       ++ [ Issued (EventsCreate w runId (wait_completed_request c));
            Settled (EventsCreate w runId (wait_completed_request c)) (Raised t) ])
| fails_dispatching w run data :
    pending data target ≠ [] →
    WakeUpFailure runId target t
      (lookup_phase w runId run data
       ++ synthesis_phase w runId (pending data target)
       ++ [ Issued (dispatch_call w runId run);
            Settled (dispatch_call w runId run) (Raised t) ]).

Section failure_facts.
Context {Store : Type} `{!WorldOps Store} `{!ErrorHost}.
Implicit Types (s : State Store) (w : World).

(** The loop again, recording where it stops when a synthesis raises: the
    syntheses before it are accepted, those after it are never issued. *)
Lemma synthesis_loop_stops w runId (ps : list Event) s t s' :
  for_of ps (synthesize w runId) s = (inl t, s') →
  ∃ before e after c,
    ps = before ++ e :: after
    ∧ wakeable_id e = Some c
    ∧ trace s' = trace s
                 ++ synthesis_phase w runId before
                 ++ [ Issued (EventsCreate w runId (wait_completed_request c));
                      Settled (EventsCreate w runId (wait_completed_request c))
                        (Raised t) ].
Proof.
  revert s. induction ps as [|e ps IH]; intros s; simpl; [done|].
  unfold mbind, M_bind, bind. unfold synthesize at 1.
  assert (∀ s1, trace s1 = trace s ++ synthesis_of w runId e →
            for_of ps (synthesize w runId) s1 = (inl t, s') →
            ∃ before e0 after c,
              e :: ps = before ++ e0 :: after
              ∧ wakeable_id e0 = Some c
              ∧ trace s' = trace s ++ synthesis_phase w runId before
                           ++ [ Issued (EventsCreate w runId (wait_completed_request c));
                                Settled (EventsCreate w runId (wait_completed_request c))
                                  (Raised t) ]) as Hrest.
  { intros s1 Hs1 Hloop.
    apply IH in Hloop as (before & e0 & after & c & -> & Hc & Htr).
    exists (e :: before), e0, after, c. split; [done|]. split; [done|].
    rewrite Htr, Hs1. unfold synthesis_phase. rewrite bind_cons.
    by rewrite <-!app_assoc. }
  unfold synthesis_of in Hrest. unfold wakeable_id at 1.
  destruct (correlationId e) as [c|] eqn:Hc; [destruct (decide (c = ""))|].
  - unfold mret, M_ret, ret. apply Hrest. by rewrite app_nil_r.
  - destruct (await _ _ _ s) as [[t'|[]] s1] eqn:Hawait;
      apply await_trace in Hawait.
    + intros [= <- <-]. exists [], e, ps, c. split; [done|].
      unfold wakeable_id. rewrite Hc, decide_False by done. split; [done|].
      by rewrite Hawait.
    + apply Hrest. by rewrite Hawait.
  - unfold mret, M_ret, ret. apply Hrest. by rewrite app_nil_r.
Qed.

Lemma wakeUpRun_body_fails worldEnv runId options s t s' :
  wakeUpRun_body worldEnv runId options s = (inl t, s') →
  ∃ new, trace s' = trace s ++ new
         ∧ WakeUpFailure runId (options ≫= correlationIds) t new.
Proof.
  unfold wakeUpRun_body. unfold mbind at 1, M_bind at 1, bind at 1.
  destruct (getWorldFromEnv _ s) as [[t0|w] s1] eqn:Hworld;
    apply getWorldFromEnv_trace in Hworld.
  { intros [= <- <-]. exists []. rewrite app_nil_r. split; [done|]. constructor. }
  unfold mbind at 1, M_bind at 1, bind at 1.
  destruct (await _ _ _ s1) as [[t0|run] s2] eqn:Hrun; apply await_trace in Hrun.
  { intros [= <- <-]. eexists. rewrite Hrun, Hworld. split; [reflexivity|].
    constructor. }
  unfold mbind at 1, M_bind at 1, bind at 1.
  destruct (await _ _ _ s2) as [[t0|data] s3] eqn:Hlist; apply await_trace in Hlist.
  { intros [= <- <-]. eexists. rewrite Hlist, Hrun, Hworld, <-app_assoc.
    split; [reflexivity|]. constructor. }
  cbv zeta. rewrite (pendingWaits_pending data (options ≫= correlationIds)).
  assert (trace s3 = trace s ++ lookup_phase w runId run data) as Hs3.
  { rewrite Hlist, Hrun, Hworld, <-app_assoc. done. }
  set (ps := pending data (options ≫= correlationIds)) in *.
  unfold mbind at 1, M_bind at 1, bind at 1.
  destruct (for_of _ _ s3) as [[t0|[]] s4] eqn:Hloop.
  { intros [= <- <-].
    apply (synthesis_loop_stops w runId) in Hloop
      as (before & e & after & c & Hps & Hc & Htr).
    eexists. split.
    { rewrite Htr, Hs3, <-app_assoc. reflexivity. }
    by eapply fails_synthesizing. }
  apply synthesis_loop in Hloop.
  unfold mbind at 1, M_bind at 1, bind at 1.
  change (createResponse _)
    with (inr (B := ServerActionResult) (A := Thrown)
              (Success (stoppedCount_of (length ps)))).
  destruct (decide (0 < length ps)%nat) as [Hpos|Hzero].
  - assert (ps ≠ []) as Hne by (intros Hnil; rewrite Hnil in Hpos; simpl in Hpos; lia).
    destruct (await _ _ _ s4) as [[t0|[]] s5] eqn:Hq; apply await_trace in Hq.
    + intros [= <- <-]. eexists. split.
      { rewrite Hq, Hloop, Hs3, <-!app_assoc. reflexivity. }
      by apply fails_dispatching.
    + unfold lift. intros [=].
  - unfold mret, M_ret, ret, lift. intros [=].
Qed.

(** A failed wake-up returns the classification of the error that stopped
    it, reported for operation [wakeUpRun] with its parameters. *)
Lemma wakeUpRun_failure worldEnv runId options s r s' :
  wakeUpRun worldEnv runId options s = (r, s') →
  (∀ d, r ≠ inr (Success d)) →
  ∃ t new,
    r = createServerActionError t "wakeUpRun"
          (Some (wakeUpRun_params runId options))
    ∧ trace s' = trace s ++ new
    ∧ WakeUpFailure runId (options ≫= correlationIds) t new.
Proof.
  unfold wakeUpRun, try_catch.
  destruct (wakeUpRun_body worldEnv runId options s) as [[t|res] s1] eqn:Hbody.
  - intros [= <- <-] _. apply wakeUpRun_body_fails in Hbody as (new & ? & ?).
    by exists t, new.
  - intros [= <- <-] Hnot.
    apply wakeUpRun_body_trace in Hbody
      as (new & _ & (w & run & data & [(_ & -> & _)|(_ & -> & _)]));
      exfalso; by eapply Hnot.
Qed.

End failure_facts.

(** The calls of a trace that raised, with the error. *)
Definition raised_calls (tr : list TraceEvent) : list (Call * Thrown) :=
  omap (λ ev, match ev with
              | Settled c (Raised t) => Some (c, t)
              | _ => None
              end) tr.

Lemma raised_calls_app tr1 tr2 :
  raised_calls (tr1 ++ tr2) = raised_calls tr1 ++ raised_calls tr2.
Proof. apply omap_app. Qed.

Lemma raised_calls_elem c t tr :
  Settled c (Raised t) ∈ tr ↔ (c, t) ∈ raised_calls tr.
Proof.
  unfold raised_calls. rewrite list_elem_of_omap. split.
  - intros Hin. by exists (Settled c (Raised t)).
  - intros (ev & Hin & Hev). destruct ev as [|c' [t'| | |]]; try done.
    by injection Hev as -> ->.
Qed.

Lemma raised_calls_synthesis w runId ps :
  raised_calls (synthesis_phase w runId ps) = [].
Proof.
  unfold synthesis_phase. induction ps as [|e ps IH]; [done|].
  rewrite bind_cons, raised_calls_app, IH. unfold synthesis_of.
  destruct (correlationId e) as [c|]; [|done]. by case_decide.
Qed.

(** In a failed wake-up exactly one call raised, the last one, or none when
    the World could not be constructed. *)
Lemma WakeUpFailure_raised runId target t new :
  WakeUpFailure runId target t new →
  new = [] ∨ ∃ c, raised_calls new = [(c, t)] ∧ last new = Some (Settled c (Raised t)).
Proof.
  destruct 1 as [|w|w run|w run data before e after c Hps Hc|w run data Hne].
  - by left.
  - right. by eexists.
  - right. by eexists.
  - right. eexists. split.
    + by rewrite !raised_calls_app, raised_calls_synthesis.
    + by rewrite !last_app.
  - right. eexists. split.
    + by rewrite !raised_calls_app, raised_calls_synthesis.
    + by rewrite !last_app.
Qed.

Section failure_claims.
Context {Store : Type} `{!WorldOps Store} `{!ErrorHost}.
Implicit Types (s : State Store) (w : World).

(** Any call that raised during a wake-up is the one that stopped it. *)
Lemma wakeUpRun_raised worldEnv runId options s r s' new c t :
  wakeUpRun worldEnv runId options s = (r, s') →
  trace s' = trace s ++ new →
  Settled c (Raised t) ∈ new →
  r = createServerActionError t "wakeUpRun" (Some (wakeUpRun_params runId options))
  ∧ WakeUpFailure runId (options ≫= correlationIds) t new
  ∧ last new = Some (Settled c (Raised t)).
Proof.
  intros Hrun Htrace Hin.
  assert (∀ d, r ≠ inr (Success d)) as Hnot.
  { intros d ->.
    apply wakeUpRun_trace in Hrun as (new' & Htrace' & Hshape).
    rewrite Htrace in Htrace'. apply app_inv_head in Htrace'. subst new'.
    apply raised_calls_elem in Hin.
    destruct Hshape as [(Hnot & _)|(w & run & data & Hshape)].
    { by destruct (Hnot d). }
    destruct Hshape as [(_ & _ & ->)|(_ & o & -> & [[-> _]|(? & _ & Hnot)])].
    + by apply elem_of_nil in Hin.
    + rewrite !raised_calls_app, raised_calls_synthesis in Hin.
      by apply elem_of_nil in Hin.
    + by destruct (Hnot d). }
  - apply (wakeUpRun_failure _ _ _ _ _ _ Hrun) in Hnot
      as (t0 & new' & He & Htrace' & Hfail).
    rewrite Htrace in Htrace'. apply app_inv_head in Htrace'. subst new'.
    destruct (WakeUpFailure_raised _ _ _ _ Hfail) as [->|(c0 & Hraised & Hlast)].
    { by apply elem_of_nil in Hin. }
    apply raised_calls_elem in Hin. rewrite Hraised in Hin.
    apply list_elem_of_singleton in Hin as [= -> ->]. done.
Qed.

(** X9. When resolving the run or listing its events raises, the wake-up
    ends as the classifier does on that error (it returns the failure built
    from it, or raises what the classifier raises when the error is not an
    [Error] and has no string conversion) and has made no write: no event
    was created and nothing was dispatched. *)
Theorem wakeUpRun_failed_lookup_writes_nothing
    worldEnv runId options s r s' new w t :
  wakeUpRun worldEnv runId options s = (r, s') →
  trace s' = trace s ++ new →
  Settled (RunsGet w runId) (Raised t) ∈ new
  ∨ Settled (EventsList w runId 1000) (Raised t) ∈ new →
  r = createServerActionError t "wakeUpRun" (Some (wakeUpRun_params runId options))
  ∧ created_requests new = [] ∧ dispatch_calls new = [].
Proof.
  intros Hrun Htrace Hin.
  assert (∃ c, (c = RunsGet w runId ∨ c = EventsList w runId 1000)
               ∧ Settled c (Raised t) ∈ new) as (c & Hc & Hin')
    by (destruct Hin; eauto).
  destruct (wakeUpRun_raised _ _ _ _ _ _ _ _ _ Hrun Htrace Hin')
    as (Hr & Hfail & Hlast).
  split; [done|].
  destruct Hfail as [|w'|w' run|w' run data before e after c' Hps Hc'|w' run data Hne].
  - done.
  - done.
  - done.
  - rewrite !last_app in Hlast. simpl in Hlast.
    injection Hlast as <-. by destruct Hc.
  - rewrite !last_app in Hlast. simpl in Hlast.
    injection Hlast as <-. by destruct Hc.
Qed.

(** X10. A wake-up is not atomic.  When a synthesis raises, the wake-up
    ends as the classifier does on that error (a returned failure, or what
    the classifier raises) and dispatches nothing; the syntheses of the
    pending waits before the failing one were already accepted by the
    store, and those after it are never issued. *)
Theorem wakeUpRun_failed_synthesis_keeps_earlier
    worldEnv runId options s r s' new w rq t :
  wakeUpRun worldEnv runId options s = (r, s') →
  trace s' = trace s ++ new →
  Settled (EventsCreate w runId rq) (Raised t) ∈ new →
  r = createServerActionError t "wakeUpRun" (Some (wakeUpRun_params runId options))
  ∧ dispatch_calls new = []
  ∧ ∃ run data before e after c,
      pending data (options ≫= correlationIds) = before ++ e :: after
      ∧ wakeable_id e = Some c
      ∧ rq = wait_completed_request c
      ∧ new = lookup_phase w runId run data
              ++ synthesis_phase w runId before
              ++ [ Issued (EventsCreate w runId rq);
                   Settled (EventsCreate w runId rq) (Raised t) ]
      ∧ created_requests new
        = wait_completed_request <$> (omap wakeable_id before ++ [c]).
Proof.
  intros Hrun Htrace Hin.
  destruct (wakeUpRun_raised _ _ _ _ _ _ _ _ _ Hrun Htrace Hin)
    as (Hr & Hfail & Hlast).
  split; [done|].
  destruct Hfail as [|w'|w' run|w' run data before e after c' Hps Hc'|w' run data Hne];
    try done.
  - rewrite !last_app in Hlast. simpl in Hlast. injection Hlast as -> Hrq.
    subst rq. split.
    { by rewrite !dispatch_calls_app, dispatch_calls_synthesis. }
    exists run, data, before, e, after, c'. repeat split; try done.
    rewrite !created_requests_app, created_requests_synthesis.
    by rewrite fmap_app.
  - rewrite !last_app in Hlast. simpl in Hlast. by injection Hlast.
Qed.

(** X11. When the dispatch raises, the wake-up ends as the classifier does
    on that error (a returned failure, or what the classifier raises)
    although every pending wait was synthesized and accepted before. *)
Theorem wakeUpRun_failed_dispatch_after_synthesis
    worldEnv runId options s r s' new c t :
  wakeUpRun worldEnv runId options s = (r, s') →
  trace s' = trace s ++ new →
  Settled c (Raised t) ∈ new → is_dispatch (Issued c) →
  r = createServerActionError t "wakeUpRun" (Some (wakeUpRun_params runId options))
  ∧ ∃ w run data,
      pending data (options ≫= correlationIds) ≠ []
      ∧ c = dispatch_call w runId run
      ∧ new = lookup_phase w runId run data
              ++ synthesis_phase w runId (pending data (options ≫= correlationIds))
              ++ [Issued c; Settled c (Raised t)]
      ∧ created_requests new
        = wait_completed_request
            <$> omap wakeable_id (pending data (options ≫= correlationIds)).
Proof.
  intros Hrun Htrace Hin Hc.
  destruct (wakeUpRun_raised _ _ _ _ _ _ _ _ _ Hrun Htrace Hin)
    as (Hr & Hfail & Hlast).
  split; [done|].
  destruct Hfail as [|w'|w' run|w' run data before e after c' Hps Hc'|w' run data Hne].
  - done.
  - simpl in Hlast. injection Hlast as <-. done.
  - simpl in Hlast. injection Hlast as <-. done.
  - rewrite !last_app in Hlast. simpl in Hlast. injection Hlast as <-. done.
  - rewrite !last_app in Hlast. simpl in Hlast. injection Hlast as <-.
    exists w', run, data. repeat split; try done.
    by rewrite !created_requests_app, created_requests_synthesis, app_nil_r.
Qed.

End failure_claims.

(** ** [reenqueueRun] *)

Definition reenqueueRun_params (runId : string) : JsValue :=
  JObject [("runId", JString runId)].

(** What one [reenqueueRun] adds to the trace, with its result. *)
Inductive ReenqueueOutcome {H : ErrorHost} (runId : string)
  : Thrown + ServerActionResult → list TraceEvent → Prop :=
| reenqueue_no_world t :
    ReenqueueOutcome runId
      (createServerActionError t "reenqueueRun" (Some (reenqueueRun_params runId)))
      []
| reenqueue_no_run w t :
    ReenqueueOutcome runId
      (createServerActionError t "reenqueueRun" (Some (reenqueueRun_params runId)))
      [ Issued (RunsGet w runId); Settled (RunsGet w runId) (Raised t) ]
| reenqueue_rejected w run t :
    ReenqueueOutcome runId
      (createServerActionError t "reenqueueRun" (Some (reenqueueRun_params runId)))
      [ Issued (RunsGet w runId); Settled (RunsGet w runId) (ReturnedRun run);
        Issued (dispatch_call w runId run);
        Settled (dispatch_call w runId run) (Raised t) ]
| reenqueue_done w run :
    ReenqueueOutcome runId (inr (Success JUndefined))
      [ Issued (RunsGet w runId); Settled (RunsGet w runId) (ReturnedRun run);
        Issued (dispatch_call w runId run);
        Settled (dispatch_call w runId run) ReturnedVoid ].

Section reenqueue_facts.
Context {Store : Type} `{!WorldOps Store} `{!ErrorHost}.
Implicit Types (s : State Store) (w : World).

Lemma reenqueueRun_outcome worldEnv runId s r s' :
  reenqueueRun worldEnv runId s = (r, s') →
  ∃ new, trace s' = trace s ++ new ∧ ReenqueueOutcome runId r new.
Proof.
  unfold reenqueueRun, try_catch, reenqueueRun_body.
  unfold mbind at 1, M_bind at 1, bind at 1.
  destruct (getWorldFromEnv _ s) as [[t|w] s1] eqn:Hworld;
    apply getWorldFromEnv_trace in Hworld.
  { intros [= <- <-]. exists []. rewrite app_nil_r. split; [done|]. constructor. }
  unfold mbind at 1, M_bind at 1, bind at 1.
  destruct (await _ _ _ s1) as [[t|run] s2] eqn:Hrun; apply await_trace in Hrun.
  { intros [= <- <-]. eexists. rewrite Hrun, Hworld. split; [reflexivity|].
    constructor. }
  cbv zeta. unfold mbind at 1, M_bind at 1, bind at 1.
  destruct (await _ _ _ s2) as [[t|[]] s3] eqn:Hq; apply await_trace in Hq.
  { intros [= <- <-]. eexists. rewrite Hq, Hrun, Hworld, <-app_assoc.
    split; [reflexivity|]. apply reenqueue_rejected. }
  unfold lift. simpl. intros [= <- <-]. eexists.
  rewrite Hq, Hrun, Hworld, <-app_assoc. split; [reflexivity|].
  apply reenqueue_done.
Qed.

(** X12. [reenqueueRun] enqueues only for a run it could resolve, and then
    once, on the queue named after the workflow with the run id and the
    deployment id of the run, the call a wake-up dispatches with; it never
    lists or creates events, and its success carries no data. *)
Theorem reenqueueRun_enqueues_resolved_run worldEnv runId s r s' new :
  reenqueueRun worldEnv runId s = (r, s') →
  trace s' = trace s ++ new →
  created_requests new = []
  ∧ (dispatch_calls new ≠ [] →
       ∃ w run,
         Settled (RunsGet w runId) (ReturnedRun run) ∈ new
         ∧ dispatch_calls new
           = [Queue w ("__wkf_workflow_" +:+ workflowName run) runId
                (deploymentId run)])
  ∧ (∀ d, r = inr (Success d) →
       d = JUndefined
       ∧ ∃ w run,
           new = [ Issued (RunsGet w runId);
                   Settled (RunsGet w runId) (ReturnedRun run);
                   Issued (dispatch_call w runId run);
                   Settled (dispatch_call w runId run) ReturnedVoid ]).
Proof.
  intros (new' & Htrace' & Hout)%reenqueueRun_outcome Htrace.
  rewrite Htrace in Htrace'. apply app_inv_head in Htrace'. subst new'.
  destruct Hout as [t|w t|w run t|w run].
  - split; [done|]. split; [done|]. intros d Hr.
    by destruct (createServerActionError_not_success _ _ _ _ Hr).
  - split; [done|]. split; [done|]. intros d Hr.
    by destruct (createServerActionError_not_success _ _ _ _ Hr).
  - split; [done|]. split.
    + intros _. exists w, run. split; [right; left|done].
    + intros d Hr. by destruct (createServerActionError_not_success _ _ _ _ Hr).
  - split; [done|]. split.
    + intros _. exists w, run. split; [right; left|done].
    + intros d [= <-]. split; [done|]. by exists w, run.
Qed.

End reenqueue_facts.

Lemma reenqueueRun_enqueues_resolved_run_witness :
  let r := (reenqueueRun [] "run_1" demo_state).1 in
  let s' := (reenqueueRun [] "run_1" demo_state).2 in
  let new :=
    [ Issued (RunsGet 0%nat "run_1");
      Settled (RunsGet 0%nat "run_1") (ReturnedRun MemoryWorld.the_run);
      Issued (Queue 0%nat "__wkf_workflow_sleeper" "run_1" "dpl_1");
      Settled (Queue 0%nat "__wkf_workflow_sleeper" "run_1" "dpl_1") ReturnedVoid ] in
  trace s' = trace demo_state ++ new
  ∧ created_requests new = []
  ∧ (dispatch_calls new ≠ [] →
       ∃ w run,
         Settled (RunsGet w "run_1") (ReturnedRun run) ∈ new
         ∧ dispatch_calls new
           = [Queue w ("__wkf_workflow_" +:+ workflowName run) "run_1"
                (deploymentId run)])
  ∧ (∀ d, r = inr (Success d) →
       d = JUndefined
       ∧ ∃ w run,
           new = [ Issued (RunsGet w "run_1");
                   Settled (RunsGet w "run_1") (ReturnedRun run);
                   Issued (dispatch_call w "run_1" run);
                   Settled (dispatch_call w "run_1" run) ReturnedVoid ]).
Proof.
  intros r s' new.
  assert (reenqueueRun [] "run_1" demo_state = (r, s')) as Hrun
    by apply surjective_pairing.
  assert (trace s' = trace demo_state ++ new) as Htrace
    by (vm_compute; reflexivity).
  exact (conj Htrace
           (reenqueueRun_enqueues_resolved_run [] "run_1" demo_state r s' new
              Hrun Htrace)).
Defined.

(** ** A World whose calls can be made to raise *)
Module FlakyWorld.

Record FlakyStore : Type := {
  fl_events : list Event;
  fl_rejected : list string;
  fl_queue_down : bool
}.

Definition conflict : Thrown :=
  {| instanceofError := true;
     thrown_message := "conflict";
     thrown_stack := None;
     thrown_toString := inr "WorkflowAPIError: conflict";
     isWorkflowAPIError := true;
     isWorkflowRunNotFoundError := false;
     thrown_status := Some 409; thrown_url := None; thrown_code := None |}.

Definition unavailable : Thrown :=
  {| instanceofError := true;
     thrown_message := "queue unavailable";
     thrown_stack := None;
     thrown_toString := inr "WorkflowAPIError: queue unavailable";
     isWorkflowAPIError := true;
     isWorkflowRunNotFoundError := false;
     thrown_status := Some 503; thrown_url := None; thrown_code := None |}.

(** [events.create] raises for the correlation ids in [fl_rejected]; the
    queue raises when it is down. *)
#[global] Instance flaky_ops : WorldOps FlakyStore := {|
  createWorld_raises := λ _, None;
  runs_get := λ _ runId st,
    if decide (runId = "run_1") then (inr MemoryWorld.the_run, st)
    else (inl MemoryWorld.run_not_found, st);
  events_list := λ _ _ limit st, (inr (take (N.to_nat limit) (fl_events st)), st);
  events_create := λ _ _ data st,
    if decide (req_correlationId data ∈ fl_rejected st) then (inl conflict, st)
    else
      (inr tt,
       {| fl_events :=
            fl_events st
            ++ [ {| eventId := "evnt_" +:+ pretty (length (fl_events st));
                    eventType := req_eventType data;
                    correlationId := Some (req_correlationId data) |} ];
          fl_rejected := fl_rejected st;
          fl_queue_down := fl_queue_down st |});
  world_queue := λ _ _ _ _ st,
    if fl_queue_down st then (inl unavailable, st) else (inr tt, st)
|}.

Definition three_waits : list Event :=
  [ MemoryWorld.wait_created "evnt_0" (Some "A");
    MemoryWorld.wait_created "evnt_1" (Some "B");
    MemoryWorld.wait_created "evnt_2" (Some "C") ].

(** Synthesizing B is rejected. *)
Definition rejecting_B : State FlakyStore :=
  mkState ∅ ∅ 0
    {| fl_events := three_waits; fl_rejected := ["B"]; fl_queue_down := false |} [].

(** The queue is down. *)
Definition queue_down : State FlakyStore :=
  mkState ∅ ∅ 0
    {| fl_events := three_waits; fl_rejected := []; fl_queue_down := true |} [].

End FlakyWorld.

Lemma wakeUpRun_failed_lookup_writes_nothing_witness :
  let r := (wakeUpRun [] "run_2" None demo_state).1 in
  let s' := (wakeUpRun [] "run_2" None demo_state).2 in
  let new := [ Issued (RunsGet 0%nat "run_2");
               Settled (RunsGet 0%nat "run_2") (Raised MemoryWorld.run_not_found) ] in
  trace s' = trace demo_state ++ new
  ∧ r = createServerActionError MemoryWorld.run_not_found "wakeUpRun"
          (Some (wakeUpRun_params "run_2" None))
  ∧ created_requests new = [] ∧ dispatch_calls new = [].
Proof.
  intros r s' new.
  assert (wakeUpRun [] "run_2" None demo_state = (r, s')) as Hrun
    by apply surjective_pairing.
  assert (trace s' = trace demo_state ++ new) as Htrace
    by (vm_compute; reflexivity).
  refine (conj Htrace
            (wakeUpRun_failed_lookup_writes_nothing
               [] "run_2" None demo_state r s' new 0%nat MemoryWorld.run_not_found
               Hrun Htrace _)).
  left. right. left.
Defined.

Lemma wakeUpRun_failed_synthesis_keeps_earlier_witness :
  let r := (wakeUpRun [] "run_1" None FlakyWorld.rejecting_B).1 in
  let s' := (wakeUpRun [] "run_1" None FlakyWorld.rejecting_B).2 in
  let rq := wait_completed_request "B" in
  let new :=
    lookup_phase 0%nat "run_1" MemoryWorld.the_run FlakyWorld.three_waits
    ++ [ Issued (EventsCreate 0%nat "run_1" (wait_completed_request "A"));
         Settled (EventsCreate 0%nat "run_1" (wait_completed_request "A"))
           ReturnedVoid;
         Issued (EventsCreate 0%nat "run_1" rq);
         Settled (EventsCreate 0%nat "run_1" rq) (Raised FlakyWorld.conflict) ] in
  trace s' = trace FlakyWorld.rejecting_B ++ new
  ∧ r = createServerActionError FlakyWorld.conflict "wakeUpRun"
          (Some (wakeUpRun_params "run_1" None))
  ∧ dispatch_calls new = []
  ∧ ∃ run data before e after c,
      pending data None = before ++ e :: after
      ∧ wakeable_id e = Some c
      ∧ rq = wait_completed_request c
      ∧ new = lookup_phase 0%nat "run_1" run data
              ++ synthesis_phase 0%nat "run_1" before
              ++ [ Issued (EventsCreate 0%nat "run_1" rq);
                   Settled (EventsCreate 0%nat "run_1" rq)
                     (Raised FlakyWorld.conflict) ]
      ∧ created_requests new
        = wait_completed_request <$> (omap wakeable_id before ++ [c]).
Proof.
  intros r s' rq new.
  assert (wakeUpRun [] "run_1" None FlakyWorld.rejecting_B = (r, s')) as Hrun
    by apply surjective_pairing.
  assert (trace s' = trace FlakyWorld.rejecting_B ++ new) as Htrace
    by (vm_compute; reflexivity).
  refine (conj Htrace
            (wakeUpRun_failed_synthesis_keeps_earlier
               [] "run_1" None FlakyWorld.rejecting_B r s' new 0%nat rq
               FlakyWorld.conflict Hrun Htrace _)).
  apply elem_of_app. right. do 3 right. left.
Defined.

Lemma wakeUpRun_failed_dispatch_after_synthesis_witness :
  let r := (wakeUpRun [] "run_1" None FlakyWorld.queue_down).1 in
  let s' := (wakeUpRun [] "run_1" None FlakyWorld.queue_down).2 in
  let c := Queue 0%nat "__wkf_workflow_sleeper" "run_1" "dpl_1" in
  let new :=
    lookup_phase 0%nat "run_1" MemoryWorld.the_run FlakyWorld.three_waits
    ++ synthesis_phase 0%nat "run_1" FlakyWorld.three_waits
    ++ [Issued c; Settled c (Raised FlakyWorld.unavailable)] in
  trace s' = trace FlakyWorld.queue_down ++ new
  ∧ r = createServerActionError FlakyWorld.unavailable "wakeUpRun"
          (Some (wakeUpRun_params "run_1" None))
  ∧ ∃ w run data,
      pending data None ≠ []
      ∧ c = dispatch_call w "run_1" run
      ∧ new = lookup_phase w "run_1" run data
              ++ synthesis_phase w "run_1" (pending data None)
              ++ [Issued c; Settled c (Raised FlakyWorld.unavailable)]
      ∧ created_requests new
        = wait_completed_request <$> omap wakeable_id (pending data None).
Proof.
  intros r s' c new.
  assert (wakeUpRun [] "run_1" None FlakyWorld.queue_down = (r, s')) as Hrun
    by apply surjective_pairing.
  assert (trace s' = trace FlakyWorld.queue_down ++ new) as Htrace
    by (vm_compute; reflexivity).
  refine (conj Htrace
            (wakeUpRun_failed_dispatch_after_synthesis
               [] "run_1" None FlakyWorld.queue_down r s' new c
               FlakyWorld.unavailable Hrun Htrace _ I)).
  apply elem_of_app. right. apply elem_of_app. right. right. left.
Defined.

(** ** A World whose store raises a value without string conversion *)
Module RejectingWorld.

#[global] Instance rejecting_ops : WorldOps unit := {|
  createWorld_raises := λ _, None;
  runs_get := λ _ _ st, (inl unconvertible, st);
  events_list := λ _ _ _ st, (inr [], st);
  events_create := λ _ _ _ st, (inr tt, st);
  world_queue := λ _ _ _ _ st, (inr tt, st)
|}.

Definition fresh : State unit := mkState ∅ ∅ 0 tt [].

End RejectingWorld.

(** The classifier returns a failure for an [Error] and for a value with a
    string conversion, and raises otherwise. *)
Lemma createServerActionError_cases `{ErrorHost} error op requestParams :
  (instanceofError error = true ∨ (∃ raw, thrown_toString error = inr raw) →
   ∃ e, createServerActionError error op requestParams = inr (Failure e))
  ∧ (∀ t, instanceofError error = false → thrown_toString error = inl t →
       createServerActionError error op requestParams = inl t).
Proof.
  unfold createServerActionError, toError. split.
  - intros [-> |[raw Hraw]]; [by eexists|].
    destruct (instanceofError error); [by eexists|]. rewrite Hraw. by eexists.
  - intros t -> ->. done.
Qed.

(** When the store raises a value that is not an [Error] and has no string
    conversion, the wake-up and the re-enqueue raise instead of returning
    a failure. *)
Example wakeUpRun_rejects :
  (wakeUpRun (H0 := MemoryWorld.mem_host) [] "run_1" None RejectingWorld.fresh).1
  = inl TypeError_conversion
  ∧ (reenqueueRun (H0 := MemoryWorld.mem_host) [] "run_1" RejectingWorld.fresh).1
    = inl TypeError_conversion
  ∧ trace (wakeUpRun (H0 := MemoryWorld.mem_host) [] "run_1" None
             RejectingWorld.fresh).2
    = [ Issued (RunsGet 0%nat "run_1");
        Settled (RunsGet 0%nat "run_1") (Raised unconvertible) ].
Proof. vm_compute. done. Qed.

(** ** More on the envelope and on the cache *)

(** X13. Normalizing is idempotent: what [toJSONCompatible] returns is
    returned unchanged by a second pass, and for an object or array it is
    plain JSON data. *)
Theorem toJSONCompatible_idempotent (v d : JsValue) :
  toJSONCompatible v = inr d →
  toJSONCompatible d = inr d
  ∧ (truthy_object v = true → serializable d = true).
Proof.
  unfold toJSONCompatible at 1. destruct (truthy_object v) eqn:Hobj.
  - unfold JSON_roundtrip.
    destruct (SerializeJSONProperty true "" v) as [t|[d'|]] eqn:Hs; try done.
    intros [= <-]. apply SerializeJSONProperty_result in Hs.
    split; [|done]. unfold toJSONCompatible, JSON_roundtrip.
    rewrite (SerializeJSONProperty_serializable d' _ _ Hs).
    by destruct (truthy_object d').
  - intros [= <-]. split; [|done]. unfold toJSONCompatible. by rewrite Hobj.
Qed.

Lemma toJSONCompatible_idempotent_witness :
  toJSONCompatible (JObject [("input", JNumber 1)]) = inr (JObject [("input", JNumber 1)])
  ∧ serializable (JObject [("input", JNumber 1)]) = true.
Proof.
  destruct (toJSONCompatible_idempotent
              (JObject [("input", JNumber 1); ("onDone", JFunction (λ _, inr JNull))])
              (JObject [("input", JNumber 1)]) eq_refl) as [H1 H2].
  exact (conj H1 (H2 eq_refl)).
Defined.

(** What the settings loop writes: a non-empty value of the record
    replaces the process setting, every other key keeps its value. *)
Lemma applyEnv_lookup (entries : list (string * option string))
    (env : ProcessEnv) (k : string) :
  NoDup entries.*1 →
  applyEnv entries env !! k
  = match JsString.truthy_value (default None (Js.get_own entries k)) with
    | Some value => Some value
    | None => env !! k
    end.
Proof.
  unfold applyEnv. revert env.
  induction entries as [|[k' v'] entries IH]; intros env; simpl; [done|].
  rewrite NoDup_cons. intros [Hk' Hnd]. rewrite (IH _ Hnd).
  case_decide as Hk.
  - subst k'. apply get_own_None in Hk'. rewrite Hk'. simpl.
    destruct v' as [value|]; simpl; [|done].
    case_decide; [done|]. by rewrite lookup_insert_eq.
  - destruct (JsString.truthy_value _); [done|].
    destruct v' as [value|]; [|done].
    case_decide; [done|]. by rewrite lookup_insert_ne.
Qed.

Lemma Object_entries_keys (e : EnvMap) : (Js.Object_entries e).*1 = Js.OwnPropertyKeys e.
Proof.
  unfold Js.Object_entries. rewrite <-list_fmap_compose. apply list_fmap_id.
Qed.

Lemma OwnPropertyKeys_NoDup (e : EnvMap) : Js.wf e → NoDup (Js.OwnPropertyKeys e).
Proof.
  intros Hwf. by rewrite OwnPropertyKeys_key_order, key_order_Permutation.
Qed.

Lemma Object_entries_read (e : EnvMap) k :
  default None (Js.get_own (Js.Object_entries e) k) = Js.read e k.
Proof.
  destruct (decide (k ∈ Js.OwnPropertyKeys e)) as [Hin|Hnot].
  - by apply (read_computed (Js.read e)).
  - assert (Js.get_own (Js.Object_entries e) k = None) as ->.
    { apply get_own_None. by rewrite Object_entries_keys. }
    rewrite OwnPropertyKeys_key_order, key_order_Permutation in Hnot.
    apply get_own_None in Hnot. unfold Js.read. by rewrite Hnot.
Qed.

(** The process settings after the loop over the effective record. *)
Lemma applyEnv_effective (e : EnvMap) (env : ProcessEnv) k :
  Js.wf e →
  applyEnv (Js.Object_entries e) env !! k
  = match JsString.truthy_value (Js.read e k) with
    | Some value => Some value
    | None => env !! k
    end.
Proof.
  intros Hwf. rewrite applyEnv_lookup.
  - by rewrite Object_entries_read.
  - rewrite Object_entries_keys. by apply OwnPropertyKeys_NoDup.
Qed.

Lemma applyEnv_serverEnvMap (env : ProcessEnv) :
  applyEnv (Js.Object_entries (buildEnvMapFromProcessEnv env)) env = env.
Proof.
  apply map_eq. intros k.
  rewrite applyEnv_effective by apply buildEnvMapFromProcessEnv_wf.
  destruct (JsString.truthy_value _) as [value|] eqn:Hv; [|done].
  apply truthy_value_Some in Hv as [Hread _].
  rewrite buildEnvMapFromProcessEnv_alt in Hread.
  destruct (decide (k ∈ server_setting_names)) as [Hin|Hnot].
  - by rewrite (read_computed (λ k, env !! k)) in Hread.
  - unfold Js.read in Hread.
    assert (Js.get_own ((λ k, (k, env !! k)) <$> server_setting_names) k = None)
      as Hnone.
    { apply get_own_None.
      by change (((λ k, (k, env !! k)) <$> server_setting_names).*1)
           with server_setting_names. }
    by rewrite Hnone in Hread.
Qed.

(** Strings that the environment of a process holds as they are: a C
    string has no NUL character, and the name of a variable is a C string
    that is not empty and has no [=]. *)
Definition is_c_string (s : string) : bool := negb (includes s (String "000" "")).

Definition is_env_name (k : string) : bool :=
  negb (bool_decide (k = "")) && is_c_string k && negb (includes k "=").

(** Every setting that the loop writes (a non-empty value) has such a name
    and value. *)
Definition env_settable (e : EnvMap) : bool :=
  forallb
    (λ p, match p.2 with
          | Some value =>
              bool_decide (value = "") || (is_env_name p.1 && is_c_string value)
          | None => true
          end)
    (Js.Object_entries e).

Section cache_more.
Context {Store : Type} `{!WorldOps Store}.
Implicit Types (s : State Store) (envMap : EnvMap) (w : World).

(** The three ways a call of [getWorldFromEnv] ends. *)
Lemma getWorldFromEnv_cases envMap s :
  let effective := effectiveEnvMap (process_env s) envMap in
  let applied := applyEnv (Js.Object_entries effective) (process_env s) in
  match worldCache s !! fingerprint envMap s with
  | Some w => getWorldFromEnv envMap s = (inr w, s)
  | None =>
      match createWorld_raises applied with
      | Some t =>
          getWorldFromEnv envMap s
          = (inl t, mkState applied (worldCache s) (constructed s) (store s) (trace s))
      | None =>
          getWorldFromEnv envMap s
          = (inr (constructed s),
             mkState applied
               (<[fingerprint envMap s := constructed s]> (worldCache s))
               (S (constructed s)) (store s) (trace s))
      end
  end.
Proof.
  cbv zeta. unfold fingerprint, cacheKey.
  unfold getWorldFromEnv, mbind, M_bind, bind, gets, modify, createWorld.
  generalize (cacheKeyOf (effectiveEnvMap (process_env s) envMap)).
  generalize (Js.Object_entries (effectiveEnvMap (process_env s) envMap)).
  intros entries key.
  destruct (worldCache s !! key); [done|].
  unfold set_worldCache, set_constructed, set_process_env.
  cbn [process_env worldCache constructed store trace].
  by destruct (createWorld_raises _).
Qed.

(** X14. A failed construction is never cached: the cache and the number of
    constructed Worlds are as before, so the next call constructs again;
    the settings of the effective record have been written to the process
    environment all the same.  The statement is for settings that the
    environment of a process holds as they are (names without NUL or [=],
    values without NUL): the host cuts any other value short. *)
Theorem getWorldFromEnv_failure_not_cached envMap s t s' :
  env_settable (effectiveEnvMap (process_env s) envMap) = true →
  getWorldFromEnv envMap s = (inl t, s') →
  worldCache s' = worldCache s
  ∧ constructed s' = constructed s
  ∧ worldCache s !! fingerprint envMap s = None
  ∧ process_env s'
    = applyEnv (Js.Object_entries (effectiveEnvMap (process_env s) envMap))
        (process_env s)
  ∧ createWorld_raises (process_env s') = Some t.
Proof.
  intros _.
  pose proof (getWorldFromEnv_cases envMap s) as Hcases. cbv zeta in Hcases.
  destruct (worldCache s !! fingerprint envMap s) as [w|]; [by rewrite Hcases|].
  destruct (createWorld_raises _) as [t'|] eqn:Hraise; rewrite Hcases; [|done].
  intros Heq. pose proof (f_equal fst Heq) as Hfst.
  pose proof (f_equal snd Heq) as Hsnd. cbn [fst snd] in Hfst, Hsnd.
  injection Hfst as <-. rewrite <-Hsnd.
  cbn [process_env worldCache constructed].
  repeat split; [reflexivity..|exact Hraise].
Qed.

(** Once a process-wide setting is in place, a call leaves the process
    environment as it is. *)
Lemma getWorldFromEnv_env_stable envMap s r s' :
  hasServerConfig (process_env s) = true →
  getWorldFromEnv envMap s = (r, s') →
  process_env s' = process_env s.
Proof.
  intros Hsome. pose proof (getWorldFromEnv_cases envMap s) as Hcases.
  cbv zeta in Hcases. unfold effectiveEnvMap in Hcases. rewrite Hsome in Hcases.
  rewrite applyEnv_serverEnvMap in Hcases.
  destruct (worldCache s !! fingerprint envMap s) as [w|];
    [|destruct (createWorld_raises _)]; rewrite Hcases; by intros [= <- <-].
Qed.

Lemma requests_env_stable (l : list EnvMap) s :
  hasServerConfig (process_env s) = true →
  process_env (requests l s) = process_env s.
Proof.
  revert s. induction l as [|envMap l IH]; intros s Hsome; cbn [requests]; [done|].
  destruct (getWorldFromEnv envMap s) as [r s'] eqn:Hcall. cbn [snd].
  pose proof (getWorldFromEnv_env_stable _ _ _ _ Hsome Hcall) as Henv.
  rewrite IH; [done|]. by rewrite Henv.
Qed.

(** X15. With process-wide settings in place there is one World for the
    whole process: once a call has returned a World, every later call
    returns that same World, whatever mapping it is given and whatever
    calls came in between, and changes nothing. *)
Theorem getWorldFromEnv_one_world_per_process
    s envMap1 w1 s1 (between : list EnvMap) envMap2 :
  cache_ok s →
  hasServerConfig (process_env s) = true →
  getWorldFromEnv envMap1 s = (inr w1, s1) →
  getWorldFromEnv envMap2 (requests between s1)
  = (inr w1, requests between s1).
Proof.
  intros Hok Hsome Hcall1.
  pose proof (getWorldFromEnv_env_stable _ _ _ _ Hsome Hcall1) as Henv1.
  assert (hasServerConfig (process_env s1) = true) as Hsome1 by by rewrite Henv1.
  pose proof (requests_env_stable between s1 Hsome1) as Henv2.
  destruct (getWorldFromEnv_step _ _ _ _ Hok Hcall1) as (Hok1 & _ & Hw1).
  specialize (Hw1 w1 eq_refl).
  destruct (requests_step between s1 Hok1) as [_ Hmono].
  apply Hmono in Hw1. apply getWorldFromEnv_hit.
  unfold fingerprint, cacheKey, effectiveEnvMap in *.
  rewrite Henv2, Henv1. rewrite Hsome in *. done.
Qed.

(** X16. The first caller-supplied configuration sticks.  When no
    process-wide setting exists and a call misses the cache with a mapping
    that gives one of the nine settings a non-empty value, the value is
    written to the process environment; from then on the process-wide
    settings win and every later call ignores the mapping it is given.
    The statement is for a mapping whose settings the environment of a
    process holds as they are (names without NUL or [=], values without
    NUL): a value that starts with NUL would be stored as the empty
    string. *)
Theorem getWorldFromEnv_first_config_sticks envMap s r s1 k v :
  Js.wf envMap → env_settable envMap = true →
  hasServerConfig (process_env s) = false →
  worldCache s !! fingerprint envMap s = None →
  k ∈ server_setting_names → Js.read envMap k = Some v → v ≠ "" →
  getWorldFromEnv envMap s = (r, s1) →
  process_env s1 !! k = Some v
  ∧ hasServerConfig (process_env s1) = true
  ∧ ∀ envMap' envMap'', getWorldFromEnv envMap' s1 = getWorldFromEnv envMap'' s1.
Proof.
  intros Hwf _ Hnone Hmiss Hk Hread Hv Hcall.
  pose proof (getWorldFromEnv_cases envMap s) as Hcases. cbv zeta in Hcases.
  rewrite Hmiss in Hcases. unfold effectiveEnvMap in Hcases.
  rewrite Hnone in Hcases.
  assert (process_env s1 = applyEnv (Js.Object_entries envMap) (process_env s))
    as Henv.
  { destruct (createWorld_raises _); rewrite Hcases in Hcall;
      by injection Hcall as _ <-. }
  assert (process_env s1 !! k = Some v) as Hset.
  { rewrite Henv, applyEnv_effective by done. rewrite Hread.
    by rewrite truthy_value_nonempty. }
  assert (hasServerConfig (process_env s1) = true) as Hsome.
  { apply hasServerConfig_true. by exists k, v. }
  split; [done|]. split; [done|]. intros envMap' envMap''.
  by apply getWorldFromEnv_ignores_envMap.
Qed.

End cache_more.

(** ** A World whose construction raises for one target *)
Module BrokenWorld.

Definition module_not_found : Thrown :=
  {| instanceofError := true;
     thrown_message := "Cannot find module 'no-such-world'";
     thrown_stack := None;
     thrown_toString := inr "Error: Cannot find module 'no-such-world'";
     isWorkflowAPIError := false;
     isWorkflowRunNotFoundError := false;
     thrown_status := None; thrown_url := None; thrown_code := None |}.

#[global] Instance broken_ops : WorldOps unit := {|
  createWorld_raises := λ env,
    if decide (env !! "WORKFLOW_TARGET_WORLD" = Some "no-such-world")
    then Some module_not_found else None;
  runs_get := λ _ _ st, (inl MemoryWorld.run_not_found, st);
  events_list := λ _ _ _ st, (inr [], st);
  events_create := λ _ _ _ st, (inr tt, st);
  world_queue := λ _ _ _ _ st, (inr tt, st)
|}.

Definition fresh : State unit := mkState ∅ ∅ 0 tt [].

End BrokenWorld.

Lemma getWorldFromEnv_failure_not_cached_witness :
  let envMap : EnvMap := [("WORKFLOW_TARGET_WORLD", Some "no-such-world")] in
  let s' := (getWorldFromEnv envMap BrokenWorld.fresh).2 in
  getWorldFromEnv envMap BrokenWorld.fresh = (inl BrokenWorld.module_not_found, s')
  ∧ worldCache s' = worldCache BrokenWorld.fresh
  ∧ constructed s' = constructed BrokenWorld.fresh
  ∧ worldCache BrokenWorld.fresh !! fingerprint envMap BrokenWorld.fresh = None
  ∧ process_env s'
    = applyEnv
        (Js.Object_entries
           (effectiveEnvMap (process_env BrokenWorld.fresh) envMap))
        (process_env BrokenWorld.fresh)
  ∧ createWorld_raises (process_env s') = Some BrokenWorld.module_not_found.
Proof.
  intros envMap s'.
  assert (getWorldFromEnv envMap BrokenWorld.fresh
          = (inl BrokenWorld.module_not_found, s')) as Hcall
    by (vm_compute; reflexivity).
  assert (env_settable (effectiveEnvMap (process_env BrokenWorld.fresh) envMap)
          = true) as Hsettable
    by (vm_compute; reflexivity).
  exact (conj Hcall
           (getWorldFromEnv_failure_not_cached envMap _ _ _ Hsettable Hcall)).
Defined.

Definition configured_state : State MemoryWorld.MemStore :=
  mkState {[ "WORKFLOW_TARGET_WORLD" := "local" ]} ∅ 0 demo_events [].

Lemma getWorldFromEnv_one_world_per_process_witness :
  let s1 := (getWorldFromEnv [] configured_state).2 in
  let between : list EnvMap := [[("PORT", Some "3000")]] in
  getWorldFromEnv [("WORKFLOW_TARGET_WORLD", Some "vercel")] (requests between s1)
  = (inr 0%nat, requests between s1).
Proof.
  intros s1 between.
  apply (getWorldFromEnv_one_world_per_process configured_state [] 0%nat s1).
  - apply cache_ok_empty.
  - vm_compute. reflexivity.
  - vm_compute. reflexivity.
Defined.

Lemma getWorldFromEnv_first_config_sticks_witness :
  let envMap : EnvMap := [("WORKFLOW_TARGET_WORLD", Some "local")] in
  let s1 := (getWorldFromEnv envMap demo_state).2 in
  process_env s1 !! "WORKFLOW_TARGET_WORLD" = Some "local"
  ∧ hasServerConfig (process_env s1) = true
  ∧ ∀ envMap' envMap'', getWorldFromEnv envMap' s1 = getWorldFromEnv envMap'' s1.
Proof.
  intros envMap s1.
  apply (getWorldFromEnv_first_config_sticks envMap demo_state
           (getWorldFromEnv envMap demo_state).1 s1 "WORKFLOW_TARGET_WORLD" "local").
  - unfold Js.wf. compute_done.
  - vm_compute. reflexivity.
  - vm_compute. reflexivity.
  - vm_compute. reflexivity.
  - compute_done.
  - reflexivity.
  - discriminate.
  - apply surjective_pairing.
Defined.

(** ** The URL builder of the client ([buildUrlWithConfig]) *)
Module UrlSearchParams.

(** The list of name-value pairs of a [URLSearchParams] object. *)
Definition t : Type := list (string * string).

(** [params.set(name, value)]: the first pair named [name] gets the value
    and the other pairs with that name are removed; without such a pair a
    new one is appended. *)
Fixpoint set (params : t) (name value : string) : t :=
  match params with
  | [] => [(name, value)]
  | (n, v) :: rest =>
      if decide (n = name) then
        (name, value) :: filter (λ p, p.1 ≠ name) rest
      else (n, v) :: set rest name value
  end.

(** UTF-8 bytes of a code unit below 256. *)
Definition utf8 (c : ascii) : list N :=
  let n := N_of_ascii c in
  if decide (n < 128)%N then [n] else [(192 + n / 64)%N; (128 + n mod 64)%N].

Definition hex_upper (n : N) : ascii :=
  match n with
  | 0 => "0" | 1 => "1" | 2 => "2" | 3 => "3" | 4 => "4" | 5 => "5"
  | 6 => "6" | 7 => "7" | 8 => "8" | 9 => "9" | 10 => "A" | 11 => "B"
  | 12 => "C" | 13 => "D" | 14 => "E" | _ => "F"
  end%char%N.

(** Bytes the urlencoded serializer leaves as they are: ASCII letters and
    digits and the four marks of the set. *)
Definition unreserved (b : N) : Prop :=
  (48 ≤ b ≤ 57 ∨ 65 ≤ b ≤ 90 ∨ 97 ≤ b ≤ 122
   ∨ b = 42 ∨ b = 45 ∨ b = 46 ∨ b = 95)%N.

#[global] Instance unreserved_dec b : Decision (unreserved b).
Proof. unfold unreserved. apply _. Defined.

Definition encode_byte (b : N) : string :=
  if decide (b = 32)%N then "+"
  else if decide (unreserved b) then String (ascii_of_N b) ""
  else String "%" (String (hex_upper (b / 16)) (String (hex_upper (b mod 16)) "")).

Fixpoint encode_bytes (bs : list N) : string :=
  match bs with
  | [] => ""
  | b :: bs' => encode_byte b +:+ encode_bytes bs'
  end.

(** The urlencoded serialization of a string. *)
Fixpoint encode (s : string) : string :=
  match s with
  | EmptyString => ""
  | String c s' => encode_bytes (utf8 c) +:+ encode s'
  end.

(** [params.toString()] *)
Definition toString (params : t) : string :=
  Js.join "&" ((λ p, encode p.1 +:+ "=" +:+ encode p.2) <$> params).

End UrlSearchParams.

Definition buildUrlWithConfig (path : string)
    (additionalParams : option (Js.props (option string))) : string :=
  let params :=
    match additionalParams with
    | Some additionalParams =>
        fold_left
          (λ params e,
             match e.2 with
             | Some value =>
                 if decide (value = "") then params
                 else UrlSearchParams.set params e.1 value
             | None => params
             end)
          (Js.Object_entries additionalParams) []
    | None => []
    end in
  let search := UrlSearchParams.toString params in
  if decide (search = "") then path else path +:+ "?" +:+ search.

Example buildUrlWithConfig_example :
  buildUrlWithConfig "/run/wrun_1"
    (Some [ ("sidebar", Some "step");
            ("selectedId", Some ("a b&c=d/" +:+ String "233" ""));
            ("hookId", Some ""); ("eventId", None) ])
  = "/run/wrun_1?sidebar=step&selectedId=a+b%26c%3Dd%2F%C3%A9".
Proof. vm_compute. reflexivity. Qed.

(** *** Characters of a string *)

Fixpoint string_Forall (P : ascii → Prop) (s : string) : Prop :=
  match s with
  | EmptyString => True
  | String c s' => P c ∧ string_Forall P s'
  end.

Fixpoint count_char (c : ascii) (s : string) : nat :=
  match s with
  | EmptyString => 0
  | String c' s' => (if decide (c' = c) then 1 else 0) + count_char c s'
  end.

Lemma string_Forall_app P s1 s2 :
  string_Forall P (s1 +:+ s2) ↔ string_Forall P s1 ∧ string_Forall P s2.
Proof.
  induction s1 as [|c s1 IH]; simpl; [tauto|].
  change (String.append s1 s2) with (s1 +:+ s2). rewrite IH. tauto.
Qed.

Lemma string_Forall_impl (P Q : ascii → Prop) s :
  (∀ c, P c → Q c) → string_Forall P s → string_Forall Q s.
Proof. intros HPQ. induction s as [|c s IH]; simpl; [done|]. intros [? ?]. auto. Qed.

Lemma count_char_app c s1 s2 :
  count_char c (s1 +:+ s2) = (count_char c s1 + count_char c s2)%nat.
Proof.
  induction s1 as [|c' s1 IH]; simpl; [done|].
  change (String.append s1 s2) with (s1 +:+ s2). rewrite IH. lia.
Qed.

Lemma count_char_absent (P : ascii → Prop) c s :
  ¬ P c → string_Forall P s → count_char c s = 0%nat.
Proof.
  intros Hc. induction s as [|c' s IH]; simpl; [done|]. intros [Hc' Hs].
  rewrite decide_False by (by intros ->). by rewrite IH.
Qed.

Lemma append_length s1 s2 :
  String.length (s1 +:+ s2) = (String.length s1 + String.length s2)%nat.
Proof.
  induction s1 as [|c s1 IH]; simpl; [done|].
  change (String.append s1 s2) with (s1 +:+ s2). by rewrite IH.
Qed.

(** *** The serialized query *)

(** Characters the serializer writes for a name or a value. *)
Definition encoded_char (c : ascii) : Prop :=
  UrlSearchParams.unreserved (N_of_ascii c) ∨ c = "+"%char ∨ c = "%"%char.

Lemma hex_upper_unreserved n :
  UrlSearchParams.unreserved (N_of_ascii (UrlSearchParams.hex_upper n)).
Proof.
  unfold UrlSearchParams.hex_upper.
  repeat case_match; unfold UrlSearchParams.unreserved; simpl; lia.
Qed.

Lemma encode_byte_chars b :
  (b < 256)%N → string_Forall encoded_char (UrlSearchParams.encode_byte b).
Proof.
  intros Hb. unfold UrlSearchParams.encode_byte, encoded_char.
  repeat case_decide; simpl.
  - tauto.
  - split; [|done]. left. by rewrite N_ascii_embedding.
  - repeat split; auto using hex_upper_unreserved.
Qed.

Lemma encode_chars s : string_Forall encoded_char (UrlSearchParams.encode s).
Proof.
  induction s as [|c s IH]; simpl; [done|].
  apply string_Forall_app. split; [|done].
  pose proof (N_ascii_bounded c) as Hc.
  unfold UrlSearchParams.utf8. case_decide; simpl.
  - rewrite string_Forall_app. split; [|done]. apply encode_byte_chars. lia.
  - rewrite !string_Forall_app. repeat split.
    + apply encode_byte_chars.
      assert (N_of_ascii c / 64 < 4)%N by (apply N.Div0.div_lt_upper_bound; lia).
      lia.
    + apply encode_byte_chars.
      assert (N_of_ascii c mod 64 < 64)%N by (apply N.mod_lt; lia). lia.
Qed.

(** Characters of a serialized query: those of names and values, and the
    two separators. *)
Definition query_char (c : ascii) : Prop :=
  encoded_char c ∨ c = "="%char ∨ c = "&"%char.

Lemma encoded_char_not_separator c :
  encoded_char c → c ≠ "="%char ∧ c ≠ "&"%char.
Proof.
  unfold encoded_char, UrlSearchParams.unreserved.
  intros [Hu|[->| ->]]; [|done..].
  split; intros ->; simpl in Hu; lia.
Qed.

Lemma pair_chars (p : string * string) :
  string_Forall query_char
    (UrlSearchParams.encode p.1 +:+ "=" +:+ UrlSearchParams.encode p.2)
  ∧ count_char "=" (UrlSearchParams.encode p.1 +:+ "=" +:+ UrlSearchParams.encode p.2)
    = 1%nat
  ∧ count_char "&" (UrlSearchParams.encode p.1 +:+ "=" +:+ UrlSearchParams.encode p.2)
    = 0%nat.
Proof.
  assert (∀ s, string_Forall query_char (UrlSearchParams.encode s)) as Hq.
  { intros s. eapply string_Forall_impl; [|apply encode_chars]. by left. }
  assert (∀ s, count_char "=" (UrlSearchParams.encode s) = 0%nat) as Heq.
  { intros s. apply (count_char_absent encoded_char); [|apply encode_chars].
    intros Hc. by destruct (encoded_char_not_separator _ Hc). }
  assert (∀ s, count_char "&" (UrlSearchParams.encode s) = 0%nat) as Hamp.
  { intros s. apply (count_char_absent encoded_char); [|apply encode_chars].
    intros Hc. by destruct (encoded_char_not_separator _ Hc). }
  split; [|split].
  - rewrite !string_Forall_app. repeat split; try apply Hq.
    right. by left.
  - rewrite !count_char_app, !Heq. done.
  - rewrite !count_char_app, !Hamp. done.
Qed.

Lemma toString_chars (params : UrlSearchParams.t) :
  string_Forall query_char (UrlSearchParams.toString params)
  ∧ count_char "=" (UrlSearchParams.toString params) = length params
  ∧ count_char "&" (UrlSearchParams.toString params) = (length params - 1)%nat
  ∧ (UrlSearchParams.toString params = "" ↔ params = []).
Proof.
  unfold UrlSearchParams.toString.
  induction params as [|p params IH]; [done|].
  destruct (pair_chars p) as (Hq & Heq & Hamp).
  destruct params as [|p' params].
  { simpl. repeat split; try done.
    intros Hempty. rewrite Hempty in Heq. done. }
  destruct IH as (IHq & IHeq & IHamp & _).
  change (Js.join "&" (_ <$> p :: p' :: params))
    with ((UrlSearchParams.encode p.1 +:+ "=" +:+ UrlSearchParams.encode p.2)
          +:+ "&" +:+ Js.join "&"
                ((λ p, UrlSearchParams.encode p.1 +:+ "=" +:+ UrlSearchParams.encode p.2)
                   <$> p' :: params)).
  split; [|split; [|split]].
  - apply string_Forall_app. split; [done|].
    apply string_Forall_app. split; [|done].
    split; [|done]. right. by right.
  - rewrite count_char_app, Heq, count_char_app, IHeq. simpl. done.
  - rewrite count_char_app, Hamp, count_char_app, IHamp. simpl. lia.
  - split; [|done]. intros Hempty.
    pose proof (f_equal (count_char "=") Hempty) as Hcount.
    rewrite count_char_app, Heq in Hcount. done.
Qed.

(** *** The parameters of the built URL *)

(** The pairs the URL builder keeps: the own keys of the object in
    enumeration order, each with its value when that is a non-empty
    string. *)
Definition keptParams (additionalParams : Js.props (option string))
  : UrlSearchParams.t :=
  omap (λ k, (λ v, (k, v)) <$> JsString.truthy_value (Js.read additionalParams k))
    (Js.Object_keys additionalParams).

Lemma set_fresh (params : UrlSearchParams.t) name value :
  name ∉ params.*1 → UrlSearchParams.set params name value = params ++ [(name, value)].
Proof.
  induction params as [|[n v] params IH]; simpl; [done|].
  rewrite not_elem_of_cons. intros [Hne Hnot].
  rewrite decide_False by done. by rewrite IH.
Qed.

Lemma fold_set_NoDup (f : string → option string) (ks : list string)
    (acc : UrlSearchParams.t) :
  NoDup ks → (∀ k, k ∈ ks → k ∉ acc.*1) →
  fold_left
    (λ (params : UrlSearchParams.t) (e : string * option string),
       match e.2 with
       | Some value =>
           if decide (value = "") then params
           else UrlSearchParams.set params e.1 value
       | None => params
       end)
    ((λ k, (k, f k)) <$> ks) acc
  = acc ++ omap (λ k, (λ v, (k, v)) <$> JsString.truthy_value (f k)) ks.
Proof.
  revert acc. induction ks as [|k ks IH]; intros acc Hnd Hfresh.
  { simpl. by rewrite app_nil_r. }
  apply NoDup_cons in Hnd as [Hk Hnd].
  rewrite fmap_cons. cbn [fold_left fst snd]. csimpl.
  unfold JsString.truthy_value at 1.
  destruct (f k) as [value|]; [destruct (decide (value = ""))|].
  - csimpl. apply IH; [done|]. intros k' Hk'. apply Hfresh. by right.
  - csimpl. rewrite set_fresh by (apply Hfresh; left).
    rewrite IH; [by rewrite <-app_assoc|done|].
    intros k' Hk'. rewrite fmap_app, elem_of_app. intros [Hin|Hin].
    + by apply (Hfresh k'); [right|].
    + apply list_elem_of_singleton in Hin. simpl in Hin. by subst.
  - csimpl. apply IH; [done|]. intros k' Hk'. apply Hfresh. by right.
Qed.

Lemma buildUrlWithConfig_kept path (additionalParams : Js.props (option string)) :
  Js.wf additionalParams →
  buildUrlWithConfig path (Some additionalParams)
  = if decide (keptParams additionalParams = []) then path
    else path +:+ "?" +:+ UrlSearchParams.toString (keptParams additionalParams).
Proof.
  intros Hwf. unfold buildUrlWithConfig, Js.Object_entries.
  rewrite (fold_set_NoDup (Js.read additionalParams));
    [|by apply OwnPropertyKeys_NoDup|by intros ? _ ?%elem_of_nil].
  rewrite app_nil_l. fold (Js.Object_keys additionalParams).
  fold (keptParams additionalParams).
  destruct (toString_chars (keptParams additionalParams)) as (_ & _ & _ & Hempty).
  destruct (decide (UrlSearchParams.toString _ = "")) as [He|He];
    destruct (decide (keptParams additionalParams = [])) as [Hk|Hk];
    [done|by apply Hempty in He|by apply Hempty in Hk|done].
Qed.

Lemma keptParams_length (additionalParams : Js.props (option string)) :
  length (keptParams additionalParams)
  = length (filter (λ k, is_Some (JsString.truthy_value (Js.read additionalParams k)))
              (Js.Object_keys additionalParams)).
Proof.
  unfold keptParams. generalize (Js.Object_keys additionalParams) as ks.
  induction ks as [|k ks IH]; [done|]. rewrite filter_cons. csimpl.
  destruct (JsString.truthy_value _) as [v|] eqn:Hv; csimpl.
  - by rewrite IH.
  - done.
Qed.

Lemma append_neq path rest : rest ≠ "" → path +:+ rest ≠ path.
Proof.
  intros Hrest Heq. apply (f_equal String.length) in Heq.
  rewrite append_length in Heq. destruct rest; [done|]. simpl in Heq. lia.
Qed.

(** X17. The query string of a built URL holds only letters, digits, the
    marks [* - . _], [+], [%] and the separators [=] and [&], whatever the
    names and values are; the path is returned as it is when the query is
    empty and followed by [?] and the query otherwise. *)
Theorem buildUrlWithConfig_query_characters path additionalParams :
  ∃ search,
    string_Forall query_char search
    ∧ (search = "" ∧ buildUrlWithConfig path additionalParams = path
       ∨ search ≠ "" ∧ buildUrlWithConfig path additionalParams = path +:+ "?" +:+ search).
Proof.
  unfold buildUrlWithConfig.
  match goal with |- context [UrlSearchParams.toString ?ps] => generalize ps end.
  intros params. exists (UrlSearchParams.toString params).
  split; [apply toString_chars|].
  destruct (decide (UrlSearchParams.toString params = "")); [by left|by right].
Qed.

(** X18. For an object of parameters, the built URL is the path itself
    exactly when no own key has a non-empty string value; otherwise the
    query has one [name=value] pair for each key with a non-empty value,
    the pairs separated by [&]. *)
Theorem buildUrlWithConfig_one_pair_per_value path
    (additionalParams : Js.props (option string)) :
  Js.wf additionalParams →
  let n := length (filter (λ k, is_Some (JsString.truthy_value (Js.read additionalParams k)))
                     (Js.Object_keys additionalParams)) in
  (buildUrlWithConfig path (Some additionalParams) = path ↔ n = 0%nat)
  ∧ ∃ search,
      buildUrlWithConfig path (Some additionalParams)
      = (if decide (n = 0%nat) then path else path +:+ "?" +:+ search)
      ∧ count_char "=" search = n
      ∧ count_char "&" search = (n - 1)%nat.
Proof.
  intros Hwf n. subst n. rewrite <-keptParams_length.
  rewrite (buildUrlWithConfig_kept _ _ Hwf).
  destruct (toString_chars (keptParams additionalParams)) as (_ & Heq & Hamp & Hempty).
  split.
  - destruct (decide (keptParams additionalParams = [])) as [->|Hk]; [done|].
    split.
    + intros Hpath. apply append_neq in Hpath; done.
    + intros Hlen. by apply nil_length_inv in Hlen.
  - exists (UrlSearchParams.toString (keptParams additionalParams)).
    split; [|done].
    destruct (decide (keptParams additionalParams = [])) as [->|Hk]; [done|].
    rewrite decide_False; [done|]. by intros ?%nil_length_inv.
Qed.

Lemma buildUrlWithConfig_one_pair_per_value_witness :
  Js.wf [("sidebar", Some "step"); ("hookId", Some ""); ("stepId", Some "a b");
         ("eventId", None)]
  ∧ ∃ search,
      buildUrlWithConfig "/run/wrun_1"
        (Some [("sidebar", Some "step"); ("hookId", Some ""); ("stepId", Some "a b");
               ("eventId", None)])
      = "/run/wrun_1" +:+ "?" +:+ search
      ∧ count_char "=" search = 2%nat
      ∧ count_char "&" search = 1%nat.
Proof.
  assert (Js.wf [("sidebar", Some "step"); ("hookId", Some ""); ("stepId", Some "a b");
                 ("eventId", None)]) as Hwf.
  { unfold Js.wf. simpl. repeat constructor; compute_done. }
  split; [exact Hwf|].
  destruct (buildUrlWithConfig_one_pair_per_value "/run/wrun_1" _ Hwf)
    as (_ & search & Hurl & Heq & Hamp).
  exists search. split; [exact Hurl|]. split; [exact Heq|exact Hamp].
Defined.

(** ** Reading a fingerprint back *)

(** The fingerprint is the JSON text of a record of strings.  The text can
    be read back one code unit at a time, so that two records with the same
    fingerprint hold the same settings. *)

Lemma string_app_assoc (s1 s2 s3 : string) : (s1 +:+ s2) +:+ s3 = s1 +:+ s2 +:+ s3.
Proof.
  induction s1 as [|c s1 IH]; [done|].
  change (String c (((s1 +:+ s2) +:+ s3)) = String c (s1 +:+ s2 +:+ s3)).
  by rewrite IH.
Qed.

(** Value of a lower-case hexadecimal digit. *)
Definition hex_value (c : ascii) : N :=
  let n := N_of_ascii c in
  if decide (n < 58)%N then (n - 48)%N else (n - 87)%N.

(** Reads the first code unit of the inside of a JSON string: [None] at the
    closing quote, otherwise the code unit and the rest of the text. *)
Definition read_code_unit (s : string) : option (ascii * string) :=
  match s with
  | String c rest =>
      if decide (c = Js.dquote) then None
      else if decide (c = Js.backslash) then
        match rest with
        | String t rest' =>
            if decide (t = "u"%char) then
              match rest' with
              | String _ (String _ (String h1 (String h2 rest''))) =>
                  Some (ascii_of_N (16 * hex_value h1 + hex_value h2), rest'')
              | _ => None
              end
            else if decide (t = "b"%char) then Some ("008"%char, rest')
            else if decide (t = "t"%char) then Some ("009"%char, rest')
            else if decide (t = "n"%char) then Some ("010"%char, rest')
            else if decide (t = "f"%char) then Some ("012"%char, rest')
            else if decide (t = "r"%char) then Some ("013"%char, rest')
            else Some (t, rest')
        | EmptyString => None
        end
      else Some (c, rest)
  | EmptyString => None
  end.

Lemma read_code_unit_escape (c : ascii) (rest : string) :
  read_code_unit (Js.escape_code_unit c +:+ rest) = Some (c, rest).
Proof. destruct c as [[] [] [] [] [] [] [] []]; vm_compute; reflexivity. Qed.

(** An escaped string followed by a quote determines the string and what
    follows the quote. *)
Lemma escape_delimited (s1 s2 r1 r2 : string) :
  Js.escape s1 +:+ String Js.dquote r1 = Js.escape s2 +:+ String Js.dquote r2 →
  s1 = s2 ∧ r1 = r2.
Proof.
  revert s2. induction s1 as [|c1 s1 IH]; intros [|c2 s2] Heq.
  - injection Heq as ->. done.
  - apply (f_equal read_code_unit) in Heq. cbn [Js.escape] in Heq.
    rewrite string_app_assoc, read_code_unit_escape in Heq. done.
  - apply (f_equal read_code_unit) in Heq. cbn [Js.escape] in Heq.
    rewrite string_app_assoc, read_code_unit_escape in Heq. done.
  - apply (f_equal read_code_unit) in Heq. cbn [Js.escape] in Heq.
    rewrite !string_app_assoc, !read_code_unit_escape in Heq.
    injection Heq as -> Heq. by destruct (IH _ Heq) as [-> ->].
Qed.

Lemma quote_delimited (s1 s2 r1 r2 : string) :
  Js.quote s1 +:+ r1 = Js.quote s2 +:+ r2 → s1 = s2 ∧ r1 = r2.
Proof.
  unfold Js.quote. intros Heq.
  change (String Js.dquote ((Js.escape s1 +:+ String Js.dquote "") +:+ r1)
          = String Js.dquote ((Js.escape s2 +:+ String Js.dquote "") +:+ r2)) in Heq.
  injection Heq as Heq. rewrite !string_app_assoc in Heq.
  by apply escape_delimited in Heq.
Qed.

(** The text of one member. *)
Definition member_text (p : string * string) : string :=
  Js.quote p.1 +:+ ":" +:+ Js.quote p.2.

Lemma member_text_delimited (p1 p2 : string * string) (r1 r2 : string) :
  member_text p1 +:+ r1 = member_text p2 +:+ r2 → p1 = p2 ∧ r1 = r2.
Proof.
  destruct p1 as [k1 v1], p2 as [k2 v2]. unfold member_text. cbn [fst snd].
  rewrite !string_app_assoc. intros Heq.
  apply quote_delimited in Heq as [-> Heq].
  injection Heq as Heq. rewrite !string_app_assoc in Heq.
  by apply escape_delimited in Heq as [-> ->].
Qed.

Lemma member_text_head (p : string * string) (r : string) :
  ∃ t, member_text p +:+ r = String Js.dquote t.
Proof. unfold member_text, Js.quote. eauto. Qed.

Lemma join_cons (sep s : string) (l : list string) :
  Js.join sep (s :: l)
  = s +:+ match l with [] => "" | _ => sep +:+ Js.join sep l end.
Proof.
  destruct l; [|done]. simpl. induction s as [|c s IH]; [done|].
  change (String c s = String c (s +:+ "")). by rewrite <-IH.
Qed.

(** A list of members between braces determines the members. *)
Lemma members_delimited (l1 l2 : list (string * string)) :
  Js.join "," (member_text <$> l1) +:+ "}" = Js.join "," (member_text <$> l2) +:+ "}" →
  l1 = l2.
Proof.
  revert l2. induction l1 as [|p1 l1 IH]; intros [|p2 l2].
  - done.
  - rewrite fmap_cons, join_cons, string_app_assoc.
    destruct (member_text_head p2
                (match member_text <$> l2 with
                 | [] => "" | _ => "," +:+ Js.join "," (member_text <$> l2)
                 end +:+ "}")) as [t ->].
    done.
  - rewrite fmap_cons, join_cons, string_app_assoc.
    destruct (member_text_head p1
                (match member_text <$> l1 with
                 | [] => "" | _ => "," +:+ Js.join "," (member_text <$> l1)
                 end +:+ "}")) as [t ->].
    done.
  - rewrite !fmap_cons, !join_cons, !string_app_assoc. intros Heq.
    apply member_text_delimited in Heq as [-> Heq]. f_equal.
    destruct l1 as [|q1 l1], l2 as [|q2 l2].
    + done.
    + rewrite fmap_cons in Heq. done.
    + rewrite fmap_cons in Heq. done.
    + apply IH. rewrite (fmap_cons _ q1), (fmap_cons _ q2) in Heq.
      rewrite !string_app_assoc in Heq. by injection Heq.
Qed.

(** The defined settings of a record, in the order the fingerprint lists
    them. *)
Definition listed (e : EnvMap) : list (string * string) :=
  omap (λ k, (λ v, (k, v)) <$> Js.read e k)
    (key_order (Js.Array_sort (filter (defined e) e.*1))).

Lemma cacheKeyOf_listed (e : EnvMap) :
  Js.wf e →
  cacheKeyOf e = "{" +:+ Js.join "," (member_text <$> listed e) +:+ "}".
Proof.
  intros Hwf. rewrite cacheKeyOf_normal_form by done. do 3 f_equal.
  unfold listed. generalize (key_order (Js.Array_sort (filter (defined e) e.*1))) as ks.
  induction ks as [|k ks IH]; [done|]. csimpl.
  unfold Js.member at 1. destruct (Js.read e k) as [v|]; csimpl; [|exact IH].
  by rewrite IH.
Qed.

Lemma listed_elem (e : EnvMap) (k v : string) :
  (k, v) ∈ listed e ↔ Js.read e k = Some v.
Proof.
  unfold listed. rewrite list_elem_of_omap. split.
  - intros (k' & _ & Hk'). destruct (Js.read e k') as [v'|] eqn:Hread; [|done].
    simpl in Hk'. by simplify_eq.
  - intros Hread. exists k. split; [|by rewrite Hread].
    assert (defined e k) as Hdef by (unfold defined; rewrite Hread; eauto).
    rewrite key_order_Permutation. unfold Js.Array_sort.
    rewrite merge_sort_Permutation. apply list_elem_of_filter.
    split; [done|by apply defined_key].
Qed.

(** X19. The fingerprint tells configurations apart.  Two effective
    configurations have the same fingerprint exactly when every setting
    reads the same in both: configurations that differ in the value of a
    setting, or in whether it is defined, never share a cache key. *)
Theorem cacheKey_faithful (env1 env2 : ProcessEnv) (m1 m2 : EnvMap) :
  Js.wf m1 → Js.wf m2 →
  (cacheKey env1 m1 = cacheKey env2 m2
   ↔ ∀ k, Js.read (effectiveEnvMap env1 m1) k = Js.read (effectiveEnvMap env2 m2) k).
Proof.
  intros Hwf1 Hwf2. unfold cacheKey.
  assert (Js.wf (effectiveEnvMap env1 m1)) as He1.
  { unfold effectiveEnvMap. destruct (hasServerConfig env1);
      [apply buildEnvMapFromProcessEnv_wf|done]. }
  assert (Js.wf (effectiveEnvMap env2 m2)) as He2.
  { unfold effectiveEnvMap. destruct (hasServerConfig env2);
      [apply buildEnvMapFromProcessEnv_wf|done]. }
  revert He1 He2.
  generalize (effectiveEnvMap env1 m1) as e1, (effectiveEnvMap env2 m2) as e2.
  intros e1 e2 He1 He2. split; [|by apply cacheKeyOf_ext].
  rewrite !cacheKeyOf_listed by done. intros Heq.
  injection Heq as Heq. apply members_delimited in Heq.
  intros k. destruct (Js.read e1 k) as [v|] eqn:H1.
  - apply listed_elem in H1. rewrite Heq in H1. by apply listed_elem in H1.
  - destruct (Js.read e2 k) as [v|] eqn:H2; [|done].
    apply listed_elem in H2. rewrite <-Heq in H2. apply listed_elem in H2.
    congruence.
Qed.

Lemma cacheKey_faithful_witness :
  Js.wf [("WORKFLOW_TARGET_WORLD", Some "local"); ("PORT", Some "3000")]
  ∧ Js.wf [("PORT", Some "3001"); ("WORKFLOW_TARGET_WORLD", Some "local")]
  ∧ cacheKey ∅ [("WORKFLOW_TARGET_WORLD", Some "local"); ("PORT", Some "3000")]
    ≠ cacheKey ∅ [("PORT", Some "3001"); ("WORKFLOW_TARGET_WORLD", Some "local")].
Proof.
  assert (Js.wf [("WORKFLOW_TARGET_WORLD", Some "local"); ("PORT", Some "3000")])
    as Hwf1 by (unfold Js.wf; compute_done).
  assert (Js.wf [("PORT", Some "3001"); ("WORKFLOW_TARGET_WORLD", Some "local")])
    as Hwf2 by (unfold Js.wf; compute_done).
  split; [exact Hwf1|]. split; [exact Hwf2|].
  intros Heq.
  pose proof (proj1 (cacheKey_faithful ∅ ∅ _ _ Hwf1 Hwf2) Heq "PORT") as Hport.
  vm_compute in Hport. discriminate Hport.
Defined.
